(** * AI Sampler Sequencer: pattern editing, step scheduling, export and
      generation, embedded from the TypeScript sources.

    Times, tempi and audio samples are exact rationals ([Q]); JavaScript
    arrays are lists read with [!!] and written with [JS.array_set]; a slot
    of type [string | null] is an [option string]; bytes are integers in
    [0, 256). *)

From Stdlib Require Import ZArith QArith Qround Qabs Qminmax Lqa Lia Ascii.
From stdpp Require Import base list strings.

Open Scope Q_scope.
Open Scope Z_scope.
Open Scope nat_scope.
Open Scope string_scope.
Open Scope list_scope.

(** * Part I: the program *)

(** ** JavaScript values used by the sources *)

Module JS.

(** [a[i] = v] on an array: in range the slot is overwritten, past the end
    the array grows and the skipped slots are holes (read back as [hole]). *)
Definition array_set {A} (hole : A) (l : list A) (i : nat) (v : A) : list A :=
  if decide (i < length l) then <[i:=v]> l
  else l ++ replicate (i - length l) hole ++ [v].

(** Truthiness of a [string | null] value: [null] and [""] are falsy. *)
Definition truthy (fx : option string) : bool :=
  match fx with
  | Some s => negb (String.eqb s "")
  | None => false
  end.

(** Strict equality [fx === 'name'] between strings. *)
Definition strictEq (fx name : string) : bool := String.eqb fx name.

(** Truncation towards zero of a rational (ToIntegerOrInfinity). *)
Definition trunc (x : Q) : Z := Z.quot (Qnum x) (Z.pos (Qden x)).

(** [Math.floor]. *)
Definition floor (x : Q) : Z := Qfloor x.

End JS.

(** ** src/App.tsx: the pattern and its editing operations *)

(** A pattern: the array of [string | null] slots. *)
Abbreviation Pattern := (list (option string)) (only parsing).

(** [Array(16).fill(null)] *)
Definition emptyPattern : Pattern := replicate 16 None.

(** [handleToggleStep], as the function from the current [pattern] and
    [selectedFx] to the array handed to [setPattern]. *)
Definition handleToggleStep (pattern : Pattern) (selectedFx : string) (index : nat)
  : Pattern :=
  let newPattern := pattern in
  if decide (newPattern !! index = Some (Some selectedFx))
  then JS.array_set None newPattern index None
  else JS.array_set None newPattern index (Some selectedFx).

(** [Object.keys(FX_CONFIG)], in insertion order. *)
Definition FX_KEYS : list string :=
  [ "normal"; "reverb"; "delay"; "reverse"; "glitch"; "lowpass"; "highpass";
    "bandpass"; "phaser"; "stutter"; "pitchUp"; "pitchDown"; "autoPan";
    "gate"; "bitcrusher"; "pingPong"; "filterSweep"; "vibrato"; "tapeStop";
    "stereoWiden" ].

(** ** Audio buffers *)

(** An [AudioBuffer]: [frames] is [buffer.length], [channelData] holds
    [getChannelData(c)] for each channel [c]. *)
Record AudioBuffer := mkAudioBuffer {
  sampleRate : Q;
  frames : nat;
  channelData : list (list Q)
}.

Definition numberOfChannels (b : AudioBuffer) : nat := length (channelData b).

(** [buffer.duration], in seconds. *)
Definition duration (b : AudioBuffer) : Q :=
  inject_Z (Z.of_nat (frames b)) / sampleRate b.

(** Every channel of a buffer has [frames] samples. *)
Definition wf_buffer (b : AudioBuffer) : Prop :=
  Forall (fun c => length c = frames b) (channelData b).

(** ** src/services/audioUtils.ts: WAV encoding and PCM decoding *)

Module DataView.

(** A [DataView] over an [ArrayBuffer] is the list of its bytes. A write
    outside the buffer raises a RangeError ([None]). Multi-byte writes are
    little-endian, as the source passes [true]. *)
Definition setUint8 (view : list Z) (pos : nat) (v : Z) : option (list Z) :=
  if decide (pos < length view) then Some (<[pos := (v mod 256)%Z]> view)
  else None.

Definition setUint16 (view : list Z) (pos : nat) (v : Z) : option (list Z) :=
  if decide (pos + 2 <= length view)
  then Some (<[pos + 1 := ((v / 256) mod 256)%Z]> (<[pos := (v mod 256)%Z]> view))
  else None.

Definition setUint32 (view : list Z) (pos : nat) (v : Z) : option (list Z) :=
  if decide (pos + 4 <= length view)
  then Some (<[pos + 3 := ((v / 16777216) mod 256)%Z]>
            (<[pos + 2 := ((v / 65536) mod 256)%Z]>
            (<[pos + 1 := ((v / 256) mod 256)%Z]>
            (<[pos := (v mod 256)%Z]> view))))
  else None.

(** [setInt16(pos, x, true)]: the number is truncated towards zero and
    reduced modulo 2^16 (ToInt16); the two's-complement bytes are stored. *)
Definition setInt16 (view : list Z) (pos : nat) (x : Q) : option (list Z) :=
  setUint16 view pos (JS.trunc x mod 65536)%Z.

End DataView.

(** [writeString]: one [setUint8] per character code. *)
Fixpoint writeString (view : list Z) (offset : nat) (str : string)
  : option (list Z) :=
  match str with
  | EmptyString => Some view
  | String c rest =>
      view' ← DataView.setUint8 view offset (Z.of_N (Ascii.N_of_ascii c));
      writeString view' (offset + 1) rest
  end.

(** [Math.max(-1, Math.min(1, x))] *)
Definition clamp (x : Q) : Q := Qmax (-1) (Qmin 1 x).

(** [sample < 0 ? sample * 0x8000 : sample * 0x7FFF] *)
Definition scale16 (sample : Q) : Q :=
  if Qlt_le_dec sample 0 then sample * 32768 else sample * 32767.

(** The inner [for] loop of [exportToWav]: one sample of every channel at
    frame [offset], written at [pos], [pos + 2], ... A channel shorter than
    [offset] reads [undefined], which ends up as the same bytes as 0. *)
Fixpoint writeFrame (channels : list (list Q)) (offset : nat)
    (view : list Z) (pos : nat) : option (list Z * nat) :=
  match channels with
  | [] => Some (view, pos)
  | ch :: rest =>
      let sample := clamp (default 0%Q (ch !! offset)) in
      let sample := scale16 sample in
      view' ← DataView.setInt16 view pos sample;
      writeFrame rest offset view' (pos + 2)
  end.

(** The [while (pos < length)] loop; [fuel] bounds its iterations and
    [None] is also the answer when it runs out. *)
Fixpoint writeSamples (fuel : nat) (channels : list (list Q)) (length : nat)
    (view : list Z) (pos offset : nat) : option (list Z) :=
  if decide (pos < length) then
    match fuel with
    | O => None
    | S fuel' =>
        '(view', pos') ← writeFrame channels offset view pos;
        writeSamples fuel' channels length view' pos' (offset + 1)
    end
  else Some view.

(** [exportToWav]: the bytes of the resulting Blob. *)
Definition exportToWav (buffer : AudioBuffer) : option (list Z) :=
  let numOfChan := numberOfChannels buffer in
  let length := frames buffer * numOfChan * 2 + 44 in
  let view := replicate length 0%Z in
  let pos := 0 in
  view ← writeString view pos "RIFF"; let pos := pos + 4 in
  view ← DataView.setUint32 view pos (Z.of_nat (length - 8)); let pos := pos + 4 in
  view ← writeString view pos "WAVE"; let pos := pos + 4 in
  view ← writeString view pos "fmt "; let pos := pos + 4 in
  view ← DataView.setUint32 view pos 16; let pos := pos + 4 in
  view ← DataView.setUint16 view pos 1; let pos := pos + 2 in
  view ← DataView.setUint16 view pos (Z.of_nat numOfChan); let pos := pos + 2 in
  view ← DataView.setUint32 view pos (JS.trunc (sampleRate buffer) mod 4294967296)%Z;
  let pos := pos + 4 in
  view ← DataView.setUint32 view pos
           (JS.trunc (sampleRate buffer * 2 * inject_Z (Z.of_nat numOfChan))
              mod 4294967296)%Z;
  let pos := pos + 4 in
  view ← DataView.setUint16 view pos (Z.of_nat (numOfChan * 2)); let pos := pos + 2 in
  view ← DataView.setUint16 view pos 16; let pos := pos + 2 in
  view ← writeString view pos "data"; let pos := pos + 4 in
  view ← DataView.setUint32 view pos (Z.of_nat (length - pos - 4)); let pos := pos + 4 in
  writeSamples (frames buffer) (channelData buffer) length view pos 0.

(** A 16-bit little-endian two's-complement element of an [Int16Array]. *)
Definition int16_of_bytes (lo hi : Z) : Z :=
  let u := (lo + 256 * hi)%Z in
  if (u <? 32768)%Z then u else (u - 65536)%Z.

(** [new Int16Array(data.buffer, data.byteOffset, data.byteLength / 2)]:
    a trailing odd byte is not part of the view. *)
Fixpoint int16Array (data : list Z) : list Z :=
  match data with
  | lo :: hi :: rest => int16_of_bytes lo hi :: int16Array rest
  | _ => []
  end.

(** [decodePCMAudioData]: two interleaved channels at 48 kHz.
    [createBuffer] refuses a buffer of zero frames ([None]). *)
Definition decodePCMAudioData (data : list Z) : option AudioBuffer :=
  let sampleRate := 48000%Q in
  let numChannels := 2 in
  let dataInt16 := int16Array data in
  let frameCount := length dataInt16 / numChannels in
  if decide (frameCount = 0) then None
  else
    Some (mkAudioBuffer sampleRate frameCount
            (map (fun channel : nat =>
                    map (fun i : nat =>
                           (inject_Z (default 0%Z (dataInt16 !! (i * numChannels + channel)%nat))
                            / 32768.0)%Q)
                        (seq 0 frameCount))
                 (seq 0 numChannels))).

(** ** Web Audio: the calls the sequencer makes on an audio context *)

Inductive NodeKind :=
| BufferSourceNode
| ConvolverNode
| DelayNode (maxDelayTime : Q)
| GainNode
| ChannelMergerNode (inputs : nat)
| ChannelSplitterNode (outputs : nat)
| BiquadFilterNode
| OscillatorNode
| StereoPannerNode
| WaveShaperNode.

Inductive ParamName :=
| gain | delayTime | playbackRate | detune | frequency | Qfactor | pan.

(** Where [connect] sends a node's output: another node of the step, one of
    its parameters, the shared limiter (the master bus), or the context's
    destination. *)
Inductive Target :=
| ToNode (id : nat)
| ToParam (id : nat) (p : ParamName)
| ToLimiter
| ToDestination.

(** The table [createWaveShaper().curve] holds; its 65536 single-precision
    entries are not computed here. *)
Inductive Curve := BitcrusherCurve (bits : nat) (norm_freq : Q).

(** One call on the audio context or on a node created by it. Nodes are
    numbered in creation order. [Connect src dst output input] carries the
    output and input indices, 0 when the source omits them. *)
Inductive Action :=
| Create (id : nat) (kind : NodeKind)
| SetBuffer (id : nat) (buffer : AudioBuffer)
| SetType (id : nat) (type : string)
| SetCurve (id : nat) (curve : Curve)
| SetValue (id : nat) (p : ParamName) (value : Q)
| SetValueAtTime (id : nat) (p : ParamName) (value time : Q)
| LinearRampToValueAtTime (id : nat) (p : ParamName) (value time : Q)
| ExponentialRampToValueAtTime (id : nat) (p : ParamName) (value time : Q)
| Connect (src : nat) (dst : Target) (output input : nat)
| Start (id : nat) (when : Q) (offset duration : option Q)
| Stop (id : nat) (when : Q).

(** Graph-building code: from the number of nodes created so far to a result,
    the new node count and the calls made, in order. *)
Definition Build (A : Type) : Type := nat -> A * nat * list Action.

#[global] Instance Build_ret : MRet Build := fun A x n => (x, n, []).

#[global] Instance Build_bind : MBind Build := fun A B f m n =>
  let '(x, n1, acts1) := m n in
  let '(y, n2, acts2) := f x n1 in
  (y, n2, acts1 ++ acts2).

Definition call (a : Action) : Build unit := fun n => (tt, n, [a]).

Definition create (kind : NodeKind) : Build nat :=
  fun n => (n, S n, [Create n kind]).

(** [for (let i = 0; i < count; i++) body(i)] *)
Fixpoint forLoop (count : nat) (body : nat -> Build unit) : Build unit :=
  match count with
  | O => mret tt
  | S k => forLoop k body ;; body k
  end.

(** The calls made by a builder started with [n] nodes already created. *)
Definition calls {A} (m : Build A) (n : nat) : list Action := (m n).2.

(** Observations on a list of calls. *)

(** The [start] calls: node, time, offset and duration. *)
Definition starts (acts : list Action)
  : list (nat * Q * option Q * option Q) :=
  omap (fun a => match a with
                 | Start id w o d => Some (id, w, o, d)
                 | _ => None
                 end) acts.

(** The [connect] calls leaving node [id]. *)
Definition outgoing (id : nat) (acts : list Action) : list Target :=
  omap (fun a => match a with
                 | Connect src dst _ _ =>
                     if decide (src = id) then Some dst else None
                 | _ => None
                 end) acts.

(** The nodes created. *)
Definition created (acts : list Action) : list (nat * NodeKind) :=
  omap (fun a => match a with
                 | Create id k => Some (id, k)
                 | _ => None
                 end) acts.

(** The buffers assigned to node [id]. *)
Definition buffersOf (id : nat) (acts : list Action) : list AudioBuffer :=
  omap (fun a => match a with
                 | SetBuffer i b => if decide (i = id) then Some b else None
                 | _ => None
                 end) acts.

(** The [setValueAtTime] calls on the gain of node [id]: value and time. *)
Definition gainsOf (id : nat) (acts : list Action) : list (Q * Q) :=
  omap (fun a => match a with
                 | SetValueAtTime i gain v t =>
                     if decide (i = id) then Some (v, t) else None
                 | _ => None
                 end) acts.

(** ** src/components/Sequencer.tsx *)

(** What the [scheduler] closure captures: the props and the two refs filled
    when an audio context exists. [stereoPanner] tells whether the context
    has [createStereoPanner]. *)
Record Sequencer := mkSequencer {
  bpm : Q;
  sampleBuffer : option AudioBuffer;
  reversedSampleBuffer : option AudioBuffer;
  audioContext : bool;
  stereoPanner : bool;
  pattern : Pattern;
  impulseResponse : option AudioBuffer;
  limiter : bool
}.

(** The [switch (fx)] of the scheduler: builds the effect chain after
    [source] and returns the node that ends it ([currentNode]), or [None]
    when a call raises: "autoPan" calls [audioContext.createStereoPanner()]
    without checking that the context has it. *)
Definition effectChain (sq : Sequencer) (fx : string)
    (sampleBuffer : AudioBuffer) (source : nat) (playTime : Q)
  : Build (option nat) :=
  let bpm := bpm sq in
  let currentNode := source in
  if JS.strictEq fx "reverb" then
    match impulseResponse sq with
    | Some ir =>
        convolver ← create ConvolverNode;
        call (SetBuffer convolver ir) ;;
        call (Connect currentNode (ToNode convolver) 0 0) ;;
        mret (Some convolver)
    | None => mret (Some currentNode)
    end
  else if JS.strictEq fx "delay" then
    delay ← create (DelayNode 5.0);
    call (SetValue delay delayTime ((60.0 / bpm) * 0.75)) ;;
    feedback ← create GainNode;
    call (SetValue feedback gain 0.4) ;;
    wetLevel ← create GainNode;
    call (SetValue wetLevel gain 0.5) ;;
    call (Connect currentNode (ToNode delay) 0 0) ;;
    call (Connect delay (ToNode feedback) 0 0) ;;
    call (Connect feedback (ToNode delay) 0 0) ;;
    call (Connect delay (ToNode wetLevel) 0 0) ;;
    call (Connect wetLevel ToLimiter 0 0) ;;
    mret (Some currentNode)
  else if JS.strictEq fx "pingPong" then
    delayL ← create (DelayNode 5.0);
    delayR ← create (DelayNode 5.0);
    feedback ← create GainNode;
    merger ← create (ChannelMergerNode 2);
    splitter ← create (ChannelSplitterNode 2);
    let delayTime_ := ((60.0 / bpm) / 2.0)%Q in
    call (SetValue delayL delayTime delayTime_) ;;
    call (SetValue delayR delayTime delayTime_) ;;
    call (SetValue feedback gain 0.5) ;;
    call (Connect currentNode (ToNode splitter) 0 0) ;;
    call (Connect splitter (ToNode delayL) 0 0) ;;
    call (Connect splitter (ToNode delayR) 1 0) ;;
    call (Connect delayL (ToNode feedback) 0 0) ;;
    call (Connect feedback (ToNode delayR) 0 0) ;;
    call (Connect delayR (ToNode merger) 0 1) ;;
    call (Connect delayL (ToNode merger) 0 0) ;;
    mret (Some merger)
  else if JS.strictEq fx "glitch" then
    let stutterTime := 0.05%Q in
    let numStutters := 3 in
    forLoop numStutters (fun i =>
      let i_ := inject_Z (Z.of_nat i) in
      gain_ ← create GainNode;
      call (SetValueAtTime gain_ gain
              (1 - i_ / inject_Z (Z.of_nat numStutters))
              (playTime + i_ * stutterTime)) ;;
      stutterSource ← create BufferSourceNode;
      call (SetBuffer stutterSource sampleBuffer) ;;
      call (Connect stutterSource (ToNode gain_) 0 0) ;;
      call (Connect gain_ ToLimiter 0 0) ;;
      call (Start stutterSource (playTime + i_ * stutterTime)
              (Some 0%Q) (Some stutterTime))) ;;
    dummy ← create GainNode;
    mret (Some dummy)
  else if JS.strictEq fx "stutter" then
    let numRepeats := 4 in
    let repeatTime := ((60.0 / bpm) / 8.0)%Q in
    forLoop numRepeats (fun i =>
      let i_ := inject_Z (Z.of_nat i) in
      stutterSource ← create BufferSourceNode;
      call (SetBuffer stutterSource sampleBuffer) ;;
      call (Connect stutterSource ToLimiter 0 0) ;;
      call (Start stutterSource (playTime + i_ * repeatTime)
              (Some 0%Q) (Some repeatTime))) ;;
    dummy ← create GainNode;
    mret (Some dummy)
  else if JS.strictEq fx "tapeStop" then
    call (SetValueAtTime source playbackRate 1 playTime) ;;
    call (ExponentialRampToValueAtTime source playbackRate 0.01
            (playTime + duration sampleBuffer * 0.75)) ;;
    mret (Some currentNode)
  else if JS.strictEq fx "lowpass" then
    filter ← create BiquadFilterNode;
    call (SetType filter "lowpass") ;;
    call (SetValue filter frequency 800) ;;
    call (Connect currentNode (ToNode filter) 0 0) ;;
    mret (Some filter)
  else if JS.strictEq fx "highpass" then
    filter ← create BiquadFilterNode;
    call (SetType filter "highpass") ;;
    call (SetValue filter frequency 4000) ;;
    call (Connect currentNode (ToNode filter) 0 0) ;;
    mret (Some filter)
  else if JS.strictEq fx "bandpass" then
    filter ← create BiquadFilterNode;
    call (SetType filter "bandpass") ;;
    call (SetValue filter frequency 1500) ;;
    call (SetValue filter Qfactor 5) ;;
    call (Connect currentNode (ToNode filter) 0 0) ;;
    mret (Some filter)
  else if JS.strictEq fx "filterSweep" then
    filter ← create BiquadFilterNode;
    call (SetType filter "lowpass") ;;
    call (SetValue filter Qfactor 3) ;;
    call (SetValueAtTime filter frequency 100 playTime) ;;
    call (ExponentialRampToValueAtTime filter frequency 8000
            (playTime + duration sampleBuffer)) ;;
    call (Connect currentNode (ToNode filter) 0 0) ;;
    mret (Some filter)
  else if JS.strictEq fx "phaser" then
    allpass1 ← create BiquadFilterNode;
    call (SetType allpass1 "allpass") ;;
    call (SetValue allpass1 frequency 1000) ;;
    allpass2 ← create BiquadFilterNode;
    call (SetType allpass2 "allpass") ;;
    call (SetValue allpass2 frequency 1000) ;;
    lfo ← create OscillatorNode;
    call (SetType lfo "sine") ;;
    call (SetValue lfo frequency 2) ;;
    lfoGain ← create GainNode;
    call (SetValue lfoGain gain 800) ;;
    call (Connect lfo (ToNode lfoGain) 0 0) ;;
    call (Connect lfoGain (ToParam allpass1 frequency) 0 0) ;;
    call (Connect lfoGain (ToParam allpass2 frequency) 0 0) ;;
    call (Connect currentNode (ToNode allpass1) 0 0) ;;
    call (Connect allpass1 (ToNode allpass2) 0 0) ;;
    call (Start lfo playTime None None) ;;
    call (Stop lfo (playTime + duration sampleBuffer)) ;;
    mret (Some allpass2)
  else if JS.strictEq fx "pitchUp" then
    call (SetValue source playbackRate 1.5) ;;
    mret (Some currentNode)
  else if JS.strictEq fx "pitchDown" then
    call (SetValue source playbackRate 0.75) ;;
    mret (Some currentNode)
  else if JS.strictEq fx "vibrato" then
    lfo ← create OscillatorNode;
    call (SetType lfo "sine") ;;
    call (SetValue lfo frequency 5) ;;
    lfoGain ← create GainNode;
    call (SetValue lfoGain gain 15) ;;
    call (Connect lfo (ToNode lfoGain) 0 0) ;;
    call (Connect lfoGain (ToParam source detune) 0 0) ;;
    call (Start lfo playTime None None) ;;
    call (Stop lfo (playTime + duration sampleBuffer)) ;;
    mret (Some currentNode)
  else if JS.strictEq fx "autoPan" then
    if stereoPanner sq then
      panner ← create StereoPannerNode;
      lfo ← create OscillatorNode;
      call (SetType lfo "sine") ;;
      call (SetValue lfo frequency ((bpm / 60) * 2)) ;;
      call (Connect lfo (ToParam panner pan) 0 0) ;;
      call (Connect currentNode (ToNode panner) 0 0) ;;
      call (Start lfo playTime None None) ;;
      call (Stop lfo (playTime + duration sampleBuffer)) ;;
      mret (Some panner)
    else mret None
  else if JS.strictEq fx "gate" then
    gateGain ← create GainNode;
    call (SetValueAtTime gateGain gain 0 playTime) ;;
    let stepDuration := (60.0 / bpm / 4.0)%Q in
    call (LinearRampToValueAtTime gateGain gain 1 (playTime + stepDuration * 0.05)) ;;
    call (SetValueAtTime gateGain gain 1 (playTime + stepDuration * 0.45)) ;;
    call (LinearRampToValueAtTime gateGain gain 0 (playTime + stepDuration * 0.5)) ;;
    call (Connect currentNode (ToNode gateGain) 0 0) ;;
    mret (Some gateGain)
  else if JS.strictEq fx "bitcrusher" then
    crusher ← create WaveShaperNode;
    let bits := 4 in
    let norm_freq := 0.1%Q in
    call (SetCurve crusher (BitcrusherCurve bits norm_freq)) ;;
    call (Connect currentNode (ToNode crusher) 0 0) ;;
    mret (Some crusher)
  else if JS.strictEq fx "stereoWiden" then
    if stereoPanner sq then
      splitter ← create (ChannelSplitterNode 2);
      merger ← create (ChannelMergerNode 2);
      delay ← create (DelayNode 1);
      call (SetValue delay delayTime 0.01) ;;
      call (Connect currentNode (ToNode splitter) 0 0) ;;
      call (Connect splitter (ToNode delay) 0 0) ;;
      call (Connect delay (ToNode merger) 0 0) ;;
      call (Connect splitter (ToNode merger) 1 1) ;;
      mret (Some merger)
    else mret (Some currentNode)
  else mret (Some currentNode).

(** The body of [if (fx && sampleBuffer)]: the effect graph of one step,
    triggered at [playTime]. The result is [None] when the effect chain
    raised: the calls made before it stay, and nothing after it is run. *)
Definition triggerStep (sq : Sequencer) (fx : string)
    (sampleBuffer : AudioBuffer) (playTime : Q) : Build (option unit) :=
  source ← create BufferSourceNode;
  (if JS.strictEq fx "reverse"
   then call (SetBuffer source (default sampleBuffer (reversedSampleBuffer sq)))
   else call (SetBuffer source sampleBuffer)) ;;
  chain ← effectChain sq fx sampleBuffer source playTime;
  match chain with
  | Some currentNode =>
      if negb (JS.strictEq fx "glitch") && negb (JS.strictEq fx "stutter")
      then
        call (Connect currentNode ToLimiter 0 0) ;;
        call (Start source playTime None None) ;;
        mret (Some tt)
      else mret (Some tt)
  | None => mret None
  end.

(** The mutable state of a playing sequencer: the refs [nextStepTimeRef],
    [stepRef] and [timerRef], the displayed [currentStep], and what has
    been handed to the audio context so far. [fired] logs the step index and
    trigger time of every step whose graph was built without raising. *)
Record Playback := mkPlayback {
  nextStepTime : Q;
  stepRef : nat;
  currentStep : Z;
  timerRef : bool;
  nodeCount : nat;
  audio : list Action;
  fired : list (nat * Q)
}.

(** [60.0 / bpm / 4.0] *)
Definition secondsPerStep (bpm : Q) : Q := (60.0 / bpm / 4.0)%Q.

(** Whether the loop iteration that begins in state [st] raises: its step
    is triggered and building its graph raises. *)
Definition stepRaises (sq : Sequencer) (st : Playback) : bool :=
  let fx := mjoin (pattern sq !! stepRef st) in
  match fx, sampleBuffer sq with
  | Some name, Some buf =>
      JS.truthy fx
      && bool_decide
           ((triggerStep sq name buf (nextStepTime st) (nodeCount st)).1.1
            = None)
  | _, _ => false
  end.

(** One iteration of the scheduler's [while] loop: the state it leaves. An
    iteration that raises leaves the calls made before the exception and
    neither logs the step nor advances the refs. *)
Definition schedulerStep (sq : Sequencer) (st : Playback) : Playback :=
  let fx := mjoin (pattern sq !! stepRef st) in
  let st' :=
    match fx, sampleBuffer sq with
    | Some name, Some buf =>
        if JS.truthy fx then
          let playTime := nextStepTime st in
          let '(result, n, acts) :=
            triggerStep sq name buf playTime (nodeCount st) in
          mkPlayback (nextStepTime st) (stepRef st) (currentStep st)
            (timerRef st) n (audio st ++ acts)
            (match result with
             | Some _ => fired st ++ [(stepRef st, playTime)]
             | None => fired st
             end)
        else st
    | _, _ => st
    end in
  if stepRaises sq st then st'
  else
    mkPlayback (nextStepTime st' + secondsPerStep (bpm sq))%Q
      ((stepRef st' + 1) mod 16)
      (Z.of_nat (stepRef st'))
      (timerRef st') (nodeCount st') (audio st') (fired st').

(** [while (nextStepTimeRef.current < audioContext.currentTime + 0.1)];
    [now] is [audioContext.currentTime]. [None] when the loop does not
    return: an iteration raised, or [fuel] iterations were not enough. *)
Fixpoint schedulerLoop (fuel : nat) (sq : Sequencer) (now : Q) (st : Playback)
  : option Playback :=
  if Qlt_le_dec (nextStepTime st) (now + 0.1) then
    match fuel with
    | O => None
    | S fuel' =>
        if stepRaises sq st then None
        else schedulerLoop fuel' sq now (schedulerStep sq st)
    end
  else Some st.

(** [scheduler]: nothing without an audio context and a limiter; otherwise
    the loop, then [setTimeout(scheduler, 25.0)]. [None] when the loop does
    not return, so that the timer is not set again. *)
Definition scheduler (fuel : nat) (sq : Sequencer) (now : Q) (st : Playback)
  : option Playback :=
  if negb (audioContext sq) || negb (limiter sq) then Some st
  else
    st' ← schedulerLoop fuel sq now st;
    Some (mkPlayback (nextStepTime st') (stepRef st') (currentStep st')
            true (nodeCount st') (audio st') (fired st')).

(** The effect run when [isPlaying] becomes true: both refs are reset and
    the scheduler is called once. [now] is the clock at that moment. *)
Definition startPlayback (fuel : nat) (sq : Sequencer) (now : Q)
    (nodes : nat) : option Playback :=
  let start := if audioContext sq then now else 0%Q in
  scheduler fuel sq now (mkPlayback start 0 (-1) false nodes [] []).


(** Each later timer callback runs [scheduler] at the clock value of its
    tick. After a call that did not return there is no timer, and no later
    callback. *)
Fixpoint ticks (fuel : nat) (sq : Sequencer) (clock : list Q) (st : Playback)
  : option Playback :=
  match clock with
  | [] => Some st
  | now :: later => st' ← scheduler fuel sq now st; ticks fuel sq later st'
  end.

(** A playback run: the start at [now] followed by the timer callbacks at
    the clock values [clock], until playback stops or is re-configured.
    [Some] when every scheduler call of the run returned. *)
Definition playbackRun (fuel : nat) (sq : Sequencer) (now : Q)
    (clock : list Q) : option Playback :=
  st ← startPlayback fuel sq now 0; ticks fuel sq clock st.

(** The effect run when [isPlaying] becomes false. *)
Definition stopPlayback (st : Playback) : Playback :=
  mkPlayback (nextStepTime st) (stepRef st) (-1) false
    (nodeCount st) (audio st) (fired st).

(** ** src/App.tsx: export and randomize *)

(** The state [exportSequence] and [handleRandomizePattern] read.
    [contextSampleRate] is [audioContextRef.current.sampleRate], absent
    while no audio context exists. *)
Record App := mkApp {
  appBpm : Q;
  appPattern : Pattern;
  sequencerSample : option AudioBuffer;
  reversedSequencerSample : option AudioBuffer;
  contextSampleRate : option Q
}.

(** The arguments of [new OfflineAudioContext(channels, length, rate)]. *)
Record OfflineAudioContext := mkOfflineAudioContext {
  offlineChannels : nat;
  offlineLength : Z;
  offlineSampleRate : Q
}.

(** The rendered duration of an offline context, in seconds. *)
Definition offlineDuration (ctx : OfflineAudioContext) : Q :=
  inject_Z (offlineLength ctx) / offlineSampleRate ctx.

(** What [exportSequence] does before rendering: it returns at once, or the
    constructor refuses a context without channels or frames, or sources are
    scheduled on the offline context. Rendering, encoding (by [exportToWav])
    and the download follow. *)
Inductive ExportResult :=
| NotExported
| ContextRefused
| Scheduled (ctx : OfflineAudioContext) (acts : list Action).

(** The body of the [for] loop of [exportSequence], for step [i]. *)
Definition exportStep (pattern : Pattern) (sample : AudioBuffer)
    (reversed : option AudioBuffer) (secondsPerStep : Q) (i : nat)
  : Build unit :=
  let slot := mjoin (pattern !! i) in
  if JS.truthy slot then
    let startTime := (inject_Z (Z.of_nat i) * secondsPerStep)%Q in
    source ← create BufferSourceNode;
    call (SetBuffer source
            (match slot, reversed with
             | Some fx, Some rev =>
                 if JS.strictEq fx "reverse" then rev else sample
             | _, _ => sample
             end)) ;;
    call (Connect source ToDestination 0 0) ;;
    call (Start source startTime None None)
  else mret tt.

(** [for (let i = 0; i < 16; i++) { ... }] *)
Definition exportSources (pattern : Pattern) (sample : AudioBuffer)
    (reversed : option AudioBuffer) (secondsPerStep : Q) : Build unit :=
  forLoop 16 (exportStep pattern sample reversed secondsPerStep).

Definition exportSequence (app : App) : ExportResult :=
  match sequencerSample app, contextSampleRate app with
  | Some sample, Some sampleRate =>
      let secondsPerStep := (60.0 / appBpm app / 4.0)%Q in
      let totalDuration := (secondsPerStep * 16)%Q in
      let totalFrames := JS.floor (totalDuration * sampleRate) in
      if decide (numberOfChannels sample = 0 \/ (totalFrames <= 0)%Z)
      then ContextRefused
      else
        Scheduled
          (mkOfflineAudioContext (numberOfChannels sample) totalFrames sampleRate)
          (calls (exportSources (appPattern app) sample
                    (reversedSequencerSample app) secondsPerStep) 0)
  | _, _ => NotExported
  end.

(** [[...Object.keys(FX_CONFIG), null, null, null, null, null, null]] *)
Definition possibleStates : list (option string) :=
  (Some <$> FX_KEYS) ++ [None; None; None; None; None; None].

(** [p.join(',')]: a [null] element is joined as the empty string. *)
Fixpoint join (p : Pattern) : string :=
  match p with
  | [] => ""
  | [x] => default "" x
  | x :: rest => default "" x +:+ "," +:+ join rest
  end.

Definition isSamePattern (p1 p2 : Pattern) : bool :=
  String.eqb (join p1) (join p2).

(** [Array(16).fill(null).map(() => possibleStates[Math.floor(Math.random()
    * possibleStates.length)])]. [random n] is the value of the [n]-th call
    of [Math.random]; [used] calls were made before this draw. An index past
    the pool reads [undefined], which no value of [Math.random] produces. *)
Definition drawPattern (random : nat -> Q) (used : nat) : Pattern :=
  map (fun j =>
         mjoin (possibleStates !!
                  Z.to_nat (JS.floor (random (used + j)
                                      * inject_Z (Z.of_nat (length possibleStates))))))
      (seq 0 16).

(** [newPattern.every(step => step === null)] *)
Definition everyNull (p : Pattern) : bool :=
  forallb (fun step => match step with None => true | Some _ => false end) p.

(** The [do ... while] loop of [handleRandomizePattern]; the pattern handed
    to [setPattern], or [None] when [fuel] draws were all rejected. *)
Fixpoint randomizeLoop (fuel : nat) (random : nat -> Q) (used : nat)
    (pattern : Pattern) : option Pattern :=
  match fuel with
  | O => None
  | S fuel' =>
      let newPattern := drawPattern random used in
      if isSamePattern newPattern pattern || everyNull newPattern
      then randomizeLoop fuel' random (used + 16) pattern
      else Some newPattern
  end.

Definition handleRandomizePattern (fuel : nat) (random : nat -> Q)
    (pattern : Pattern) : option Pattern :=
  randomizeLoop fuel random 0 pattern.

(** ** The platform's base64 codec *)

Module Base64.

Definition alphabet : list ascii :=
  String.list_ascii_of_string
    "ABCDEFGHIJKLMNOPQRSTUVWXYZabcdefghijklmnopqrstuvwxyz0123456789+/".

Definition encodeSextet (n : N) : ascii :=
  nth (N.to_nat n) alphabet "="%char.

Fixpoint indexOf (c : ascii) (l : list ascii) (i : N) : option N :=
  match l with
  | [] => None
  | x :: rest => if Ascii.eqb c x then Some i else indexOf c rest (i + 1)%N
  end.

Definition decodeSextet (c : ascii) : option N := indexOf c alphabet 0%N.

Definition byte (n : N) : ascii := ascii_of_N (n mod 256)%N.

(** [btoa] on the character codes of a binary string. *)
Fixpoint encodeBytes (bytes : list N) : list ascii :=
  match bytes with
  | a :: b :: c :: rest =>
      let n := (a * 65536 + b * 256 + c)%N in
      encodeSextet (n / 262144) :: encodeSextet ((n / 4096) mod 64)
        :: encodeSextet ((n / 64) mod 64) :: encodeSextet (n mod 64)
        :: encodeBytes rest
  | [a; b] =>
      let n := ((a * 256 + b) * 4)%N in
      [encodeSextet (n / 4096); encodeSextet ((n / 64) mod 64);
       encodeSextet (n mod 64); "="%char]
  | [a] =>
      let n := (a * 16)%N in
      [encodeSextet (n / 64); encodeSextet (n mod 64); "="%char; "="%char]
  | [] => []
  end.

Definition btoa (binary : string) : string :=
  String.string_of_list_ascii
    (encodeBytes (map N_of_ascii (String.list_ascii_of_string binary))).

Fixpoint decodeSextets (s : list N) : list ascii :=
  match s with
  | a :: b :: c :: d :: rest =>
      let n := (((a * 64 + b) * 64 + c) * 64 + d)%N in
      byte (n / 65536) :: byte (n / 256) :: byte n :: decodeSextets rest
  | [a; b; c] =>
      let n := ((((a * 64 + b) * 64 + c)) / 4)%N in
      [byte (n / 256); byte n]
  | [a; b] => [byte ((a * 64 + b) / 16)]
  | _ => []
  end.

Definition isWhitespace (c : ascii) : bool :=
  let n := N_of_ascii c in
  (n =? 9)%N || (n =? 10)%N || (n =? 12)%N || (n =? 13)%N || (n =? 32)%N.

(** Removes one or two trailing ["="] from a reversed string. *)
Definition stripPadding (reversed : list ascii) : list ascii :=
  match reversed with
  | "="%char :: "="%char :: rest => rest
  | "="%char :: rest => rest
  | _ => reversed
  end.

(** [atob], the forgiving base64 decoder; [None] when it throws. *)
Definition atob (data : string) : option string :=
  let chars :=
    filter (fun c => isWhitespace c = false) (String.list_ascii_of_string data) in
  let chars :=
    if decide (length chars mod 4 = 0) then rev (stripPadding (rev chars))
    else chars in
  if decide (length chars mod 4 = 1) then None
  else
    sextets ← mapM decodeSextet chars;
    Some (String.string_of_list_ascii (decodeSextets sextets)).

End Base64.

(** ** src/services/geminiService.ts: [generateAudio] *)

(** The state of the promise [generateAudio] returns. *)
Inductive Settlement :=
| Pending
| Resolved (base64 : string)
| Rejected (message : string).

(** The variables of one [generateAudio] call. [session] tells whether the
    session variable has been assigned; a timeout field is true while its
    timer is armed; [closeCalls] counts the calls of [session.close()]. *)
Record Generation := mkGeneration {
  session : bool;
  audioChunks : list (list Z);
  totalByteLength : nat;
  collectionTimeout : bool;
  initialTimeout : bool;
  sessionClosed : bool;
  hasReceivedAudio : bool;
  promise : Settlement;
  closeCalls : nat
}.

(** What can happen to a call: the connection attempt fails or succeeds, the
    session setup fails or completes, and the callbacks and timers fire. A
    message carries [serverContent?.audioChunks], each chunk with its
    optional [data]. *)
Inductive Event :=
| ConnectFailed (err : string)
| Connected
| SetupFailed (err : string)
| SetupDone
| Message (chunks : option (list (option string)))
| SessionError
| SessionClose
| InitialTimeoutFires
| CollectionTimeoutFires.

Definition noAudioMessage : string :=
  "Music generation did not produce any audio. The model may be warming up. Please try again in a moment.".

Definition sessionErrorMessage : string :=
  "A session error occurred. Please check the console for details.".

Definition initialGeneration : Generation :=
  mkGeneration false [] 0 false false false false Pending 0.

(** A promise settles once: [resolve] and [reject] act on a pending one. *)
Definition resolve (v : string) (g : Generation) : Generation :=
  match promise g with
  | Pending =>
      mkGeneration (session g) (audioChunks g) (totalByteLength g)
        (collectionTimeout g) (initialTimeout g) (sessionClosed g)
        (hasReceivedAudio g) (Resolved v) (closeCalls g)
  | _ => g
  end.

Definition reject (e : string) (g : Generation) : Generation :=
  match promise g with
  | Pending =>
      mkGeneration (session g) (audioChunks g) (totalByteLength g)
        (collectionTimeout g) (initialTimeout g) (sessionClosed g)
        (hasReceivedAudio g) (Rejected e) (closeCalls g)
  | _ => g
  end.

(** [target.set(chunk, offset)] on a [Uint8Array]: a RangeError ([None])
    when the chunk does not fit. *)
Definition typedArraySet (target chunk : list Z) (offset : nat)
  : option (list Z) :=
  if decide (offset + length chunk <= length target)
  then Some (take offset target ++ chunk ++ drop (offset + length chunk) target)
  else None.

(** [for (const chunk of audioChunks) { fullAudio.set(chunk, offset);
    offset += chunk.length }] *)
Fixpoint copyChunks (chunks : list (list Z)) (fullAudio : list Z)
    (offset : nat) : option (list Z) :=
  match chunks with
  | [] => Some fullAudio
  | chunk :: rest =>
      fullAudio' ← typedArraySet fullAudio chunk offset;
      copyChunks rest fullAudio' (offset + length chunk)
  end.

(** The binary string built with [String.fromCharCode] from bytes. *)
Definition binaryString (bytes : list Z) : string :=
  String.string_of_list_ascii (map (fun b => ascii_of_N (Z.to_N b)) bytes).

Section GenerateAudio.

(** The platform's [atob] ([None] when it throws) and [btoa]. *)
Variable atob : string -> option string.
Variable btoa : string -> string.

(** [decodeBase64] of audioUtils.ts *)
Definition decodeBase64 (base64 : string) : option (list Z) :=
  binaryString ← atob base64;
  Some (map (fun c => Z.of_N (N_of_ascii c))
          (String.list_ascii_of_string binaryString)).

Definition cleanupAndResolve (g : Generation) : Generation :=
  if sessionClosed g then g
  else
    let g :=
      mkGeneration (session g) (audioChunks g) (totalByteLength g)
        false false true (hasReceivedAudio g) (promise g)
        (if session g then S (closeCalls g) else closeCalls g) in
    if decide (length (audioChunks g) = 0) then reject noAudioMessage g
    else
      match copyChunks (audioChunks g) (replicate (totalByteLength g) 0%Z) 0 with
      | Some fullAudio => resolve (btoa (binaryString fullAudio)) g
      | None => g
      end.

(** The [for] loop of [onmessage] over the chunks of one message; it stops
    at a chunk [atob] refuses, keeping what was pushed before. *)
Fixpoint pushChunks (chunks : list (option string)) (g : Generation)
  : Generation :=
  match chunks with
  | [] => g
  | audioChunk :: rest =>
      if JS.truthy audioChunk then
        match decodeBase64 (default "" audioChunk) with
        | Some chunk =>
            pushChunks rest
              (mkGeneration (session g) (audioChunks g ++ [chunk])
                 (totalByteLength g + length chunk)
                 (collectionTimeout g) (initialTimeout g) (sessionClosed g)
                 (hasReceivedAudio g) (promise g) (closeCalls g))
        | None => g
        end
      else pushChunks rest g
  end.

Definition onmessage (chunks : option (list (option string)))
    (g : Generation) : Generation :=
  match chunks with
  | Some audioChunks_ =>
      let g :=
        if hasReceivedAudio g then g
        else
          mkGeneration (session g) (audioChunks g) (totalByteLength g)
            true false (sessionClosed g) true (promise g) (closeCalls g) in
      pushChunks audioChunks_ g
  | None => g
  end.

Definition onerror (g : Generation) : Generation :=
  cleanupAndResolve (reject sessionErrorMessage g).

Definition onclose (g : Generation) : Generation :=
  if sessionClosed g then g else cleanupAndResolve g.

(** One event of a call. A timer that is not armed does not fire. *)
Definition step (g : Generation) (e : Event) : Generation :=
  match e with
  | ConnectFailed err =>
      reject err
        (mkGeneration (session g) (audioChunks g) (totalByteLength g)
           false false (sessionClosed g) (hasReceivedAudio g) (promise g)
           (closeCalls g))
  | Connected =>
      mkGeneration true (audioChunks g) (totalByteLength g)
        (collectionTimeout g) (initialTimeout g) (sessionClosed g)
        (hasReceivedAudio g) (promise g) (closeCalls g)
  | SetupFailed err => cleanupAndResolve (reject err g)
  | SetupDone =>
      mkGeneration (session g) (audioChunks g) (totalByteLength g)
        (collectionTimeout g) true (sessionClosed g)
        (hasReceivedAudio g) (promise g) (closeCalls g)
  | Message chunks => onmessage chunks g
  | SessionError => onerror g
  | SessionClose => onclose g
  | InitialTimeoutFires =>
      if initialTimeout g then
        let g :=
          mkGeneration (session g) (audioChunks g) (totalByteLength g)
            (collectionTimeout g) false (sessionClosed g)
            (hasReceivedAudio g) (promise g) (closeCalls g) in
        if hasReceivedAudio g then g else cleanupAndResolve g
      else g
  | CollectionTimeoutFires =>
      if collectionTimeout g then
        cleanupAndResolve
          (mkGeneration (session g) (audioChunks g) (totalByteLength g)
             false (initialTimeout g) (sessionClosed g)
             (hasReceivedAudio g) (promise g) (closeCalls g))
      else g
  end.

(** A run of [generateAudio]: the events of the call, in order. *)
Definition generateAudio (events : list Event) : Generation :=
  fold_left step events initialGeneration.

(** What [cleanupAndResolve] settles a pending promise with. *)
Definition outcome (g : Generation) : Settlement :=
  match audioChunks g with
  | [] => Rejected noAudioMessage
  | _ => Resolved (btoa (binaryString (concat (audioChunks g))))
  end.

End GenerateAudio.

(** ** Predicates used in the statements *)




(** The four calls that place one unprocessed source: a buffer source
    [id] playing [buffer], connected straight to the destination and
    started at [startTime]. *)
Definition unprocessedSource (id : nat) (buffer : AudioBuffer) (startTime : Q)
  : list Action :=
  [ Create id BufferSourceNode; SetBuffer id buffer;
    Connect id ToDestination 0 0; Start id startTime None None ].

(** The non-empty steps among the first [k] of a pattern, in order. *)
Definition activeSteps (pattern : Pattern) (k : nat) : list nat :=
  filter (fun i => JS.truthy (mjoin (pattern !! i)) = true) (seq 0 k).

(** The buffer an exported step plays when both copies are loaded. *)
Definition exportedBuffer (pattern : Pattern)
    (sample reversed : AudioBuffer) (i : nat) : AudioBuffer :=
  if decide (pattern !! i = Some (Some "reverse")) then reversed else sample.


(** A draw the [do ... while] loop of randomize keeps. *)
Definition accepted (newPattern pattern : Pattern) : Prop :=
  isSamePattern newPattern pattern = false /\ everyNull newPattern = false.

(** The index [Math.floor(Math.random() * possibleStates.length)] of the
    [n]-th random value. *)
Definition poolIndex (random : nat -> Q) (n : nat) : nat :=
  Z.to_nat (JS.floor (random n * inject_Z (Z.of_nat (length possibleStates)))).

(** The 16-bit integer [exportToWav] stores for a sample. *)
Definition quantize (x : Q) : Z := JS.trunc (scale16 (clamp x)).

(** The two bytes [setInt16] stores for a sample, low byte first. *)
Definition sampleBytes (x : Q) : list Z :=
  let u := (quantize x mod 65536)%Z in
  [(u mod 256)%Z; ((u / 256) mod 256)%Z].

(** The bytes of frame [offset]: every channel's sample in turn. *)
Definition frameBytes (channels : list (list Q)) (offset : nat) : list Z :=
  flat_map (fun ch => sampleBytes (default 0%Q (ch !! offset))) channels.

(** [view'] has the length of [view] and the same bytes from [d] on. *)
Definition keeps (d : nat) (view view' : list Z) : Prop :=
  length view' = length view /\ drop d view' = drop d view.

(** What holds of the variables of a [generateAudio] call at any time: the
    byte count is that of the chunks, a closed session has settled the
    promise, and no chunk is collected before the first audio message. *)
Definition consistent (g : Generation) : Prop :=
  totalByteLength g = length (concat (audioChunks g))
  /\ (sessionClosed g = true -> promise g ≠ Pending)
  /\ (hasReceivedAudio g = false -> audioChunks g = []).

(** The events that only record progress and leave the promise alone. *)
Definition progress (e : Event) : bool :=
  match e with
  | Connected | SetupDone | Message _ => true
  | _ => false
  end.

(** ** Reading a byte sequence back *)

(** The unsigned little-endian 16-bit and 32-bit numbers at [pos]. *)
Definition uint16At (bytes : list Z) (pos : nat) : option Z :=
  lo ← bytes !! pos; hi ← bytes !! (pos + 1); Some (lo + 256 * hi)%Z.

Definition uint32At (bytes : list Z) (pos : nat) : option Z :=
  lo ← uint16At bytes pos; hi ← uint16At bytes (pos + 2);
  Some (lo + 65536 * hi)%Z.

(** The signed little-endian 16-bit number at [pos]. *)
Definition int16At (bytes : list Z) (pos : nat) : option Z :=
  lo ← bytes !! pos; hi ← bytes !! (pos + 1); Some (int16_of_bytes lo hi).

(** The character codes of a string. *)
Definition charCodes (s : string) : list Z :=
  map (fun c => Z.of_N (N_of_ascii c)) (String.list_ascii_of_string s).

(** ** Typed arrays *)

Module TypedArray.

(** [array.slice(start, end)]: a negative index counts from the end, and
    both indices are brought into the array. *)
Definition slice {A} (l : list A) (start end_ : Z) : list A :=
  let len := Z.of_nat (length l) in
  let k := if (start <? 0)%Z then Z.max (len + start) 0 else Z.min start len in
  let final :=
    if (end_ <? 0)%Z then Z.max (len + end_) 0 else Z.min end_ len in
  take (Z.to_nat (final - k)) (drop (Z.to_nat k) l).

(** [target.set(source)]: the source overwrites the start of the target; a
    source longer than the target raises a RangeError ([None]). *)
Definition set {A} (target source : list A) : option (list A) :=
  if decide (length source <= length target)
  then Some (source ++ drop (length source) target)
  else None.

End TypedArray.

(** ** src/App.tsx: loading the selection into the sequencer *)

(** What [handleLoadToSequencer] does: it returns at once, or [createBuffer]
    or [set] raises, or the two state setters receive the new buffers. *)
Inductive LoadResult :=
| NotLoaded
| LoadRaised
| Loaded (newBuffer reversedBuffer : AudioBuffer).

(** The body of the [for] loop of [handleLoadToSequencer] for one channel:
    the channel data of the new buffer and of the reversed buffer. *)
Definition loadChannel (frameCount : nat) (startFrame endFrame : Z)
    (channel : list Q) : option (list Q * list Q) :=
  let channelData := TypedArray.slice channel startFrame endFrame in
  normal ← TypedArray.set (replicate frameCount 0%Q) channelData;
  let reversedChannelData := rev channelData in
  reversed ← TypedArray.set (replicate frameCount 0%Q) reversedChannelData;
  Some (normal, reversed).

(** [handleLoadToSequencer]; [selection] holds [start] and [end] in seconds,
    [audioContext] tells whether [audioContextRef.current] is set.
    [createBuffer] refuses a buffer without channels. *)
Definition handleLoadToSequencer (generatedAudioBuffer : option AudioBuffer)
    (selection : option (Q * Q)) (audioContext : bool) : LoadResult :=
  match generatedAudioBuffer, selection, audioContext with
  | Some generated, Some (start, end_), true =>
      let sampleRate := sampleRate generated in
      let startFrame := JS.floor (start * sampleRate) in
      let endFrame := JS.floor (end_ * sampleRate) in
      let frameCount := (endFrame - startFrame)%Z in
      if decide (frameCount <= 0)%Z then NotLoaded
      else if decide (numberOfChannels generated = 0) then LoadRaised
      else
        match mapM (loadChannel (Z.to_nat frameCount) startFrame endFrame)
                (channelData generated) with
        | Some channels =>
            Loaded
              (mkAudioBuffer sampleRate (Z.to_nat frameCount) (channels.*1))
              (mkAudioBuffer sampleRate (Z.to_nat frameCount) (channels.*2))
        | None => LoadRaised
        end
  | _, _, _ => NotLoaded
  end.

(** ** src/components/WaveformSelector.tsx: the drag gesture *)

(** The state of the selector: [isDragging], the selection in canvas
    pixels and [dragStart]. *)
Record Selector := mkSelector {
  isDragging : bool;
  pixelSelection : option (Q * Q);
  dragStart : Q
}.

(** [handleMouseDown] at canvas coordinate [x] (the value of [getEventX]). *)
Definition handleMouseDown (audioBuffer : option AudioBuffer) (x : Q)
    (s : Selector) : Selector :=
  match audioBuffer with
  | None => s
  | Some _ => mkSelector true (Some (x, x)) x
  end.

Definition handleMouseMove (audioBuffer : option AudioBuffer) (x : Q)
    (s : Selector) : Selector :=
  if negb (isDragging s) || negb (bool_decide (is_Some audioBuffer)) then s
  else mkSelector (isDragging s) (Some (dragStart s, x)) (dragStart s).

(** [handleMouseUp]: the new state and the arguments of the [onSelect] call,
    if one is made. [canvasWidth] is [canvasRef.current.width], absent while
    there is no canvas. *)
Definition handleMouseUp (audioBuffer : option AudioBuffer)
    (canvasWidth : option Q) (s : Selector) : Selector * option (Q * Q) :=
  match isDragging s, pixelSelection s, audioBuffer, canvasWidth with
  | true, Some (selStart, selEnd), Some buffer, Some canvasWidth =>
      let startPixel := Qmin selStart selEnd in
      let endPixel := Qmax selStart selEnd in
      if Qlt_le_dec (endPixel - startPixel) 2 then
        (mkSelector false None (dragStart s), Some (0%Q, 0%Q))
      else
        let startTime := ((startPixel / canvasWidth) * duration buffer)%Q in
        let endTime := ((endPixel / canvasWidth) * duration buffer)%Q in
        (mkSelector false (pixelSelection s) (dragStart s),
         Some (startTime, endTime))
  | _, _, _, _ => (s, None)
  end.

Definition handleMouseLeave (audioBuffer : option AudioBuffer)
    (canvasWidth : option Q) (s : Selector) : Selector * option (Q * Q) :=
  if isDragging s then handleMouseUp audioBuffer canvasWidth s else (s, None).

(** ** Predicates on playback runs *)

(** Whether the [j]-th loop iteration of a run triggers a step: its slot,
    [j mod 16], is non-empty and a sample is loaded. *)
Definition firesAt (sq : Sequencer) (j : nat) : bool :=
  JS.truthy (mjoin (pattern sq !! (j mod 16)))
  && bool_decide (is_Some (sampleBuffer sq)).

(** The iterations among the first [k] that trigger a step. *)
Definition dueSteps (sq : Sequencer) (k : nat) : list nat :=
  filter (fun j => firesAt sq j = true) (seq 0 k).

(** The log entry of iteration [j] of a run started at [start]: step
    [j mod 16] at [start + j * secondsPerStep]. *)
Definition firedAt (sq : Sequencer) (start : Q) (entry : nat * Q) (j : nat)
  : Prop :=
  entry.1 = j mod 16
  /\ (entry.2 == start + inject_Z (Z.of_nat j) * secondsPerStep (bpm sq))%Q.

(** After [k] loop iterations of a run started at [start]. *)
Definition onGrid (sq : Sequencer) (start : Q) (k : nat) (st : Playback)
  : Prop :=
  (nextStepTime st == start + inject_Z (Z.of_nat k) * secondsPerStep (bpm sq))%Q
  /\ stepRef st = k mod 16
  /\ Forall2 (firedAt sq start) (fired st) (dueSteps sq k).

(** The audio clock never runs backwards: starting from [t], each value of
    [clock] is at least the one before it. *)
Fixpoint nondecreasing (t : Q) (clock : list Q) : Prop :=
  match clock with
  | [] => True
  | t' :: later => (t <= t')%Q /\ nondecreasing t' later
  end.

(** During the scheduler call at clock value [t] of a run started at
    [start]: the due time is less than one step beyond the lookahead
    horizon [t + 0.1], and every step fired so far was triggered at or after
    [start] and before the horizon. *)
Definition inWindow (sq : Sequencer) (start t : Q) (st : Playback) : Prop :=
  (nextStepTime st < t + 0.1 + secondsPerStep (bpm sq))%Q
  /\ (start <= nextStepTime st)%Q
  /\ Forall (fun entry => (start <= entry.2 /\ entry.2 < t + 0.1)%Q) (fired st).

(** ** Predicates on effect graphs *)

(** The [case] labels of the scheduler's [switch (fx)]. *)
Definition switchCases : list string :=
  [ "reverb"; "delay"; "pingPong"; "glitch"; "stutter"; "tapeStop";
    "lowpass"; "highpass"; "bandpass"; "filterSweep"; "phaser"; "pitchUp";
    "pitchDown"; "vibrato"; "autoPan"; "gate"; "bitcrusher"; "stereoWiden" ].

(** The [start] calls on node [id]: time, offset and duration. *)
Definition startsOf (id : nat) (acts : list Action)
  : list (Q * option Q * option Q) :=
  omap (fun a => match a with
                 | Start i w o d =>
                     if decide (i = id) then Some (w, o, d) else None
                 | _ => None
                 end) acts.

(** The output of node [id] reaches the master bus through [connect] calls
    between nodes (connections to parameters carry no signal onwards). *)
Inductive routed (acts : list Action) : nat -> Prop :=
| routed_limiter id output input :
    Connect id ToLimiter output input ∈ acts -> routed acts id
| routed_node id next output input :
    Connect id (ToNode next) output input ∈ acts ->
    routed acts next -> routed acts id.

(** The calls of a step that plays its buffer unprocessed. *)
Definition drySource (id : nat) (buffer : AudioBuffer) (playTime : Q)
  : list Action :=
  [ Create id BufferSourceNode; SetBuffer id buffer;
    Connect id ToLimiter 0 0; Start id playTime None None ].

(** [session.close()] has been called at most once, and only by the
    clean-up, on a session that was assigned. *)
Definition closedOnce (g : Generation) : Prop :=
  closeCalls g <= 1
  /\ (closeCalls g = 1 -> session g = true /\ sessionClosed g = true).

(** Every byte collected so far is a proper byte. *)
Definition properBytes (g : Generation) : Prop :=
  Forall (fun b => (0 <= b < 256)%Z) (concat (audioChunks g)).

(** ** Predicates on pattern slots *)

(** No character of [s] is a comma. *)
Definition commaFree (s : string) : Prop :=
  ","%char ∉ String.list_ascii_of_string s.

(** A slot that [join] shows as it is: [null], or a non-empty name without
    a comma. *)
Definition plainSlot (slot : option string) : Prop :=
  match slot with
  | None => True
  | Some fx => fx ≠ "" /\ commaFree fx
  end.

(** ** src/App.tsx: the state of the App component and its handlers *)

(** The state the handlers below read and write: [appData] (tempo, pattern, the
    two sequencer samples and the audio context), [generatedAudioBuffer],
    [selection] (start and end in seconds), [selectedFx] and [isLoading].
    The prompt, the error text and the preview player do not influence
    these. *)
Record AppState := mkAppState {
  appData : App;
  generatedAudioBuffer : option AudioBuffer;
  selection : option (Q * Q);
  selectedFx : string;
  isLoading : bool
}.

(** The initial values of the [useState] and [useRef] hooks. *)
Definition initialApp : AppState :=
  mkAppState (mkApp 90 emptyPattern None None None) None None "normal" false.

(** What the user and the platform can do. [ClickGenerate] carries the
    sample rate of the audio context the platform creates when there is none
    yet; [GenerationSettled] carries the events of the [generateAudio] call
    that [handleGenerate] awaits; [OnSelect] is the selector's callback. *)
Inductive AppEvent :=
| ClickGenerate (contextRate : Q)
| GenerationSettled (events : list Event)
| OnSelect (start end_ : Q)
| ClickLoad
| ClickStep (index : nat)
| ClickFx (id : string)
| ClickRandomize (fuel : nat) (random : nat -> Q)
| ChangeBpm (value : Q).

Section AppHandlers.

Variable atob : string -> option string.
Variable btoa : string -> string.

(** The [try] block of [handleGenerate]: the buffer handed to
    [setGeneratedAudioBuffer], or [None] when the promise is rejected, still
    pending, or a decoder throws. *)
Definition generatedAudio (events : list Event) : option AudioBuffer :=
  match promise (generateAudio atob btoa events) with
  | Resolved base64Audio =>
      audioBytes ← decodeBase64 atob base64Audio;
      decodePCMAudioData audioBytes
  | _ => None
  end.

(** [initAudioContext]: a context is created when there is none. *)
Definition initAudioContext (contextRate : Q) (a : App) : App :=
  match contextSampleRate a with
  | Some _ => a
  | None =>
      mkApp (appBpm a) (appPattern a) (sequencerSample a)
        (reversedSequencerSample a) (Some contextRate)
  end.

Definition appStep (s : AppState) (e : AppEvent) : AppState :=
  match e with
  | ClickGenerate contextRate =>
      (* the button is disabled while [isLoading]; [handleGenerate] up to
         its [await] *)
      if isLoading s then s
      else
        let a := initAudioContext contextRate (appData s) in
        mkAppState
          (mkApp (appBpm a) emptyPattern None None (contextSampleRate a))
          None None (selectedFx s) true
  | GenerationSettled events =>
      (* [handleGenerate] after its [await] *)
      if isLoading s then
        match promise (generateAudio atob btoa events) with
        | Pending => s
        | _ =>
            match generatedAudio events with
            | Some audioBuffer =>
                mkAppState (appData s) (Some audioBuffer) (selection s)
                  (selectedFx s) false
            | None =>
                mkAppState (appData s) (generatedAudioBuffer s) (selection s)
                  (selectedFx s) false
            end
        end
      else s
  | OnSelect start end_ =>
      mkAppState (appData s) (generatedAudioBuffer s) (Some (start, end_))
        (selectedFx s) (isLoading s)
  | ClickLoad =>
      match handleLoadToSequencer (generatedAudioBuffer s) (selection s)
              (bool_decide (is_Some (contextSampleRate (appData s)))) with
      | Loaded newBuffer reversedBuffer =>
          mkAppState
            (mkApp (appBpm (appData s)) (appPattern (appData s)) (Some newBuffer)
               (Some reversedBuffer) (contextSampleRate (appData s)))
            (generatedAudioBuffer s) (selection s) (selectedFx s)
            (isLoading s)
      | _ => s
      end
  | ClickStep index =>
      mkAppState
        (mkApp (appBpm (appData s))
           (handleToggleStep (appPattern (appData s)) (selectedFx s) index)
           (sequencerSample (appData s)) (reversedSequencerSample (appData s))
           (contextSampleRate (appData s)))
        (generatedAudioBuffer s) (selection s) (selectedFx s) (isLoading s)
  | ClickFx id =>
      mkAppState (appData s) (generatedAudioBuffer s) (selection s) id
        (isLoading s)
  | ClickRandomize fuel random =>
      match handleRandomizePattern fuel random (appPattern (appData s)) with
      | Some newPattern =>
          mkAppState
            (mkApp (appBpm (appData s)) newPattern (sequencerSample (appData s))
               (reversedSequencerSample (appData s)) (contextSampleRate (appData s)))
            (generatedAudioBuffer s) (selection s) (selectedFx s)
            (isLoading s)
      | None => s
      end
  | ChangeBpm value =>
      mkAppState
        (mkApp value (appPattern (appData s)) (sequencerSample (appData s))
           (reversedSequencerSample (appData s)) (contextSampleRate (appData s)))
        (generatedAudioBuffer s) (selection s) (selectedFx s) (isLoading s)
  end.

(** The state after a sequence of events. *)
Definition appRun (events : list AppEvent) : AppState :=
  fold_left appStep events initialApp.

End AppHandlers.

(** What the interface lets through: steps 0 to 15, the keys of FX_CONFIG,
    the slider's range of 20 to 300, and a context of at least 2 frames per
    second. *)
Definition fromUI (e : AppEvent) : Prop :=
  match e with
  | ClickGenerate contextRate => (2 <= contextRate)%Q
  | ClickStep index => index < 16
  | ClickFx id => id ∈ FX_KEYS
  | ChangeBpm value => (20 <= value)%Q /\ (value <= 300)%Q
  | _ => True
  end.

(** A buffer as the decoder makes them: 48 kHz, two channels of the same
    positive number of samples. *)
Definition stereo48k (b : AudioBuffer) : Prop :=
  sampleRate b = 48000%Q /\ numberOfChannels b = 2 /\ 0 < frames b
  /\ wf_buffer b.

(** The two sequencer samples are both absent, or both present and alike. *)
Definition paired (sample reversed : option AudioBuffer) : Prop :=
  match sample, reversed with
  | None, None => True
  | Some sample, Some reversed =>
      stereo48k sample /\ stereo48k reversed
      /\ frames reversed = frames sample
  | _, _ => False
  end.

Definition appInvariant (s : AppState) : Prop :=
  length (appPattern (appData s)) = 16
  /\ Forall (fun slot => slot ∈ possibleStates) (appPattern (appData s))
  /\ selectedFx s ∈ FX_KEYS
  /\ (20 <= appBpm (appData s))%Q /\ (appBpm (appData s) <= 300)%Q
  /\ (forall rate, contextSampleRate (appData s) = Some rate -> (2 <= rate)%Q)
  /\ (isLoading s = true -> is_Some (contextSampleRate (appData s)))
  /\ match generatedAudioBuffer s with
     | Some b => stereo48k b /\ is_Some (contextSampleRate (appData s))
     | None => sequencerSample (appData s) = None
     end
  /\ paired (sequencerSample (appData s)) (reversedSequencerSample (appData s)).

(** The timer keeps up: starting from [t], each clock value is at least the
    one before it and at most the lookahead of 0.1 s later. *)
Fixpoint steady (t : Q) (clock : list Q) : Prop :=
  match clock with
  | [] => True
  | t' :: later => (t <= t')%Q /\ (t' <= t + 0.1)%Q /\ steady t' later
  end.

(** ** src/App.tsx: the preview player *)

(** The calls the preview player makes on its buffer sources, numbered in
    creation order. *)
Inductive PreviewCall :=
| PreviewStart (id : nat)
| PreviewStop (id : nat).

(** [audioSourceRef], [isGeneratedAudioPlaying], the number of sources
    created so far and the calls made. *)
Record Preview := mkPreview {
  audioSourceRef : option nat;
  isGeneratedAudioPlaying : bool;
  sourceCount : nat;
  previewCalls : list PreviewCall
}.

Definition initialPreview : Preview := mkPreview None false 0 [].

(** [playGeneratedAudio], with the audio context and the analyser in place
    (as after [initAudioContext]). *)
Definition playGeneratedAudio (p : Preview) : Preview :=
  let calls :=
    match audioSourceRef p with
    | Some old => previewCalls p ++ [PreviewStop old]
    | None => previewCalls p
    end in
  let source := sourceCount p in
  mkPreview (Some source) (isGeneratedAudioPlaying p) (S source)
    (calls ++ [PreviewStart source]).

(** [handlePlayPauseGeneratedAudio]; [hasBuffer] tells whether
    [generatedAudioBuffer] is set. *)
Definition handlePlayPauseGeneratedAudio (hasBuffer : bool) (p : Preview)
  : Preview :=
  if negb hasBuffer then p
  else if isGeneratedAudioPlaying p then
    mkPreview (audioSourceRef p) false (sourceCount p)
      (match audioSourceRef p with
       | Some current => previewCalls p ++ [PreviewStop current]
       | None => previewCalls p
       end)
  else
    playGeneratedAudio
      (mkPreview (audioSourceRef p) true (sourceCount p) (previewCalls p)).

Definition handleStopGeneratedAudio (p : Preview) : Preview :=
  match audioSourceRef p with
  | Some current =>
      mkPreview None false (sourceCount p)
        (previewCalls p ++ [PreviewStop current])
  | None =>
      mkPreview None false (sourceCount p) (previewCalls p)
  end.

(** What happens to the player: the two buttons, the call from
    [handleGenerate] (made while the preview is playing), and the [onended]
    callback of a source. *)
Inductive PreviewEvent :=
| ClickPlayPause (hasBuffer : bool)
| ClickStop
| GenerateStarts
| SourceEnded (id : nat).

Definition previewStep (p : Preview) (e : PreviewEvent) : Preview :=
  match e with
  | ClickPlayPause hasBuffer => handlePlayPauseGeneratedAudio hasBuffer p
  | ClickStop => handleStopGeneratedAudio p
  | GenerateStarts =>
      if isGeneratedAudioPlaying p then handleStopGeneratedAudio p else p
  | SourceEnded _ =>
      mkPreview (audioSourceRef p) false (sourceCount p) (previewCalls p)
  end.

Definition previewRun (events : list PreviewEvent) : Preview :=
  fold_left previewStep events initialPreview.

(** A source that was started and has not been stopped. *)
Definition unstopped (p : Preview) (id : nat) : Prop :=
  PreviewStart id ∈ previewCalls p /\ PreviewStop id ∉ previewCalls p.
(** What holds of the player at any time: every source started has a smaller number than the next one, the
    current source is one of them, and every source but the current one has
    been stopped. *)
Definition previewInvariant (p : Preview) : Prop :=
  (forall id, PreviewStart id ∈ previewCalls p -> id < sourceCount p)
  /\ (forall id, audioSourceRef p = Some id -> id < sourceCount p)
  /\ (forall id, unstopped p id -> audioSourceRef p = Some id)
  /\ (isGeneratedAudioPlaying p = true -> is_Some (audioSourceRef p)).

(** * Part II: properties *)

(** ** Array writes *)

Lemma array_set_in {A} (h : A) l i v :
  i < length l -> JS.array_set h l i v = <[i:=v]> l.
Proof. intros Hi. unfold JS.array_set. by rewrite decide_True. Qed.

Lemma array_set_length_in {A} (h : A) l i v :
  i < length l -> length (JS.array_set h l i v) = length l.
Proof. intros Hi. rewrite array_set_in by done. apply length_insert. Qed.

Lemma array_set_lookup_eq {A} (h : A) l i v :
  JS.array_set h l i v !! i = Some v.
Proof.
  unfold JS.array_set. case_decide as Hi.
  - by apply list_lookup_insert_eq.
  - rewrite lookup_app_r by lia.
    rewrite lookup_app_r by (rewrite length_replicate; lia).
    rewrite length_replicate.
    replace (i - length l - (i - length l)) with 0 by lia. done.
Qed.

Lemma array_set_lookup_ne {A} (h : A) l i j v :
  i < length l -> i ≠ j -> JS.array_set h l i v !! j = l !! j.
Proof.
  intros Hi Hne. rewrite array_set_in by done.
  by apply list_lookup_insert_ne.
Qed.

(** ** Toggling a step *)

Lemma toggleStep_length P fx i :
  i < length P -> length (handleToggleStep P fx i) = length P.
Proof.
  intros Hi. unfold handleToggleStep.
  case_decide; by apply array_set_length_in.
Qed.

Lemma toggleStep_lookup_on P fx i :
  P !! i = Some (Some fx) -> handleToggleStep P fx i !! i = Some None.
Proof.
  intros H. unfold handleToggleStep. rewrite decide_True by done.
  apply array_set_lookup_eq.
Qed.

Lemma toggleStep_lookup_off P fx i :
  P !! i ≠ Some (Some fx) -> handleToggleStep P fx i !! i = Some (Some fx).
Proof.
  intros H. unfold handleToggleStep. rewrite decide_False by done.
  apply array_set_lookup_eq.
Qed.

Lemma toggleStep_lookup_ne P fx i j :
  i < length P -> i ≠ j -> handleToggleStep P fx i !! j = P !! j.
Proof.
  intros Hi Hne. unfold handleToggleStep.
  case_decide; by apply array_set_lookup_ne.
Qed.

(** C10. Toggling step [i] of a 16-slot pattern gives a 16-slot pattern
    that agrees with the input at every index other than [i] and differs
    from it at [i]. *)
Theorem toggleStep_frame (P : Pattern) (i : nat) (fx : string) :
  length P = 16 -> i < 16 ->
  length (handleToggleStep P fx i) = 16
  /\ (forall j, j ≠ i -> handleToggleStep P fx i !! j = P !! j)
  /\ handleToggleStep P fx i !! i ≠ P !! i.
Proof.
  intros Hlen Hi. split; [|split].
  - rewrite toggleStep_length; lia.
  - intros j Hj. apply toggleStep_lookup_ne; [lia|done].
  - destruct (decide (P !! i = Some (Some fx))) as [Hon|Hoff].
    + rewrite (toggleStep_lookup_on _ _ _ Hon), Hon. discriminate.
    + rewrite (toggleStep_lookup_off _ _ _ Hoff). congruence.
Qed.

Lemma toggleStep_frame_witness :
  length (handleToggleStep emptyPattern "delay" 3) = 16
  /\ (forall j, j ≠ 3 -> handleToggleStep emptyPattern "delay" 3 !! j = emptyPattern !! j)
  /\ handleToggleStep emptyPattern "delay" 3 !! 3 ≠ emptyPattern !! 3.
Proof. apply toggleStep_frame; [reflexivity | lia]. Defined.

(** C7, as stated, fails: a slot that held another effect is empty after
    two toggles with the selected one. *)
Lemma toggleStep_twice_counterexample :
  let P := <[0 := Some "reverb"]> emptyPattern in
  length P = 16
  /\ handleToggleStep (handleToggleStep P "normal" 0) "normal" 0 !! 0 = Some None
  /\ handleToggleStep (handleToggleStep P "normal" 0) "normal" 0 !! 0 ≠ P !! 0.
Proof. vm_compute. repeat split. discriminate. Qed.

(** C7, amended. Toggling step [i] twice with the same effect restores the
    whole pattern when the slot was empty or held that effect; when it held
    another effect the slot ends up empty. *)
Theorem toggleStep_twice (P : Pattern) (i : nat) (fx : string) :
  length P = 16 -> i < 16 ->
  (P !! i = Some None \/ P !! i = Some (Some fx) ->
   handleToggleStep (handleToggleStep P fx i) fx i = P)
  /\ (forall other, P !! i = Some (Some other) -> other ≠ fx ->
      handleToggleStep (handleToggleStep P fx i) fx i !! i = Some None).
Proof.
  intros Hlen Hi.
  assert (Hi' : i < length P) by lia.
  split.
  - intros Hslot. apply list_eq. intros j.
    destruct (decide (i = j)) as [<-|Hne].
    + destruct Hslot as [Hnone|Hon].
      * rewrite toggleStep_lookup_on; [by rewrite Hnone|].
        apply toggleStep_lookup_off. congruence.
      * rewrite toggleStep_lookup_off; [by rewrite Hon|].
        rewrite (toggleStep_lookup_on _ _ _ Hon). discriminate.
    + rewrite !toggleStep_lookup_ne; try done.
      by rewrite toggleStep_length.
  - intros other Hother Hne.
    apply toggleStep_lookup_on, toggleStep_lookup_off. congruence.
Qed.

Lemma toggleStep_twice_witness :
  (emptyPattern !! 5 = Some None \/ emptyPattern !! 5 = Some (Some "gate") ->
   handleToggleStep (handleToggleStep emptyPattern "gate" 5) "gate" 5 = emptyPattern)
  /\ (forall other, emptyPattern !! 5 = Some (Some other) -> other ≠ "gate" ->
      handleToggleStep (handleToggleStep emptyPattern "gate" 5) "gate" 5 !! 5 = Some None).
Proof. apply toggleStep_twice; [reflexivity | lia]. Defined.

(** ** The effect graphs of single steps *)

Ltac run_builder :=
  cbv [calls triggerStep effectChain forLoop mbind mret Build_bind Build_ret
       call create JS.strictEq String.eqb Ascii.eqb Bool.eqb negb andb
       snd fst app default].

Ltac nat_cases :=
  repeat match goal with
         | |- context [decide (?a = ?b)] =>
             first [ rewrite (decide_True (P := a = b)) by lia
                   | rewrite (decide_False (P := a = b)) by lia ]
         end.

Ltac observe :=
  unfold starts, outgoing, created, buffersOf, gainsOf;
  cbn [omap list_omap].

Ltac find_call :=
  (apply list_elem_of_here) + (apply list_elem_of_further; find_call).

Ltac each_case H :=
  unfold switchCases in H;
  repeat (apply elem_of_cons in H as [->|H]); [..|by apply elem_of_nil in H].

(** ** Effects without a case, and the effect that can raise *)

Lemma switch_miss (fx name : string) :
  fx ∉ switchCases -> name ∈ switchCases -> JS.strictEq fx name = false.
Proof.
  intros Hout Hin. unfold JS.strictEq.
  destruct (String.eqb_spec fx name) as [->|]; [by destruct Hout|done].
Qed.

Lemma effectChain_default sq fx buf source playTime :
  fx ∉ switchCases ->
  effectChain sq fx buf source playTime = mret (Some source).
Proof.
  intros Hout. unfold effectChain.
  rewrite !(switch_miss fx _ Hout) by (unfold switchCases; find_call).
  reflexivity.
Qed.

Lemma triggerStep_default sq fx buf playTime n :
  fx ∉ switchCases ->
  triggerStep sq fx buf playTime n
  = (Some tt, S n,
     drySource n
       (if JS.strictEq fx "reverse"
        then default buf (reversedSampleBuffer sq) else buf) playTime).
Proof.
  intros Hout. unfold triggerStep.
  rewrite (switch_miss fx "glitch" Hout), (switch_miss fx "stutter" Hout)
    by (unfold switchCases; find_call).
  destruct (JS.strictEq fx "reverse");
    cbv [mbind Build_bind create call]; cbn [negb andb];
    rewrite (effectChain_default _ _ _ _ _ Hout); reflexivity.
Qed.

Lemma reverse_not_case : "reverse" ∉ switchCases.
Proof.
  unfold switchCases. intros H.
  repeat (apply elem_of_cons in H as [H|H]; [discriminate H|]).
  by apply elem_of_nil in H.
Qed.


Lemma autoPan_raises sq buf playTime n :
  stereoPanner sq = false ->
  triggerStep sq "autoPan" buf playTime n
  = (None, S n, [Create n BufferSourceNode; SetBuffer n buf]).
Proof.
  intros Hsp. unfold triggerStep, effectChain. rewrite Hsp. reflexivity.
Qed.

Lemma stutter_calls (sq : Sequencer) (buf : AudioBuffer) (playTime : Q) (n : nat) :
  let repeatTime := (60.0 / bpm sq / 8.0)%Q in
  calls (triggerStep sq "stutter" buf playTime) n =
  [ Create n BufferSourceNode; SetBuffer n buf;
    Create (n + 1) BufferSourceNode; SetBuffer (n + 1) buf;
    Connect (n + 1) ToLimiter 0 0;
    Start (n + 1) (playTime + 0 * repeatTime) (Some 0%Q) (Some repeatTime);
    Create (n + 2) BufferSourceNode; SetBuffer (n + 2) buf;
    Connect (n + 2) ToLimiter 0 0;
    Start (n + 2) (playTime + 1 * repeatTime) (Some 0%Q) (Some repeatTime);
    Create (n + 3) BufferSourceNode; SetBuffer (n + 3) buf;
    Connect (n + 3) ToLimiter 0 0;
    Start (n + 3) (playTime + 2 * repeatTime) (Some 0%Q) (Some repeatTime);
    Create (n + 4) BufferSourceNode; SetBuffer (n + 4) buf;
    Connect (n + 4) ToLimiter 0 0;
    Start (n + 4) (playTime + 3 * repeatTime) (Some 0%Q) (Some repeatTime);
    Create (n + 5) GainNode ].
Proof.
  replace (n + 1) with (S n) by lia.
  replace (n + 2) with (S (S n)) by lia.
  replace (n + 3) with (S (S (S n))) by lia.
  replace (n + 4) with (S (S (S (S n)))) by lia.
  replace (n + 5) with (S (S (S (S (S n))))) by lia.
  reflexivity.
Qed.

Lemma glitch_calls (sq : Sequencer) (buf : AudioBuffer) (playTime : Q) (n : nat) :
  calls (triggerStep sq "glitch" buf playTime) n =
  [ Create n BufferSourceNode; SetBuffer n buf;
    Create (n + 1) GainNode;
    SetValueAtTime (n + 1) gain (1 - 0 / 3) (playTime + 0 * 0.05);
    Create (n + 2) BufferSourceNode; SetBuffer (n + 2) buf;
    Connect (n + 2) (ToNode (n + 1)) 0 0; Connect (n + 1) ToLimiter 0 0;
    Start (n + 2) (playTime + 0 * 0.05) (Some 0%Q) (Some 0.05%Q);
    Create (n + 3) GainNode;
    SetValueAtTime (n + 3) gain (1 - 1 / 3) (playTime + 1 * 0.05);
    Create (n + 4) BufferSourceNode; SetBuffer (n + 4) buf;
    Connect (n + 4) (ToNode (n + 3)) 0 0; Connect (n + 3) ToLimiter 0 0;
    Start (n + 4) (playTime + 1 * 0.05) (Some 0%Q) (Some 0.05%Q);
    Create (n + 5) GainNode;
    SetValueAtTime (n + 5) gain (1 - 2 / 3) (playTime + 2 * 0.05);
    Create (n + 6) BufferSourceNode; SetBuffer (n + 6) buf;
    Connect (n + 6) (ToNode (n + 5)) 0 0; Connect (n + 5) ToLimiter 0 0;
    Start (n + 6) (playTime + 2 * 0.05) (Some 0%Q) (Some 0.05%Q);
    Create (n + 7) GainNode ]%Q.
Proof.
  replace (n + 1) with (S n) by lia.
  replace (n + 2) with (S (S n)) by lia.
  replace (n + 3) with (S (S (S n))) by lia.
  replace (n + 4) with (S (S (S (S n)))) by lia.
  replace (n + 5) with (S (S (S (S (S n))))) by lia.
  replace (n + 6) with (S (S (S (S (S (S n)))))) by lia.
  replace (n + 7) with (S (S (S (S (S (S (S n))))))) by lia.
  reflexivity.
Qed.

Lemma secondsPerStep_pos (b : Q) : (0 < b)%Q -> (0 < secondsPerStep b)%Q.
Proof.
  intros Hb. unfold secondsPerStep.
  apply Qlt_shift_div_l; [lra|]. apply Qlt_shift_div_l; [lra|]. lra.
Qed.

Lemma tempo_fraction_pos (b d : Q) : (0 < b)%Q -> (0 < d)%Q -> (0 < 60 / b / d)%Q.
Proof.
  intros Hb Hd.
  apply Qlt_shift_div_l; [lra|]. apply Qlt_shift_div_l; [lra|]. lra.
Qed.

(** C3. At every tempo [T > 0], a "stutter" step makes exactly 4 [start]
    calls; the [i]-th is on a source of its own that plays the sample buffer,
    is connected straight to the limiter, starts at [playTime + i * (60/T)/8]
    and plays [(60/T)/8] seconds from offset 0. The step's primary source
    (the first node created) is neither started nor connected to anything. *)
Theorem stutter_retriggers (sq : Sequencer) (buf : AudioBuffer)
    (playTime : Q) (n : nat) :
  (0 < bpm sq)%Q ->
  let repeatTime := ((60 / bpm sq) / 8)%Q in
  let acts := calls (triggerStep sq "stutter" buf playTime) n in
  (0 < repeatTime)%Q
  /\ length (starts acts) = 4
  /\ (forall i, i < 4 ->
      exists id when offset dur,
        starts acts !! i = Some (id, when, Some offset, Some dur)
        /\ (when == playTime + inject_Z (Z.of_nat i) * repeatTime)%Q
        /\ (offset == 0)%Q
        /\ (dur == repeatTime)%Q
        /\ id ≠ n
        /\ buffersOf id acts = [buf]
        /\ outgoing id acts = [ToLimiter])
  /\ created acts !! 0 = Some (n, BufferSourceNode)
  /\ outgoing n acts = []
  /\ (forall id when offset dur,
        (id, when, offset, dur) ∈ starts acts -> id ≠ n).
Proof.
  intros Hbpm repeatTime acts.
  split; [by apply tempo_fraction_pos|].
  subst acts. rewrite stutter_calls.
  observe. nat_cases.
  split; [done|]. split; [|split; [done|split; [done|]]].
  - intros i Hi.
    destruct i as [|[|[|[|i]]]]; [| | | |lia];
      eexists _, _, _, _; (split; [reflexivity|]); observe; nat_cases;
      repeat split; try lia; try done; subst repeatTime;
      cbn [Z.of_nat Pos.of_succ_nat Pos.succ inject_Z]; field;
      intros Hz; rewrite Hz in Hbpm; lra.
  - intros id w o d Hin.
    repeat (apply elem_of_cons in Hin as [Heq|Hin];
            [inversion Heq; lia|]).
    by apply elem_of_nil in Hin.
Qed.

Lemma stutter_retriggers_witness :
  let sq := mkSequencer 120 None None true true emptyPattern None true in
  let buf := mkAudioBuffer 48000 2 [[0; 0]; [0; 0]]%Q in
  let acts := calls (triggerStep sq "stutter" buf 1) 7 in
  (0 < 120)%Q /\ length (starts acts) = 4 /\ outgoing 7 acts = [].
Proof.
  intros sq buf acts.
  assert (Hbpm : (0 < bpm sq)%Q) by reflexivity.
  pose proof (stutter_retriggers sq buf 1 7 Hbpm) as H.
  split; [reflexivity|].
  split; [exact (proj1 (proj2 H)) | exact (proj1 (proj2 (proj2 (proj2 (proj2 H)))))].
Defined.

(** C4, as stated, fails: the second repetition of a "glitch" step plays
    from offset 0 of the buffer, not from 50 ms into it. *)
Lemma glitch_offset_counterexample :
  let sq := mkSequencer 120 None None true true emptyPattern None true in
  let buf := mkAudioBuffer 48000 2 [[0; 0]; [0; 0]]%Q in
  let acts := calls (triggerStep sq "glitch" buf 0) 0 in
  ~ (forall i, i < 3 ->
     exists id when offset dur,
       starts acts !! i = Some (id, when, Some offset, dur)
       /\ (offset == inject_Z (Z.of_nat i) * 0.05)%Q).
Proof.
  intros sq buf acts Hclaim.
  destruct (Hclaim 1) as (id & w & o & d & Hstart & Hoffset); [lia|].
  vm_compute in Hstart. inversion Hstart; subst.
  vm_compute in Hoffset. discriminate.
Qed.

(** C4, amended. A "glitch" step makes exactly 3 [start] calls; the [i]-th
    is on a source of its own that plays the sample buffer, starts at
    [playTime + i * 0.05] and plays 0.05 seconds from offset 0 (the start of
    the buffer, for every repetition); that source feeds a gain node of its
    own, set to [1 - i/3] at the same time and connected to the limiter. The
    step's primary source is neither started nor connected to anything. *)
Theorem glitch_repetitions (sq : Sequencer) (buf : AudioBuffer)
    (playTime : Q) (n : nat) :
  let acts := calls (triggerStep sq "glitch" buf playTime) n in
  length (starts acts) = 3
  /\ (forall i, i < 3 ->
      exists id g when offset dur level at_,
        starts acts !! i = Some (id, when, Some offset, Some dur)
        /\ (when == playTime + inject_Z (Z.of_nat i) * 0.05)%Q
        /\ (offset == 0)%Q
        /\ (dur == 0.05)%Q
        /\ id ≠ n
        /\ buffersOf id acts = [buf]
        /\ outgoing id acts = [ToNode g]
        /\ outgoing g acts = [ToLimiter]
        /\ gainsOf g acts = [(level, at_)]
        /\ (level == 1 - inject_Z (Z.of_nat i) / 3)%Q
        /\ (at_ == playTime + inject_Z (Z.of_nat i) * 0.05)%Q)
  /\ created acts !! 0 = Some (n, BufferSourceNode)
  /\ outgoing n acts = []
  /\ (forall id when offset dur,
        (id, when, offset, dur) ∈ starts acts -> id ≠ n).
Proof.
  intros acts. subst acts. rewrite glitch_calls.
  observe. nat_cases.
  split; [done|]. split; [|split; [done|split; [done|]]].
  - intros i Hi.
    destruct i as [|[|[|i]]]; [| | |lia].
    + exists (n + 2), (n + 1). eexists _, _, _, _, _.
      split; [reflexivity|]. observe; nat_cases.
      repeat split; try lia; try done.
    + exists (n + 4), (n + 3). eexists _, _, _, _, _.
      split; [reflexivity|]. observe; nat_cases.
      repeat split; try lia; try done.
    + exists (n + 6), (n + 5). eexists _, _, _, _, _.
      split; [reflexivity|]. observe; nat_cases.
      repeat split; try lia; try done.
  - intros id w o d Hin.
    repeat (apply elem_of_cons in Hin as [Heq|Hin];
            [inversion Heq; lia|]).
    by apply elem_of_nil in Hin.
Qed.

(** ** Steps without a sample *)




(** ** The scheduler *)





Ltac iteration sq st :=
  unfold schedulerStep, stepRaises in *;
  let name := fresh "name" in
  let buf := fresh "buf" in
  destruct (mjoin (pattern sq !! stepRef st)) as [name|];
  [destruct (sampleBuffer sq) as [buf|]|];
  [destruct (JS.truthy (Some name));
   [destruct (triggerStep sq name buf (nextStepTime st) (nodeCount st))
      as [[[[]|] ?n] ?acts]|]|..];
  cbn [fst snd andb nextStepTime stepRef fired] in *.

Lemma schedulerStep_next sq st :
  stepRaises sq st = false ->
  nextStepTime (schedulerStep sq st)
  = (nextStepTime st + secondsPerStep (bpm sq))%Q.
Proof. intros Hno. iteration sq st; done. Qed.

(** An iteration that raises leaves both refs and the log as they were. *)
Lemma schedulerStep_raised sq st :
  stepRaises sq st = true ->
  nextStepTime (schedulerStep sq st) = nextStepTime st
  /\ stepRef (schedulerStep sq st) = stepRef st
  /\ fired (schedulerStep sq st) = fired st.
Proof. intros Hno. iteration sq st; done. Qed.

Lemma schedulerStep_fired sq st :
  fired (schedulerStep sq st) = fired st
  \/ fired (schedulerStep sq st) = fired st ++ [(stepRef st, nextStepTime st)].
Proof.
  destruct (stepRaises sq st) eqn:Hr.
  - left. by apply schedulerStep_raised.
  - iteration sq st; auto.
Qed.







(** The steps a scheduler call fires are appended to the log, each with a
    trigger time from [lo] on, for any [lo] up to the due time. *)
Lemma schedulerLoop_new sq t lo fuel : forall st st',
  (0 < bpm sq)%Q ->
  (lo <= nextStepTime st)%Q ->
  schedulerLoop fuel sq t st = Some st' ->
  (lo <= nextStepTime st')%Q
  /\ exists new,
       fired st' = fired st ++ new
       /\ Forall (fun entry => (lo <= entry.2)%Q /\ (entry.2 < t + 0.1)%Q) new.
Proof.
  induction fuel as [|fuel IH]; intros st st' Hbpm Hlo Hrun; cbn in Hrun;
    destruct (Qlt_le_dec _ _) as [Hdue|Hdone]; try discriminate.
  - inversion Hrun; subst. split; [done|]. exists []. by rewrite app_nil_r.
  - destruct (stepRaises sq st) eqn:Hno; [discriminate|].
    pose proof (secondsPerStep_pos _ Hbpm) as Hsps.
    destruct (IH (schedulerStep sq st) st' Hbpm) as (Hlo' & new & Hnew & Hall);
      [rewrite schedulerStep_next by done; lra|done|].
    split; [done|].
    destruct (schedulerStep_fired sq st) as [Hf|Hf]; rewrite Hf in Hnew.
    + by exists new.
    + rewrite <- app_assoc in Hnew. eexists. split; [exact Hnew|].
      apply Forall_app. split; [|done]. repeat constructor; cbn; lra.
  - inversion Hrun; subst. split; [done|]. exists []. by rewrite app_nil_r.
Qed.




Lemma ticks_app fuel sq pre : forall post st,
  ticks fuel sq (pre ++ post) st
  = ticks fuel sq pre st ≫= ticks fuel sq post.
Proof.
  induction pre as [|now pre IH]; intros post st; [done|].
  cbn. destruct (scheduler fuel sq now st); cbn; [apply IH|done].
Qed.








(** ** Export *)

Lemma exportStep_run pattern sample reversed sps i n :
  exportStep pattern sample (Some reversed) sps i n
  = if JS.truthy (mjoin (pattern !! i))
    then (tt, S n,
          unprocessedSource n (exportedBuffer pattern sample reversed i)
            (inject_Z (Z.of_nat i) * sps))
    else (tt, n, []).
Proof.
  unfold exportStep, exportedBuffer.
  destruct (pattern !! i) as [[fx|]|] eqn:Hslot; cbn [mjoin option_join JS.truthy]; try reflexivity.
  destruct (negb (String.eqb fx "")) eqn:Hne; [|reflexivity].
  unfold JS.strictEq.
  destruct (String.eqb_spec fx "reverse") as [->|Hfx].
  - by rewrite decide_True.
  - rewrite decide_False by congruence. reflexivity.
Qed.

Lemma exportLoop_run pattern sample reversed sps k : forall n,
  forLoop k (exportStep pattern sample (Some reversed) sps) n
  = (tt, n + length (activeSteps pattern k),
     concat (imap (fun j i =>
                     unprocessedSource (n + j)
                       (exportedBuffer pattern sample reversed i)
                       (inject_Z (Z.of_nat i) * sps))
                  (activeSteps pattern k))).
Proof.
  induction k as [|k IH]; intros n.
  - cbn. by rewrite Nat.add_0_r.
  - cbn [forLoop]. unfold mbind, Build_bind. rewrite IH, exportStep_run.
    unfold activeSteps. rewrite seq_S, filter_app. cbn [filter list_filter].
    fold (activeSteps pattern k).
    change (0 + k) with k.
    destruct (JS.truthy (mjoin (pattern !! k))) eqn:Hk.
    + rewrite decide_True by done.
      rewrite imap_app, concat_app, length_app. cbn.
      rewrite Nat.add_0_r. unfold unprocessedSource.
      repeat f_equal; lia.
    + rewrite decide_False by discriminate.
      rewrite !app_nil_r. reflexivity.
Qed.

Lemma secondsPerStep_eq (b : Q) : (0 < b)%Q -> (secondsPerStep b == 60 / b / 4)%Q.
Proof. intros Hb. unfold secondsPerStep. field. intros Hz. rewrite Hz in Hb. lra. Qed.

(** C5, as stated, fails: at 70 bpm and 48 kHz the offline context holds
    164571 frames, which is not 16 * (60/70/4) seconds. *)
Lemma exportSequence_duration_counterexample :
  let buf := mkAudioBuffer 48000 2 [[0; 1]; [1; 0]]%Q in
  let app := mkApp 70 (<[0 := Some "normal"]> emptyPattern)
               (Some buf) (Some buf) (Some 48000%Q) in
  exists ctx acts,
    exportSequence app = Scheduled ctx acts
    /\ offlineLength ctx = 164571%Z
    /\ ~ (offlineDuration ctx == 16 * (60 / 70 / 4))%Q.
Proof.
  intros buf app. eexists _, _. split; [vm_compute; reflexivity|].
  split; [reflexivity|]. vm_compute. discriminate.
Qed.

(** C5, amended. With the sample and its reversed copy loaded, and a tempo
    at which one pass lasts at least one frame, export schedules one pass on
    an offline context of [floor (16 * (60/bpm/4) * sampleRate)] frames: the
    pass duration rounded down to whole frames, at most [16 * (60/bpm/4)]
    seconds and less than one frame shorter. The calls made are exactly, for
    each non-empty step [i] in order, a buffer source playing the reversed
    buffer when the slot holds "reverse" and the forward buffer otherwise,
    connected straight to the destination and started at [i * stepDuration];
    empty steps make no call. *)
Theorem exportSequence_pass (app : App) (sample reversed : AudioBuffer)
    (rate : Q) :
  sequencerSample app = Some sample ->
  reversedSequencerSample app = Some reversed ->
  contextSampleRate app = Some rate ->
  numberOfChannels sample ≠ 0 ->
  (0 < appBpm app)%Q ->
  (0 < rate)%Q ->
  (1 <= 16 * (60 / appBpm app / 4) * rate)%Q ->
  let stepDuration := secondsPerStep (appBpm app) in
  exists ctx,
    exportSequence app
    = Scheduled ctx
        (concat (imap (fun j i =>
                         unprocessedSource j
                           (exportedBuffer (appPattern app) sample reversed i)
                           (inject_Z (Z.of_nat i) * stepDuration))
                      (activeSteps (appPattern app) 16)))
    /\ (stepDuration == 60 / appBpm app / 4)%Q
    /\ offlineChannels ctx = numberOfChannels sample
    /\ offlineSampleRate ctx = rate
    /\ offlineLength ctx = Qfloor (16 * (60 / appBpm app / 4) * rate)
    /\ (offlineDuration ctx <= 16 * (60 / appBpm app / 4))%Q
    /\ (16 * (60 / appBpm app / 4) < offlineDuration ctx + 1 / rate)%Q.
Proof.
  intros Hsample Hrev Hrate Hchan Hbpm Hpos Hframe stepDuration.
  pose proof (secondsPerStep_eq _ Hbpm) as Hsps.
  assert (Htotal : (60.0 / appBpm app / 4.0 * 16 * rate
                    == 16 * (60 / appBpm app / 4) * rate)%Q).
  { fold (secondsPerStep (appBpm app)). rewrite Hsps. ring. }
  set (total := (16 * (60 / appBpm app / 4) * rate)%Q) in *.
  assert (Hfloor1 : (1 <= Qfloor total)%Z).
  { change 1%Z with (Qfloor 1). by apply Qfloor_resp_le. }
  unfold exportSequence. rewrite Hsample, Hrate, Hrev.
  unfold JS.floor. rewrite (Qfloor_comp _ _ Htotal).
  rewrite decide_False by (intros [?|?]; [done|lia]).
  eexists. split.
  { f_equal. unfold calls, exportSources. by rewrite exportLoop_run. }
  cbn [offlineChannels offlineSampleRate offlineLength].
  split; [done|]. split; [done|]. split; [done|]. split; [done|].
  unfold offlineDuration. cbn [offlineLength offlineSampleRate].
  pose proof (Qfloor_le total) as Hle.
  pose proof (Qlt_floor total) as Hlt.
  rewrite inject_Z_plus in Hlt. change (inject_Z 1) with 1%Q in Hlt.
  assert (Hdur : (16 * (60 / appBpm app / 4) == total / rate)%Q).
  { subst total. field. split; intros Hz; lra. }
  rewrite Hdur. split.
  - apply Qmult_le_compat_r; [done|]. apply Qlt_le_weak, Qinv_lt_0_compat, Hpos.
  - apply Qlt_shift_div_r; [done|].
    assert (Hexp : ((inject_Z (Qfloor total) / rate + 1 / rate) * rate
                    == inject_Z (Qfloor total) + 1)%Q).
    { field. intros Hz. lra. }
    rewrite Hexp. exact Hlt.
Qed.

Lemma exportSequence_pass_witness :
  let buf := mkAudioBuffer 48000 2 [[0; 1]; [1; 0]]%Q in
  let rev := mkAudioBuffer 48000 2 [[1; 0]; [0; 1]]%Q in
  let app := mkApp 120 (<[8 := Some "reverse"]> (<[0 := Some "normal"]> emptyPattern))
               (Some buf) (Some rev) (Some 48000%Q) in
  exists ctx,
    exportSequence app
    = Scheduled ctx
        (concat (imap (fun j i =>
                         unprocessedSource j
                           (exportedBuffer (appPattern app) buf rev i)
                           (inject_Z (Z.of_nat i) * secondsPerStep 120))
                      (activeSteps (appPattern app) 16)))
    /\ offlineLength ctx = 96000%Z.
Proof.
  intros buf rev app.
  destruct (exportSequence_pass app buf rev 48000) as (ctx & Hrun & _ & _ & _ & Hlen & _);
    try reflexivity; try done.
  exists ctx. split; [exact Hrun|]. rewrite Hlen. reflexivity.
Defined.

(** ** Randomize *)

Lemma drawPattern_length random used : length (drawPattern random used) = 16.
Proof. reflexivity. Qed.

Lemma drawPattern_lookup random used j :
  j < 16 ->
  drawPattern random used !! j
  = Some (mjoin (possibleStates !! poolIndex random (used + j))).
Proof.
  intros Hj. unfold drawPattern.
  rewrite list_lookup_fmap, lookup_seq_lt by done. reflexivity.
Qed.

Lemma poolIndex_range random n :
  (0 <= random n)%Q -> (random n < 1)%Q ->
  poolIndex random n < length possibleStates.
Proof.
  intros H0 H1. unfold poolIndex, JS.floor.
  change (length possibleStates) with 26.
  change (inject_Z (Z.of_nat 26)) with 26%Q.
  assert (Hlo : (0 <= Qfloor (random n * 26))%Z).
  { change 0%Z with (Qfloor 0). apply Qfloor_resp_le. lra. }
  assert (Hhi : (Qfloor (random n * 26) < 26)%Z).
  { pose proof (Qfloor_le (random n * 26)) as Hle.
    rewrite Zlt_Qlt. change (inject_Z 26) with 26%Q. lra. }
  lia.
Qed.

Lemma isSamePattern_refl p : isSamePattern p p = true.
Proof. apply String.eqb_refl. Qed.

Lemma everyNull_false p :
  everyNull p = false -> exists i fx, p !! i = Some (Some fx).
Proof.
  induction p as [|[fx|] p IH]; cbn; intros H; [done| |].
  - by exists 0, fx.
  - destruct (IH H) as (i & fx & Hi). by exists (S i), fx.
Qed.

Lemma randomizeLoop_result random pattern fuel : forall used p,
  randomizeLoop fuel random used pattern = Some p ->
  exists attempt,
    attempt < fuel
    /\ p = drawPattern random (used + 16 * attempt)
    /\ accepted p pattern
    /\ forall k, k < attempt ->
         ~ accepted (drawPattern random (used + 16 * k)) pattern.
Proof.
  induction fuel as [|fuel IH]; intros used p H; [done|].
  cbn [randomizeLoop] in H.
  destruct (isSamePattern (drawPattern random used) pattern
            || everyNull (drawPattern random used)) eqn:Hrej.
  - destruct (IH _ _ H) as (a & Ha & -> & Hacc & Hbefore).
    exists (S a). split; [lia|]. split; [f_equal; lia|].
    split; [by replace (used + 16 * S a) with (used + 16 + 16 * a) by lia|].
    intros k Hk. destruct k as [|k].
    + rewrite Nat.mul_0_r, Nat.add_0_r. intros [H1 H2].
      rewrite H1, H2 in Hrej. discriminate.
    + replace (used + 16 * S k) with (used + 16 + 16 * k) by lia.
      apply Hbefore. lia.
  - inversion H; subst. exists 0. split; [lia|].
    rewrite Nat.mul_0_r, Nat.add_0_r. split; [done|].
    apply orb_false_iff in Hrej. split; [done|]. intros k Hk. lia.
Qed.

Lemma randomizeLoop_returns random pattern attempt : forall used,
  accepted (drawPattern random (used + 16 * attempt)) pattern ->
  exists p, randomizeLoop (S attempt) random used pattern = Some p.
Proof.
  induction attempt as [|a IH]; intros used Hacc.
  - rewrite Nat.mul_0_r, Nat.add_0_r in Hacc. destruct Hacc as [H1 H2].
    cbn [randomizeLoop]. rewrite H1, H2. cbn. eauto.
  - cbn [randomizeLoop].
    destruct (isSamePattern (drawPattern random used) pattern
              || everyNull (drawPattern random used)); [|eauto].
    apply IH. by replace (used + 16 + 16 * a) with (used + 16 * S a) by lia.
Qed.

(** C6. The pool holds the 20 effect identifiers once each and [null] 6
    times. For every 16-slot input pattern and every sequence of random
    values in [0, 1): a pattern returned by randomize has 16 slots, is not the
    input pattern and has a non-empty slot; it is the first draw that is
    neither the same as the input nor entirely empty, every earlier draw
    having been rejected, and each of its slots is the pool entry selected by
    that slot's own random value. Randomize returns as soon as some draw is
    acceptable. *)
Theorem randomize_result (random : nat -> Q) (pattern : Pattern) :
  (forall n, (0 <= random n)%Q /\ (random n < 1)%Q) ->
  length pattern = 16 ->
  (length FX_KEYS = 20
   /\ length (filter (fun s => s = None) possibleStates) = 6
   /\ forall fx, fx ∈ FX_KEYS ->
        length (filter (fun s => s = Some fx) possibleStates) = 1)
  /\ (forall fuel p,
        handleRandomizePattern fuel random pattern = Some p ->
        length p = 16
        /\ p ≠ pattern
        /\ (exists i fx, p !! i = Some (Some fx))
        /\ exists attempt,
             (forall k, k < attempt ->
                ~ accepted (drawPattern random (16 * k)) pattern)
             /\ forall j, j < 16 ->
                  exists slot,
                    p !! j = Some slot
                    /\ possibleStates !! poolIndex random (16 * attempt + j)
                       = Some slot)
  /\ (forall attempt,
        accepted (drawPattern random (16 * attempt)) pattern ->
        exists fuel p, handleRandomizePattern fuel random pattern = Some p).
Proof.
  intros Hrandom Hlen. split; [|split].
  - split; [reflexivity|]. split; [reflexivity|].
    intros fx Hfx.
    repeat (apply elem_of_cons in Hfx as [->|Hfx]; [reflexivity|]).
    by apply elem_of_nil in Hfx.
  - intros fuel p Hrun. unfold handleRandomizePattern in Hrun.
    destruct (randomizeLoop_result _ _ _ _ _ Hrun)
      as (a & _ & -> & [Hsame Hnull] & Hbefore).
    split; [apply drawPattern_length|]. split.
    { intros Heq. rewrite Heq, isSamePattern_refl in Hsame. discriminate. }
    split; [by apply everyNull_false|].
    exists a. split; [exact Hbefore|].
    intros j Hj. rewrite drawPattern_lookup by done. cbn [plus].
    destruct (Hrandom (16 * a + j)) as [H0 H1].
    pose proof (poolIndex_range random _ H0 H1) as Hidx.
    apply lookup_lt_is_Some_2 in Hidx as [slot Hslot].
    exists slot. by rewrite Hslot.
  - intros a Hacc. exists (S a).
    apply (randomizeLoop_returns random pattern a 0 Hacc).
Qed.

Lemma randomize_result_witness :
  (forall n : nat, (0 <= 0)%Q /\ (0 < 1)%Q)
  /\ length emptyPattern = 16
  /\ exists fuel p,
       handleRandomizePattern fuel (fun _ => 0%Q) emptyPattern = Some p.
Proof.
  assert (Hrandom : forall n : nat, (0 <= 0)%Q /\ (0 < 1)%Q)
    by (intros _; split; [discriminate | reflexivity]).
  assert (Hlen : length emptyPattern = 16) by reflexivity.
  split; [exact Hrandom|]. split; [exact Hlen|].
  apply (proj2 (proj2 (randomize_result (fun _ => 0%Q) emptyPattern
                         Hrandom Hlen)) 0).
  split; reflexivity.
Defined.

(** ** WAV encoding and decoding *)

Lemma trunc_nonneg (q : Q) :
  (0 <= q)%Q ->
  (inject_Z (JS.trunc q) <= q)%Q /\ (q < inject_Z (JS.trunc q) + 1)%Q.
Proof.
  intros Hq.
  assert (Ht : JS.trunc q = Qfloor q).
  { destruct q as [n d]. unfold JS.trunc, Qfloor. cbn [Qnum Qden].
    unfold Qle in Hq. cbn in Hq. apply Z.quot_div_nonneg; lia. }
  rewrite Ht. split; [apply Qfloor_le|].
  pose proof (Qlt_floor q) as H. by rewrite inject_Z_plus in H.
Qed.

Lemma trunc_opp (q : Q) : JS.trunc (- q) = (- JS.trunc q)%Z.
Proof. unfold JS.trunc. cbn. apply Z.quot_opp_l. lia. Qed.

Lemma trunc_nonpos (q : Q) :
  (q <= 0)%Q ->
  (q <= inject_Z (JS.trunc q))%Q /\ (inject_Z (JS.trunc q) < q + 1)%Q.
Proof.
  intros Hq.
  destruct (trunc_nonneg (- q)) as [H1 H2]; [lra|].
  rewrite trunc_opp, inject_Z_opp in H1, H2. split; lra.
Qed.

Lemma clamp_range (x : Q) :
  (-1 <= x)%Q -> (x <= 1)%Q -> (clamp x == x)%Q.
Proof.
  intros H1 H2. unfold clamp.
  rewrite (Q.min_r 1 x) by done. by rewrite Q.max_r.
Qed.

Lemma scale16_comp (x y : Q) : (x == y)%Q ->
  (scale16 x == scale16 y)%Q.
Proof.
  intros Hxy. unfold scale16.
  destruct (Qlt_le_dec x 0), (Qlt_le_dec y 0); try lra.
Qed.

Lemma trunc_comp (x y : Q) : (x == y)%Q -> JS.trunc x = JS.trunc y.
Proof.
  intros Hxy.
  destruct (Qlt_le_dec x 0) as [Hneg|Hpos].
  - destruct (trunc_nonpos x) as [Hx1 Hx2]; [lra|].
    destruct (trunc_nonpos y) as [Hy1 Hy2]; [lra|].
    assert (H : (inject_Z (JS.trunc x) < inject_Z (JS.trunc y) + 1
                 /\ inject_Z (JS.trunc y) < inject_Z (JS.trunc x) + 1)%Q) by (split; lra).
    destruct H as [Ha Hb].
    rewrite <- (inject_Z_plus _ 1), <- Zlt_Qlt in Ha.
    rewrite <- (inject_Z_plus _ 1), <- Zlt_Qlt in Hb. lia.
  - destruct (trunc_nonneg x) as [Hx1 Hx2]; [lra|].
    destruct (trunc_nonneg y) as [Hy1 Hy2]; [lra|].
    assert (H : (inject_Z (JS.trunc x) < inject_Z (JS.trunc y) + 1
                 /\ inject_Z (JS.trunc y) < inject_Z (JS.trunc x) + 1)%Q) by (split; lra).
    destruct H as [Ha Hb].
    rewrite <- (inject_Z_plus _ 1), <- Zlt_Qlt in Ha.
    rewrite <- (inject_Z_plus _ 1), <- Zlt_Qlt in Hb. lia.
Qed.

(** The stored integer of a sample in [[-1, 1]]. *)
Lemma quantize_bounds (x : Q) :
  (-1 <= x)%Q -> (x <= 1)%Q ->
  (-32768 <= quantize x <= 32767)%Z
  /\ (Qabs (x - inject_Z (quantize x) / 32768.0) < 2 / 32768)%Q
  /\ ((x <= 0)%Q -> (Qabs (x - inject_Z (quantize x) / 32768.0) < 1 / 32768)%Q).
Proof.
  intros H1 H2. unfold quantize.
  rewrite (trunc_comp _ (scale16 x)) by (apply scale16_comp, clamp_range; done).
  unfold scale16. destruct (Qlt_le_dec x 0) as [Hneg|Hpos].
  - destruct (trunc_nonpos (x * 32768)) as [Ha Hb]; [lra|].
    set (t := JS.trunc (x * 32768)) in *.
    assert (Hlo : (inject_Z (-32768) <= inject_Z t)%Q)
      by (change (inject_Z (-32768)) with (-32768)%Q; lra).
    assert (Hhi : (inject_Z t < inject_Z 1)%Q)
      by (change (inject_Z 1) with 1%Q; lra).
    rewrite <- Zle_Qle in Hlo. rewrite <- Zlt_Qlt in Hhi.
    split; [lia|].
    assert (Hd : (Qabs (x - inject_Z t / 32768.0) < 1 / 32768)%Q)
      by (apply Qabs_Qlt_condition; unfold Qdiv; cbn [Qinv Qnum Qden];
          split; lra).
    split; [|done]. eapply Qlt_trans; [exact Hd|]. reflexivity.
  - destruct (trunc_nonneg (x * 32767)) as [Ha Hb]; [lra|].
    set (t := JS.trunc (x * 32767)) in *.
    assert (Hlo : (inject_Z (-1) < inject_Z t)%Q)
      by (change (inject_Z (-1)) with (-1)%Q; lra).
    assert (Hhi : (inject_Z t <= inject_Z 32767)%Q)
      by (change (inject_Z 32767) with 32767%Q; lra).
    rewrite <- Zlt_Qlt in Hlo. rewrite <- Zle_Qle in Hhi.
    split; [lia|].
    split; [apply Qabs_Qlt_condition; unfold Qdiv; cbn [Qinv Qnum Qden];
            split; lra|].
    intros Hx. assert (Hx0 : (x == 0)%Q) by lra.
    apply Qabs_Qlt_condition; unfold Qdiv; cbn [Qinv Qnum Qden]; split; lra.
Qed.

Lemma int16_of_sampleBytes (x : Q) :
  (-32768 <= quantize x <= 32767)%Z ->
  match sampleBytes x with
  | [lo; hi] => int16_of_bytes lo hi = quantize x
  | _ => False
  end.
Proof.
  intros Hrange. unfold sampleBytes, int16_of_bytes.
  set (t := quantize x) in *. cbv zeta.
  destruct (_ <? 32768)%Z eqn:Hlt; [apply Z.ltb_lt in Hlt|apply Z.ltb_ge in Hlt];
    revert Hlt; Z.div_mod_to_equations; lia.
Qed.

Lemma keeps_refl d view : keeps d view view.
Proof. by split. Qed.

Lemma keeps_trans d v1 v2 v3 : keeps d v1 v2 -> keeps d v2 v3 -> keeps d v1 v3.
Proof. intros [L1 D1] [L2 D2]. split; congruence. Qed.

Lemma keeps_insert d view i x : i < d -> keeps d view (<[i:=x]> view).
Proof.
  intros Hi. split; [apply length_insert|]. by apply drop_insert_lt.
Qed.

Lemma setUint8_keeps d view pos v :
  pos + 1 <= d -> d <= length view ->
  exists view', DataView.setUint8 view pos v = Some view' /\ keeps d view view'.
Proof.
  intros Hpos Hd. unfold DataView.setUint8.
  rewrite decide_True by lia. eexists. split; [done|].
  apply keeps_insert. lia.
Qed.

Lemma setUint16_keeps d view pos v :
  pos + 2 <= d -> d <= length view ->
  exists view', DataView.setUint16 view pos v = Some view' /\ keeps d view view'.
Proof.
  intros Hpos Hd. unfold DataView.setUint16.
  rewrite decide_True by lia. eexists. split; [done|].
  eapply keeps_trans; apply keeps_insert; lia.
Qed.

Lemma setUint32_keeps d view pos v :
  pos + 4 <= d -> d <= length view ->
  exists view', DataView.setUint32 view pos v = Some view' /\ keeps d view view'.
Proof.
  intros Hpos Hd. unfold DataView.setUint32.
  rewrite decide_True by lia. eexists. split; [done|].
  eapply keeps_trans; [|apply keeps_insert; lia].
  eapply keeps_trans; [|apply keeps_insert; lia].
  eapply keeps_trans; apply keeps_insert; lia.
Qed.

Lemma writeString_keeps d str : forall view offset,
  offset + String.length str <= d -> d <= length view ->
  exists view', writeString view offset str = Some view' /\ keeps d view view'.
Proof.
  induction str as [|c str IH]; intros view offset Hoff Hd; cbn in *.
  - eexists. split; [done|apply keeps_refl].
  - destruct (setUint8_keeps d view offset (Z.of_N (N_of_ascii c)))
      as (v1 & -> & K1); [lia..|].
    cbn. destruct (IH v1 (offset + 1)) as (v2 & -> & K2);
      [lia|destruct K1; lia|].
    eexists. split; [done|by eapply keeps_trans].
Qed.

Lemma setInt16_app pre a b suf x :
  DataView.setInt16 (pre ++ a :: b :: suf) (length pre) (scale16 (clamp x))
  = Some (pre ++ sampleBytes x ++ suf).
Proof.
  unfold DataView.setInt16, DataView.setUint16.
  rewrite decide_True by (rewrite length_app; cbn; lia).
  rewrite <- (Nat.add_0_r (length pre)) at 2. rewrite insert_app_r.
  rewrite insert_app_r. reflexivity.
Qed.

Lemma writeFrame_app offset channels : forall pre suf,
  2 * length channels <= length suf ->
  writeFrame channels offset (pre ++ suf) (length pre)
  = Some (pre ++ frameBytes channels offset ++ drop (2 * length channels) suf,
          length pre + 2 * length channels).
Proof.
  induction channels as [|ch rest IH]; intros pre suf Hlen.
  - cbn. by rewrite Nat.add_0_r.
  - destruct suf as [|a [|b suf]]; cbn in Hlen; try lia.
    cbn [writeFrame]. rewrite setInt16_app. cbn [mbind option_bind].
    replace (length pre + 2) with (length (pre ++ sampleBytes (default 0%Q (ch !! offset))))
      by (rewrite length_app; reflexivity).
    rewrite app_assoc, IH by lia.
    rewrite length_app. cbn [length frameBytes flat_map].
    replace (2 * S (length rest)) with (S (S (2 * length rest))) by lia.
    cbn [drop]. rewrite <- !app_assoc.
    change (length (sampleBytes (default 0%Q (ch !! offset)))) with 2.
    do 2 f_equal. lia.
Qed.

Lemma writeSamples_app channels fuel : forall pre suf offset,
  length suf = 2 * length channels * fuel ->
  writeSamples fuel channels (length pre + length suf) (pre ++ suf)
    (length pre) offset
  = Some (pre ++ concat (map (frameBytes channels) (seq offset fuel))).
Proof.
  induction fuel as [|fuel IH]; intros pre suf offset Hlen.
  - rewrite Nat.mul_0_r in Hlen. apply nil_length_inv in Hlen as ->.
    cbn. rewrite decide_False by lia. reflexivity.
  - destruct channels as [|ch0 rest] eqn:Hch.
    + cbn in Hlen. apply nil_length_inv in Hlen as ->.
      cbn [writeSamples]. rewrite decide_False by (cbn; lia).
      f_equal. f_equal. generalize (seq offset (S fuel)).
      intros l. induction l as [|j l IHl]; [done|exact IHl].
    + rewrite <- Hch in *.
      assert (Hn : 0 < length channels) by (rewrite Hch; cbn; lia).
      cbn [writeSamples]. rewrite decide_True by nia.
      rewrite writeFrame_app by nia. cbn [mbind option_bind].
      set (fb := frameBytes channels offset).
      assert (Hfb : length fb = 2 * length channels).
      { subst fb. unfold frameBytes. clear. induction channels; cbn; lia. }
      replace (length pre + length suf)
        with (length (pre ++ fb) + length (drop (2 * length channels) suf))
        by (rewrite length_app, length_drop; nia).
      replace (length pre + 2 * length channels) with (length (pre ++ fb))
        by (rewrite length_app; lia).
      rewrite app_assoc, IH by (rewrite length_drop; nia).
      cbn [seq map concat]. rewrite <- app_assoc.
      by rewrite Nat.add_1_r.
Qed.

Ltac header_step :=
  let v' := fresh "view" in
  match goal with
  | |- context [DataView.setUint32 ?v ?p ?x] =>
      destruct (setUint32_keeps 44 v p x) as (v' & -> & [? ?])
  | |- context [DataView.setUint16 ?v ?p ?x] =>
      destruct (setUint16_keeps 44 v p x) as (v' & -> & [? ?])
  | |- context [writeString ?v ?p ?x] =>
      destruct (writeString_keeps 44 x v p) as (v' & -> & [? ?])
  end; [cbn; lia | lia | cbn [mbind option_bind]].

(** [exportToWav] never fails: it produces 44 header bytes followed by the
    frames in order, each frame holding every channel's two sample bytes. *)
Lemma exportToWav_data (b : AudioBuffer) :
  exists header,
    length header = 44
    /\ exportToWav b
       = Some (header
               ++ concat (map (frameBytes (channelData b)) (seq 0 (frames b)))).
Proof.
  unfold exportToWav, numberOfChannels. cbv zeta.
  set (n := length (channelData b)).
  set (L := frames b * n * 2 + 44).
  assert (HL : length (replicate L 0%Z) = L) by apply length_replicate.
  set (view0 := replicate L 0%Z) in *.
  do 13 header_step.
  assert (Hdrop : drop 44 view12 = replicate (frames b * n * 2) 0%Z).
  { transitivity (drop 44 view0); [congruence|].
    subst view0 L. by rewrite drop_replicate, Nat.add_sub. }
  exists (take 44 view12).
  assert (Htake : length (take 44 view12) = 44) by (rewrite length_take; lia).
  split; [exact Htake|].
  rewrite <- (take_drop 44 view12) at 1. rewrite Hdrop.
  replace L with (length (take 44 view12)
                  + length (replicate (frames b * n * 2) 0%Z))
    by (rewrite Htake, length_replicate; lia).
  replace (0 + 4 + 4 + 4 + 4 + 4 + 2 + 2 + 4 + 4 + 2 + 2 + 4 + 4)
    with (length (take 44 view12)) by (rewrite Htake; reflexivity).
  apply writeSamples_app. rewrite length_replicate. subst n. lia.
Qed.

Lemma int16Array_frames (ch0 ch1 : list Q) (l : list nat) :
  (forall j, (-32768 <= quantize (default 0%Q (ch0 !! j)) <= 32767)%Z
             /\ (-32768 <= quantize (default 0%Q (ch1 !! j)) <= 32767)%Z) ->
  int16Array (concat (map (frameBytes [ch0; ch1]) l))
  = concat (map (fun j => [quantize (default 0%Q (ch0 !! j));
                           quantize (default 0%Q (ch1 !! j))]) l).
Proof.
  intros Hrange. induction l as [|j l IH]; [done|].
  cbn [map concat frameBytes flat_map]. rewrite app_nil_r.
  destruct (Hrange j) as [H0 H1].
  pose proof (int16_of_sampleBytes _ H0) as E0.
  pose proof (int16_of_sampleBytes _ H1) as E1.
  unfold sampleBytes in *. cbn [app int16Array].
  rewrite E0, E1, IH. reflexivity.
Qed.

Lemma pairs_length (f g : nat -> Z) (l : list nat) :
  length (concat (map (fun j => [f j; g j]) l)) = 2 * length l.
Proof. induction l as [|j l IH]; cbn; [done|]. rewrite IH. lia. Qed.

Lemma pairs_lookup (f g : nat -> Z) m : forall k i,
  i < m ->
  concat (map (fun j => [f j; g j]) (seq k m)) !! (i * 2) = Some (f (k + i))
  /\ concat (map (fun j => [f j; g j]) (seq k m)) !! (i * 2 + 1)
     = Some (g (k + i)).
Proof.
  induction m as [|m IH]; intros k i Hi; [lia|].
  destruct i as [|i].
  - cbn. by rewrite Nat.add_0_r.
  - destruct (IH (S k) i) as [Ha Hb]; [lia|].
    cbn [seq map concat]. cbn [app].
    replace (S i * 2) with (S (S (i * 2))) by lia.
    replace (S (S (i * 2)) + 1) with (S (S (i * 2 + 1))) by lia.
    cbn [lookup list_lookup].
    replace (k + S i) with (S k + i) by lia. by split.
Qed.

Lemma default_range (b : AudioBuffer) (ch : list Q) (j : nat) :
  (forall c x, c ∈ channelData b -> x ∈ c -> (-1 <= x)%Q /\ (x <= 1)%Q) ->
  ch ∈ channelData b ->
  (-1 <= default 0%Q (ch !! j))%Q /\ (default 0%Q (ch !! j) <= 1)%Q.
Proof.
  intros Hrange Hch. destruct (ch !! j) as [x|] eqn:Hx; cbn.
  - eapply Hrange; [done|]. by eapply list_elem_of_lookup_2.
  - split; discriminate.
Qed.

Lemma stereo_frames_length (ch0 ch1 : list Q) (l : list nat) :
  length (concat (map (frameBytes [ch0; ch1]) l)) = 4 * length l.
Proof. induction l as [|j l IH]; cbn in *; [done|]. rewrite IH. lia. Qed.

(** C8, as stated, fails: the sample 1 - 2^-17 is stored as 32766 and read
    back as 32766/32768, which is 1.75/32768 away. *)
Lemma wav_quantization_counterexample :
  let b := mkAudioBuffer 48000 1 [[131071 # 131072]; [0]]%Q in
  wf_buffer b
  /\ exists wav decoded y,
       exportToWav b = Some wav
       /\ decodePCMAudioData (drop 44 wav) = Some decoded
       /\ channelData decoded !! 0 ≫= (.!! 0) = Some y
       /\ ~ (Qabs ((131071 # 131072) - y) <= 1 / 32768)%Q.
Proof.
  intros b. split; [repeat constructor|].
  eexists _, _, _. split; [vm_compute; reflexivity|].
  split; [vm_compute; reflexivity|].
  split; [vm_compute; reflexivity|].
  vm_compute. intros H. by apply H.
Qed.

(** C8, amended. For every two-channel buffer of at least one frame whose
    samples lie in [[-1, 1]], [exportToWav] produces a 44-byte header followed
    by 4 bytes per frame, and decoding those bytes with [decodePCMAudioData]
    gives a two-channel buffer of as many frames in which every sample is
    less than 2/32768 away from the original, and less than 1/32768 away
    when the original is not positive. *)
Theorem wav_roundtrip (b : AudioBuffer) :
  wf_buffer b ->
  numberOfChannels b = 2 ->
  0 < frames b ->
  (forall ch x, ch ∈ channelData b -> x ∈ ch -> (-1 <= x)%Q /\ (x <= 1)%Q) ->
  exists wav decoded,
    exportToWav b = Some wav
    /\ length wav = 44 + 4 * frames b
    /\ decodePCMAudioData (drop 44 wav) = Some decoded
    /\ frames decoded = frames b
    /\ numberOfChannels decoded = 2
    /\ forall c i ch x,
         channelData b !! c = Some ch -> ch !! i = Some x ->
         exists ch' y,
           channelData decoded !! c = Some ch'
           /\ ch' !! i = Some y
           /\ (Qabs (x - y) < 2 / 32768)%Q
           /\ ((x <= 0)%Q -> (Qabs (x - y) < 1 / 32768)%Q).
Proof.
  intros Hwf Hchan Hframes Hrange.
  destruct (exportToWav_data b) as (header & Hheader & Hwav).
  assert (Hchannels : exists ch0 ch1, channelData b = [ch0; ch1]).
  { unfold numberOfChannels in Hchan.
    destruct (channelData b) as [|ch0 [|ch1 [|? ?]]]; try discriminate.
    by exists ch0, ch1. }
  destruct Hchannels as (ch0 & ch1 & Hchannels). rewrite Hchannels in Hwav.
  assert (Hq : forall j,
             (-32768 <= quantize (default 0%Q (ch0 !! j)) <= 32767)%Z
             /\ (-32768 <= quantize (default 0%Q (ch1 !! j)) <= 32767)%Z).
  { intros j. split.
    - destruct (default_range b ch0 j) as [? ?];
        [done|rewrite Hchannels; repeat constructor|].
      by apply quantize_bounds.
    - destruct (default_range b ch1 j) as [? ?];
        [done|rewrite Hchannels; repeat constructor|].
      by apply quantize_bounds. }
  set (f := fun j => quantize (default 0%Q (ch0 !! j))).
  set (g := fun j => quantize (default 0%Q (ch1 !! j))).
  set (data := concat (map (frameBytes [ch0; ch1]) (seq 0 (frames b)))) in *.
  assert (Hints : int16Array data
                  = concat (map (fun j => [f j; g j]) (seq 0 (frames b))))
    by (by apply int16Array_frames).
  assert (Hcount : length (int16Array data) `div` 2 = frames b).
  { rewrite Hints, pairs_length, length_seq, Nat.mul_comm.
    by apply Nat.div_mul. }
  exists (header ++ data). eexists.
  split; [exact Hwav|]. split.
  { rewrite length_app, Hheader. f_equal. subst data.
    by rewrite stereo_frames_length, length_seq. }
  rewrite drop_app_length' by done.
  unfold decodePCMAudioData. cbv zeta. rewrite Hcount.
  rewrite decide_False by lia.
  split; [reflexivity|]. split; [reflexivity|]. split; [reflexivity|].
  intros c i ch x Hc Hi.
  assert (Hi' : i < frames b).
  { apply lookup_lt_Some in Hi.
    assert (Hin : ch ∈ channelData b)
      by (eapply list_elem_of_lookup_2, Hc).
    unfold wf_buffer in Hwf. rewrite Forall_forall in Hwf.
    rewrite <- (Hwf ch Hin). exact Hi. }
  destruct (pairs_lookup f g (frames b) 0 i Hi') as [Hf Hg].
  destruct (default_range b ch i Hrange) as [Hx1 Hx2];
    [eapply list_elem_of_lookup_2, Hc|].
  rewrite Hi in Hx1, Hx2. cbn in Hx1, Hx2.
  destruct (quantize_bounds x Hx1 Hx2) as (_ & Hb2 & Hb1).
  cbn [channelData seq map].
  rewrite Hchannels in Hc.
  destruct c as [|[|c]]; [| |done]; cbn in Hc; inversion Hc; subst ch;
    eexists _, _; (split; [reflexivity|]);
    rewrite list_lookup_fmap, lookup_seq_lt by done; cbn [fmap option_fmap option_map plus].
  - rewrite Nat.add_0_r, Hints, Hf. cbn [default plus]. subst f. cbv beta.
    rewrite Hi. cbn [default]. by split.
  - rewrite Hints, Hg. cbn [default plus]. subst g. cbv beta.
    rewrite Hi. cbn [default]. by split.
Qed.

Lemma wav_roundtrip_witness :
  let b := mkAudioBuffer 48000 2 [[1 # 2; -1]; [0; 1]]%Q in
  wf_buffer b
  /\ exists wav decoded,
       exportToWav b = Some wav
       /\ length wav = 44 + 4 * 2
       /\ decodePCMAudioData (drop 44 wav) = Some decoded.
Proof.
  intros b.
  assert (Hwf : wf_buffer b) by (repeat constructor).
  assert (Hrange : forall ch x, ch ∈ channelData b -> x ∈ ch ->
                                (-1 <= x)%Q /\ (x <= 1)%Q).
  { intros ch x Hch Hx. cbn in Hch.
    repeat (apply elem_of_cons in Hch as [->|Hch];
            [repeat (apply elem_of_cons in Hx as [->|Hx];
                     [split; discriminate|]);
             by apply elem_of_nil in Hx|]).
    by apply elem_of_nil in Hch. }
  split; [exact Hwf|].
  destruct (wav_roundtrip b Hwf eq_refl (Nat.lt_0_succ 1) Hrange)
    as (wav & decoded & Hwav & Hlen & Hdec & _).
  exists wav, decoded. auto.
Defined.

(** ** Generation requests *)

Lemma copyChunks_app chunks : forall filled rest,
  length rest = length (concat chunks) ->
  copyChunks chunks (filled ++ rest) (length filled)
  = Some (filled ++ concat chunks).
Proof.
  induction chunks as [|chunk chunks IH]; intros filled rest Hlen.
  - cbn in *. apply nil_length_inv in Hlen as ->. reflexivity.
  - cbn [copyChunks concat] in *. rewrite length_app in Hlen.
    unfold typedArraySet.
    rewrite decide_True by (rewrite length_app; lia).
    rewrite take_app_length, drop_app_add. cbn [mbind option_bind].
    replace (length filled + length chunk) with (length (filled ++ chunk))
      by apply length_app.
    rewrite (app_assoc filled chunk), IH by (rewrite length_drop; lia).
    by rewrite <- app_assoc.
Qed.

Lemma copyChunks_concat chunks :
  copyChunks chunks (replicate (length (concat chunks)) 0%Z) 0
  = Some (concat chunks).
Proof.
  apply (copyChunks_app chunks [] (replicate (length (concat chunks)) 0%Z)).
  by rewrite length_replicate.
Qed.

Section GenerateAudioProperties.

Variable atob : string -> option string.
Variable btoa : string -> string.

Lemma reject_promise e g :
  promise (reject e g) = match promise g with Pending => Rejected e | p => p end.
Proof. unfold reject. by destruct (promise g) eqn:E. Qed.

Lemma resolve_promise v g :
  promise (resolve v g) = match promise g with Pending => Resolved v | p => p end.
Proof. unfold resolve. by destruct (promise g) eqn:E. Qed.

Lemma cleanupAndResolve_promise g :
  totalByteLength g = length (concat (audioChunks g)) ->
  promise (cleanupAndResolve btoa g)
  = if sessionClosed g then promise g
    else match promise g with
         | Pending => outcome btoa g
         | p => p
         end.
Proof.
  intros Htotal. unfold cleanupAndResolve, outcome.
  destruct (sessionClosed g); [done|]. cbn [audioChunks totalByteLength].
  destruct (audioChunks g) as [|chunk chunks] eqn:Hchunks.
  - rewrite decide_True by done. by rewrite reject_promise.
  - rewrite decide_False by done.
    rewrite Htotal, copyChunks_concat. by rewrite resolve_promise.
Qed.

Lemma reject_fields e g :
  audioChunks (reject e g) = audioChunks g
  /\ totalByteLength (reject e g) = totalByteLength g
  /\ hasReceivedAudio (reject e g) = hasReceivedAudio g
  /\ sessionClosed (reject e g) = sessionClosed g.
Proof. unfold reject. by destruct (promise g). Qed.

Lemma resolve_fields v g :
  audioChunks (resolve v g) = audioChunks g
  /\ totalByteLength (resolve v g) = totalByteLength g
  /\ hasReceivedAudio (resolve v g) = hasReceivedAudio g
  /\ sessionClosed (resolve v g) = sessionClosed g.
Proof. unfold resolve. by destruct (promise g). Qed.

Lemma cleanupAndResolve_fields g :
  audioChunks (cleanupAndResolve btoa g) = audioChunks g
  /\ totalByteLength (cleanupAndResolve btoa g) = totalByteLength g
  /\ hasReceivedAudio (cleanupAndResolve btoa g) = hasReceivedAudio g
  /\ (sessionClosed g = false -> sessionClosed (cleanupAndResolve btoa g) = true).
Proof.
  unfold cleanupAndResolve.
  destruct (sessionClosed g) eqn:Hclosed; [done|].
  cbn [audioChunks totalByteLength].
  case_decide.
  - match goal with |- context [reject ?e ?h] =>
      destruct (reject_fields e h) as (-> & -> & -> & ->) end. done.
  - destruct (copyChunks _ _ _); [|done].
    match goal with |- context [resolve ?v ?h] =>
      destruct (resolve_fields v h) as (-> & -> & -> & ->) end. done.
Qed.

Lemma cleanupAndResolve_consistent g :
  consistent g -> consistent (cleanupAndResolve btoa g).
Proof.
  intros (Htotal & Hclosed & Hfirst).
  destruct (cleanupAndResolve_fields g) as (Hc & Ht & Hh & Hs).
  pose proof (cleanupAndResolve_promise g Htotal) as Hp.
  unfold consistent. rewrite Hc, Ht, Hh, Hp.
  split; [done|]. split; [|done].
  intros _. destruct (sessionClosed g); [by apply Hclosed|].
  unfold outcome. destruct (promise g), (audioChunks g); done.
Qed.

Lemma reject_consistent e g : consistent g -> consistent (reject e g).
Proof.
  intros (Htotal & Hclosed & Hfirst).
  destruct (reject_fields e g) as (Hc & Ht & Hh & Hs).
  unfold consistent. rewrite Hc, Ht, Hh, Hs, reject_promise.
  split; [done|]. split; [|done].
  intros H. specialize (Hclosed H). by destruct (promise g).
Qed.

Lemma pushChunks_fields chunks : forall g,
  totalByteLength g = length (concat (audioChunks g)) ->
  totalByteLength (pushChunks atob chunks g)
  = length (concat (audioChunks (pushChunks atob chunks g)))
  /\ promise (pushChunks atob chunks g) = promise g
  /\ sessionClosed (pushChunks atob chunks g) = sessionClosed g
  /\ hasReceivedAudio (pushChunks atob chunks g) = hasReceivedAudio g.
Proof.
  induction chunks as [|c chunks IH]; intros g Htotal; [done|].
  cbn [pushChunks]. destruct (JS.truthy c); [|by apply IH].
  destruct (decodeBase64 atob (default "" c)) as [chunk|]; [|done].
  match goal with |- context [pushChunks atob chunks ?h] =>
    destruct (IH h) as (H1 & H2 & H3 & H4) end.
  { cbn. rewrite concat_app, length_app. cbn. rewrite app_nil_r. lia. }
  done.
Qed.

Lemma step_consistent g e : consistent g -> consistent (step atob btoa g e).
Proof.
  intros Hg. pose proof Hg as (Htotal & Hclosed & Hfirst).
  destruct e; cbn [step].
  - apply reject_consistent. done.
  - done.
  - by apply cleanupAndResolve_consistent, reject_consistent.
  - done.
  - unfold onmessage. destruct chunks as [chunks|]; [|done].
    destruct (hasReceivedAudio g) eqn:Hrecv.
    + destruct (pushChunks_fields chunks g Htotal) as (H1 & H2 & H3 & H4).
      unfold consistent. rewrite H2, H3, H4. split; [done|]. split; [done|].
      rewrite Hrecv. discriminate.
    + match goal with |- consistent (pushChunks atob chunks ?h) =>
        destruct (pushChunks_fields chunks h Htotal) as (H1 & H2 & H3 & H4);
        unfold consistent; rewrite H2, H3, H4 end.
      split; [done|]. split; [done|]. discriminate.
  - by apply cleanupAndResolve_consistent, reject_consistent.
  - unfold onclose. destruct (sessionClosed g); [done|].
    by apply cleanupAndResolve_consistent.
  - destruct (initialTimeout g); [|done]. cbn [hasReceivedAudio].
    destruct (hasReceivedAudio g) eqn:Hrecv.
    + unfold consistent. cbn. repeat split; done.
    + apply cleanupAndResolve_consistent. done.
  - destruct (collectionTimeout g); [|done].
    by apply cleanupAndResolve_consistent.
Qed.

Lemma generateAudio_consistent events :
  consistent (generateAudio atob btoa events).
Proof.
  unfold generateAudio.
  assert (H0 : consistent initialGeneration) by (by repeat split).
  revert H0. generalize initialGeneration.
  induction events as [|e events IH]; intros g Hg; [done|].
  cbn. apply IH, step_consistent, Hg.
Qed.

Lemma cleanupAndResolve_settled g :
  promise g ≠ Pending -> promise (cleanupAndResolve btoa g) = promise g.
Proof.
  intros Hp. unfold cleanupAndResolve.
  destruct (sessionClosed g); [done|]. cbn [audioChunks totalByteLength].
  case_decide.
  - rewrite reject_promise. cbn. by destruct (promise g).
  - destruct (copyChunks _ _ _); [|done].
    rewrite resolve_promise. cbn. by destruct (promise g).
Qed.

Lemma pushChunks_promise chunks : forall g,
  promise (pushChunks atob chunks g) = promise g.
Proof.
  induction chunks as [|c chunks IH]; intros g; [done|].
  cbn [pushChunks]. destruct (JS.truthy c); [|by apply IH].
  destruct (decodeBase64 atob (default "" c)); [|done].
  by rewrite IH.
Qed.

Lemma progress_step g e :
  progress e = true -> promise (step atob btoa g e) = promise g.
Proof.
  destruct e; try discriminate; intros _; cbn [step]; try done.
  unfold onmessage. destruct chunks as [chunks|]; [|done].
  rewrite pushChunks_promise. by destruct (hasReceivedAudio g).
Qed.

Lemma settled_step g e :
  promise g ≠ Pending -> promise (step atob btoa g e) = promise g.
Proof.
  intros Hp. destruct (progress e) eqn:He; [by apply progress_step|].
  assert (Hr : forall err, promise (reject err g) = promise g)
    by (intros err; rewrite reject_promise; by destruct (promise g)).
  destruct e; try discriminate; cbn [step].
  - rewrite reject_promise. cbn. by destruct (promise g).
  - rewrite cleanupAndResolve_settled; rewrite Hr; done.
  - unfold onerror. rewrite cleanupAndResolve_settled; rewrite Hr; done.
  - unfold onclose. destruct (sessionClosed g); [done|].
    by apply cleanupAndResolve_settled.
  - destruct (initialTimeout g); [|done]. cbn [hasReceivedAudio].
    destruct (hasReceivedAudio g); [done|].
    by rewrite cleanupAndResolve_settled.
  - destruct (collectionTimeout g); [|done].
    by rewrite cleanupAndResolve_settled.
Qed.

Lemma settled_run events : forall g,
  promise g ≠ Pending ->
  promise (fold_left (step atob btoa) events g) = promise g.
Proof.
  induction events as [|e events IH]; intros g Hp; [done|].
  cbn. rewrite IH; rewrite settled_step; done.
Qed.

(** C9, amended. While the promise of a [generateAudio] call is pending:
    a close of the session, and the collection timeout when armed, settle it
    by the chunks collected so far, resolving with the base64 text of their
    concatenation when there is at least one and rejecting with the no-audio
    failure when there is none; the initial timeout, firing before any audio
    message, rejects with that failure; a session error rejects with the
    session-error failure, and a setup or connection failure with its own
    error, however many chunks were collected; connection, setup completion
    and messages leave it pending; and once settled it never changes. *)
Theorem generateAudio_settlement (events : list Event) :
  let g := generateAudio atob btoa events in
  promise g = Pending ->
  promise (step atob btoa g SessionClose) = outcome btoa g
  /\ (collectionTimeout g = true ->
      promise (step atob btoa g CollectionTimeoutFires) = outcome btoa g)
  /\ (initialTimeout g = true -> hasReceivedAudio g = false ->
      promise (step atob btoa g InitialTimeoutFires) = Rejected noAudioMessage)
  /\ promise (step atob btoa g SessionError) = Rejected sessionErrorMessage
  /\ (forall err,
        promise (step atob btoa g (SetupFailed err)) = Rejected err
        /\ promise (step atob btoa g (ConnectFailed err)) = Rejected err)
  /\ (forall e, progress e = true -> promise (step atob btoa g e) = Pending)
  /\ (forall e later,
        promise (step atob btoa g e) ≠ Pending ->
        promise (generateAudio atob btoa (events ++ e :: later))
        = promise (step atob btoa g e)).
Proof.
  intros g Hpending.
  destruct (generateAudio_consistent events) as (Htotal & Hclosed & Hfirst).
  fold g in Htotal, Hclosed, Hfirst.
  assert (Hopen : sessionClosed g = false).
  { destruct (sessionClosed g); [|done]. by destruct Hclosed. }
  split; [|split; [|split; [|split; [|split; [|split]]]]].
  - cbn [step]. unfold onclose. rewrite Hopen.
    by rewrite cleanupAndResolve_promise, Hopen, Hpending.
  - intros Harmed. cbn [step]. rewrite Harmed.
    by rewrite cleanupAndResolve_promise; cbn; rewrite ?Hopen, ?Hpending.
  - intros Harmed Hnone. cbn [step]. rewrite Harmed. cbn [hasReceivedAudio].
    rewrite Hnone.
    rewrite cleanupAndResolve_promise; cbn; rewrite ?Hopen, ?Hpending; [|done].
    unfold outcome. cbn. by rewrite (Hfirst Hnone).
  - cbn [step]. unfold onerror.
    rewrite cleanupAndResolve_settled; rewrite reject_promise, Hpending; done.
  - intros err. split; cbn [step].
    + rewrite cleanupAndResolve_settled; rewrite reject_promise, Hpending; done.
    + rewrite reject_promise. cbn. by rewrite Hpending.
  - intros e He. by rewrite progress_step.
  - intros e later Hsettled. unfold generateAudio.
    rewrite fold_left_app. cbn [fold_left].
    fold (generateAudio atob btoa events). fold g.
    by apply settled_run.
Qed.

End GenerateAudioProperties.

(** C9, as stated, fails: a session error after a chunk was collected
    rejects the request. *)
Lemma generateAudio_error_counterexample :
  let g := generateAudio Base64.atob Base64.btoa
             [Connected; SetupDone; Message (Some [Some "AAAA"]); SessionError] in
  audioChunks g = [[0; 0; 0]%Z]
  /\ promise g = Rejected sessionErrorMessage
  /\ ~ (exists base64, promise g = Resolved base64).
Proof.
  vm_compute. repeat split. intros [b Hb]. discriminate.
Qed.

Lemma generateAudio_settlement_witness :
  let events := [Connected; SetupDone; Message (Some [Some "TWFu"; Some "TWE="])] in
  let g := generateAudio Base64.atob Base64.btoa events in
  promise g = Pending
  /\ promise (step Base64.atob Base64.btoa g SessionClose) = Resolved "TWFuTWE="
  /\ promise (step Base64.atob Base64.btoa g SessionError)
     = Rejected sessionErrorMessage.
Proof.
  intros events g.
  assert (Hpending : promise g = Pending) by reflexivity.
  pose proof (generateAudio_settlement Base64.atob Base64.btoa events Hpending)
    as (Hclose & _ & _ & Herror & _).
  split; [exact Hpending|]. split; [|exact Herror].
  unfold g. rewrite Hclose. reflexivity.
Defined.

(** ** Worked examples *)

Example base64_vectors :
  Base64.btoa "Man" = "TWFu" /\ Base64.btoa "Ma" = "TWE="
  /\ Base64.atob "TWE=" = Some "Ma" /\ Base64.atob " TQ " = Some "M"
  /\ Base64.atob "TW=u" = None.
Proof. vm_compute. repeat split. Qed.

Example toggle_sequence :
  let P1 := handleToggleStep emptyPattern "delay" 2 in
  let P2 := handleToggleStep P1 "gate" 2 in
  P1 !! 2 = Some (Some "delay")
  /\ P2 !! 2 = Some (Some "gate")
  /\ handleToggleStep P2 "gate" 2 = emptyPattern.
Proof. vm_compute. repeat split. Qed.

(** At 120 bpm a run started at clock 0 and polled every 25 ms has fired
    steps 0 and 1, at 0 s and 0.125 s, once the clock reads 0.05 s. *)
Example playback_first_steps :
  let buf := mkAudioBuffer 48000 2 [[0; 1]; [0; 1]]%Q in
  let sq := mkSequencer 120 (Some buf) (Some buf) true true
              (<[0 := Some "normal"]> (<[1 := Some "stutter"]> emptyPattern))
              None true in
  (fun st => (map (fun p => (p.1, Qred p.2)) (fired st),
              Qred (nextStepTime st), currentStep st))
    <$> playbackRun 10 sq 0 [0.025; 0.05]%Q
  = Some ([(0, 0%Q); (1, (1 # 8)%Q)], (1 # 4)%Q, 1%Z).
Proof. vm_compute. reflexivity. Qed.

(** Two seconds of pattern at 120 bpm and 48 kHz: steps 0 and 8 are placed
    at 0 s and 1 s on a context of 96000 frames. *)
Example export_two_steps :
  let buf := mkAudioBuffer 48000 2 [[0; 1]; [1; 0]]%Q in
  let app := mkApp 120 (<[0 := Some "normal"]> (<[8 := Some "normal"]> emptyPattern))
               (Some buf) (Some buf) (Some 48000%Q) in
  match exportSequence app with
  | Scheduled ctx acts =>
      offlineLength ctx = 96000%Z
      /\ map (fun s => (s.1.1.1, Qred s.1.1.2)) (starts acts)
         = [(0, 0%Q); (1, 1%Q)]
  | _ => False
  end.
Proof. vm_compute. split; reflexivity. Qed.

(** ** The WAV file as a whole *)

Lemma frameBytes_length channels offset :
  length (frameBytes channels offset) = 2 * length channels.
Proof. unfold frameBytes. induction channels; cbn; lia. Qed.

Lemma frames_length channels (l : list nat) :
  length (concat (map (frameBytes channels) l)) = 2 * length channels * length l.
Proof.
  induction l as [|j l IH]; cbn; [lia|].
  rewrite length_app, IH, frameBytes_length. lia.
Qed.

(** X1. [exportToWav] never fails, whatever the buffer: every write lands
    inside the view and the sample loop ends, and the file has 44 bytes of
    header followed by two bytes per channel per frame. *)
Theorem exportToWav_size (b : AudioBuffer) :
  exists wav,
    exportToWav b = Some wav
    /\ length wav = 44 + 2 * numberOfChannels b * frames b.
Proof.
  destruct (exportToWav_data b) as (header & Hheader & ->).
  eexists. split; [done|].
  rewrite length_app, Hheader, frames_length, length_seq. reflexivity.
Qed.

Lemma le16_value (v : Z) :
  (v mod 256 + 256 * ((v / 256) mod 256) = v mod 65536)%Z.
Proof. Z.div_mod_to_equations. lia. Qed.

Lemma le32_value (v : Z) :
  (v mod 256 + 256 * ((v / 256) mod 256)
   + 65536 * ((v / 65536) mod 256 + 256 * ((v / 16777216) mod 256))
   = v mod 4294967296)%Z.
Proof. Z.div_mod_to_equations. lia. Qed.

(** X2. The 44 header bytes of every exported file, read back as
    little-endian numbers and character codes: "RIFF", the file length minus
    8, "WAVE", "fmt ", chunk size 16, format 1, the channel count, the sample
    rate (truncated to an integer), the byte rate [sampleRate * 2 * channels],
    the block align [channels * 2], 16 bits per sample, "data", and the length
    of what follows the header. Each number is stored modulo the width of its
    field. *)
Theorem exportToWav_header (b : AudioBuffer) :
  exists wav,
    exportToWav b = Some wav
    /\ take 4 wav = charCodes "RIFF"
    /\ uint32At wav 4 = Some (Z.of_nat (length wav - 8) mod 4294967296)%Z
    /\ take 8 (drop 8 wav) = charCodes "WAVEfmt "
    /\ uint32At wav 16 = Some 16%Z
    /\ uint16At wav 20 = Some 1%Z
    /\ uint16At wav 22 = Some (Z.of_nat (numberOfChannels b) mod 65536)%Z
    /\ uint32At wav 24 = Some (JS.trunc (sampleRate b) mod 4294967296)%Z
    /\ uint32At wav 28
       = Some (JS.trunc (sampleRate b * 2
                         * inject_Z (Z.of_nat (numberOfChannels b)))
               mod 4294967296)%Z
    /\ uint16At wav 32 = Some (Z.of_nat (numberOfChannels b * 2) mod 65536)%Z
    /\ uint16At wav 34 = Some 16%Z
    /\ take 4 (drop 36 wav) = charCodes "data"
    /\ uint32At wav 40 = Some (Z.of_nat (length wav - 44) mod 4294967296)%Z.
Proof.
  unfold exportToWav, numberOfChannels. cbv zeta.
  set (n := length (channelData b)).
  set (data := frames b * n * 2).
  replace (replicate (data + 44) 0%Z)
    with (replicate 44 0%Z ++ replicate data 0%Z)
    by (rewrite <- replicate_add; f_equal; lia).
  set (tail := replicate data 0%Z).
  assert (Htail : length tail = 2 * n * frames b)
    by (subst tail data; rewrite length_replicate; lia).
  set (v1 := Z.of_nat (data + 44 - 8)).
  set (v2 := Z.of_nat n).
  set (v3 := (JS.trunc (sampleRate b) mod 4294967296)%Z).
  set (v4 := (JS.trunc (sampleRate b * 2 * inject_Z v2) mod 4294967296)%Z).
  set (v5 := Z.of_nat (n * 2)).
  set (v6 := Z.of_nat
               (data + 44 - (0 + 4 + 4 + 4 + 4 + 4 + 2 + 2 + 4 + 4 + 2 + 2 + 4) - 4)).
  cbn [replicate app writeString].
  unfold DataView.setUint8, DataView.setUint16, DataView.setUint32.
  repeat (rewrite decide_True by (cbn [length]; lia);
          cbn [mbind option_bind insert list_insert Nat.add]).
  match goal with
  | |- context [writeSamples _ _ _ ?view 44 0] =>
      pose proof (take_drop 44 view) as Hsplit;
      cbn [take drop] in Hsplit; rewrite drop_0 in Hsplit;
      rewrite <- Hsplit; clear Hsplit
  end.
  match goal with
  | |- context [writeSamples _ _ _ (?pre ++ tail) 44 0] =>
      set (header := pre);
      assert (Hheader : length header = 44) by reflexivity
  end.
  replace (data + 44) with (length header + length tail) by (subst data; lia).
  change 44 with (length header) at 1.
  rewrite writeSamples_app by (rewrite Htail; reflexivity).
  eexists. split; [reflexivity|].
  assert (Hlen : length (header
                         ++ concat (map (frameBytes (channelData b))
                                      (seq 0 (frames b))))
                 = data + 44).
  { rewrite length_app, Hheader, frames_length, length_seq.
    subst data n. lia. }
  rewrite Hlen.
  unfold uint32At, uint16At. subst header.
  cbn [app take drop lookup list_lookup Nat.add mbind option_bind].
  rewrite !le32_value, !le16_value.
  subst v1 v3 v4 v5 v6 v2.
  repeat split; try reflexivity.
  - rewrite Z.mod_mod by lia. reflexivity.
  - rewrite Z.mod_mod by lia. reflexivity.
  - do 3 f_equal. lia.
Qed.

Lemma clamp_bounds (x : Q) : (-1 <= clamp x)%Q /\ (clamp x <= 1)%Q.
Proof.
  unfold clamp. split.
  - apply Q.le_max_l.
  - apply Q.max_lub; [discriminate|]. apply Q.le_min_l.
Qed.

Lemma clamp_idem (x : Q) : (clamp (clamp x) == clamp x)%Q.
Proof. destruct (clamp_bounds x). by apply clamp_range. Qed.

Lemma clamp_mono (x y : Q) : (x <= y)%Q -> (clamp x <= clamp y)%Q.
Proof.
  intros Hxy. unfold clamp.
  apply Q.max_le_compat_l, Q.min_le_compat_l, Hxy.
Qed.

Lemma clamp_high (x : Q) : (1 <= x)%Q -> (clamp x == 1)%Q.
Proof.
  intros Hx. unfold clamp. rewrite (Q.min_l 1 x) by done.
  apply Q.max_r. discriminate.
Qed.

Lemma clamp_low (x : Q) : (x <= -1)%Q -> (clamp x == -1)%Q.
Proof.
  intros Hx. unfold clamp. apply Q.max_l.
  eapply Qle_trans; [apply Q.le_min_r|exact Hx].
Qed.

Lemma quantize_clamp (x : Q) : quantize (clamp x) = quantize x.
Proof. unfold quantize. apply trunc_comp, scale16_comp, clamp_idem. Qed.

Lemma quantize_comp (x y : Q) : (x == y)%Q -> quantize x = quantize y.
Proof.
  intros Hxy. unfold quantize. apply trunc_comp, scale16_comp.
  unfold clamp. by rewrite Hxy.
Qed.

Lemma quantize_range (x : Q) : (-32768 <= quantize x <= 32767)%Z.
Proof.
  rewrite <- quantize_clamp. destruct (clamp_bounds x) as [H1 H2].
  by apply quantize_bounds.
Qed.

Lemma trunc_mono (x y : Q) : (x <= y)%Q -> (JS.trunc x <= JS.trunc y)%Z.
Proof.
  intros Hxy.
  assert (Hz : forall a b : Z, (inject_Z a < inject_Z b + 1)%Q -> (a <= b)%Z).
  { intros a b H. rewrite <- (inject_Z_plus _ 1), <- Zlt_Qlt in H. lia. }
  destruct (Qlt_le_dec x 0) as [Hx|Hx], (Qlt_le_dec y 0) as [Hy|Hy].
  - destruct (trunc_nonpos x) as [_ H1]; [lra|].
    destruct (trunc_nonpos y) as [H2 _]; [lra|]. apply Hz. lra.
  - destruct (trunc_nonpos x) as [_ H1]; [lra|].
    destruct (trunc_nonneg y) as [_ H2]; [lra|].
    transitivity 0%Z.
    + apply Hz. change (inject_Z 0) with 0%Q. lra.
    + apply Hz. change (inject_Z 0) with 0%Q. lra.
  - lra.
  - destruct (trunc_nonneg x) as [H1 _]; [lra|].
    destruct (trunc_nonneg y) as [_ H2]; [lra|]. apply Hz. lra.
Qed.

Lemma scale16_mono (x y : Q) : (x <= y)%Q -> (scale16 x <= scale16 y)%Q.
Proof.
  intros Hxy. unfold scale16.
  destruct (Qlt_le_dec x 0), (Qlt_le_dec y 0); lra.
Qed.

(** X3. The 16-bit value stored for a sample never wraps around: for every
    rational sample it lies in [-32768, 32767], samples of 1 and above are
    stored as 32767 and samples of -1 and below as -32768, a larger sample
    never gets a smaller value, and the two bytes written are proper bytes
    that read back as that value. *)
Theorem quantize_saturates (x y : Q) :
  (-32768 <= quantize x <= 32767)%Z
  /\ ((1 <= x)%Q -> quantize x = 32767%Z)
  /\ ((x <= -1)%Q -> quantize x = (-32768)%Z)
  /\ ((x <= y)%Q -> (quantize x <= quantize y)%Z)
  /\ match sampleBytes x with
     | [lo; hi] =>
         (0 <= lo < 256)%Z /\ (0 <= hi < 256)%Z
         /\ int16_of_bytes lo hi = quantize x
     | _ => False
     end.
Proof.
  split; [apply quantize_range|]. split; [|split; [|split]].
  - intros Hx. unfold quantize.
    rewrite (trunc_comp _ (scale16 1)); [reflexivity|].
    by apply scale16_comp, clamp_high.
  - intros Hx. unfold quantize.
    rewrite (trunc_comp _ (scale16 (-1))); [reflexivity|].
    by apply scale16_comp, clamp_low.
  - intros Hxy. unfold quantize.
    by apply trunc_mono, scale16_mono, clamp_mono.
  - pose proof (int16_of_sampleBytes x (quantize_range x)) as Hint.
    unfold sampleBytes in *. cbv zeta in *.
    split; [|split; [|exact Hint]]; Z.div_mod_to_equations; lia.
Qed.

Lemma frameBytes_lookup channels offset : forall c ch,
  channels !! c = Some ch ->
  exists lo hi,
    sampleBytes (default 0%Q (ch !! offset)) = [lo; hi]
    /\ frameBytes channels offset !! (2 * c) = Some lo
    /\ frameBytes channels offset !! (2 * c + 1) = Some hi.
Proof.
  induction channels as [|ch0 rest IH]; intros c ch Hc; [done|].
  destruct c as [|c].
  - inversion Hc; subst. eexists _, _. split; [reflexivity|]. by split.
  - destruct (IH c ch Hc) as (lo & hi & Hs & Hlo & Hhi).
    exists lo, hi. split; [done|].
    replace (2 * S c) with (S (S (2 * c))) by lia. by split.
Qed.

Lemma frames_lookup channels frames_ : forall k i c ch,
  i < frames_ -> channels !! c = Some ch ->
  exists lo hi,
    sampleBytes (default 0%Q (ch !! (k + i))) = [lo; hi]
    /\ concat (map (frameBytes channels) (seq k frames_))
         !! (2 * (i * length channels + c)) = Some lo
    /\ concat (map (frameBytes channels) (seq k frames_))
         !! (2 * (i * length channels + c) + 1) = Some hi.
Proof.
  induction frames_ as [|m IH]; intros k i c ch Hi Hc; [lia|].
  assert (Hcn : c < length channels) by (by eapply lookup_lt_Some).
  cbn [seq map concat]. destruct i as [|i].
  - destruct (frameBytes_lookup channels k c ch Hc) as (lo & hi & Hs & Hlo & Hhi).
    exists lo, hi. rewrite Nat.add_0_r. split; [done|].
    rewrite !lookup_app_l by (rewrite frameBytes_length; lia).
    cbn [Nat.mul Nat.add]. by split.
  - destruct (IH (S k) i c ch) as (lo & hi & Hs & Hlo & Hhi); [lia|done|].
    exists lo, hi. replace (k + S i) with (S k + i) by lia. split; [done|].
    rewrite !lookup_app_r by (rewrite frameBytes_length; lia).
    rewrite frameBytes_length.
    replace (2 * (S i * length channels + c) - 2 * length channels)
      with (2 * (i * length channels + c)) by lia.
    replace (2 * (S i * length channels + c) + 1 - 2 * length channels)
      with (2 * (i * length channels + c) + 1) by lia.
    by split.
Qed.

(** X4. Samples are stored interleaved, frame by frame: the sample of
    channel [c] at frame [i] is the signed little-endian 16-bit number at byte
    [44 + 2 * (i * channels + c)], and its value is the truncation of the
    clamped, scaled sample. *)
Theorem exportToWav_layout (b : AudioBuffer) (c i : nat) (ch : list Q) (x : Q) :
  channelData b !! c = Some ch ->
  ch !! i = Some x ->
  i < frames b ->
  exists wav,
    exportToWav b = Some wav
    /\ int16At wav (44 + 2 * (i * numberOfChannels b + c)) = Some (quantize x).
Proof.
  intros Hc Hx Hi.
  destruct (exportToWav_data b) as (header & Hheader & ->).
  eexists. split; [reflexivity|].
  destruct (frames_lookup (channelData b) (frames b) 0 i c ch Hi Hc)
    as (lo & hi & Hs & Hlo & Hhi).
  cbn [Nat.add] in Hs. rewrite Hx in Hs.
  change (default 0%Q (Some x)) with x in Hs.
  pose proof (int16_of_sampleBytes x (quantize_range x)) as Hint.
  rewrite Hs in Hint.
  unfold int16At, numberOfChannels.
  rewrite !lookup_app_r by lia. rewrite Hheader.
  replace (44 + 2 * (i * length (channelData b) + c) - 44)
    with (2 * (i * length (channelData b) + c)) by lia.
  replace (44 + 2 * (i * length (channelData b) + c) + 1 - 44)
    with (2 * (i * length (channelData b) + c) + 1) by lia.
  rewrite Hlo, Hhi. cbn. by rewrite Hint.
Qed.

Lemma exportToWav_layout_witness :
  let b := mkAudioBuffer 44100 2 [[1 # 2; 2]; [0; -3]; [1 # 4; -(1 # 4)]]%Q in
  exists wav,
    exportToWav b = Some wav
    /\ int16At wav (44 + 2 * (1 * 3 + 1)) = Some (-32768)%Z.
Proof.
  intros b.
  exact (exportToWav_layout b 1 1 [0; -3]%Q (-3)%Q eq_refl eq_refl
           (Nat.lt_succ_diag_r 1)).
Defined.

(** X5. Re-encoding a decoded sample is not the identity on positive
    values: a 16-bit value [t], decoded to [t / 32768], is encoded again as
    [t] when [t <= 0] and as [t - 1] when [t > 0]. *)
Theorem reencode_drift (t : Z) :
  (-32768 <= t <= 32767)%Z ->
  quantize (inject_Z t / 32768.0) = if (0 <? t)%Z then (t - 1)%Z else t.
Proof.
  intros Ht.
  assert (Hlo : (-32768 <= inject_Z t)%Q)
    by (change (-32768)%Q with (inject_Z (-32768)); rewrite <- Zle_Qle; lia).
  assert (Hhi : (inject_Z t <= 32767)%Q)
    by (change 32767%Q with (inject_Z 32767); rewrite <- Zle_Qle; lia).
  set (y := (inject_Z t / 32768.0)%Q).
  assert (Hy : (y * 32768 == inject_Z t)%Q) by (subst y; field).
  assert (Hy1 : (-1 <= y)%Q) by lra.
  assert (Hy2 : (y <= 1)%Q) by lra.
  unfold quantize.
  rewrite (trunc_comp _ (scale16 y)) by (by apply scale16_comp, clamp_range).
  assert (Hz : forall a b : Z, (inject_Z a < inject_Z b + 1)%Q -> (a <= b)%Z).
  { intros a b H. rewrite <- (inject_Z_plus _ 1), <- Zlt_Qlt in H. lia. }
  unfold scale16. destruct (Qlt_le_dec y 0) as [Hneg|Hpos].
  - assert (Htneg : (inject_Z t < inject_Z 0)%Q)
      by (change (inject_Z 0) with 0%Q; lra).
    rewrite <- Zlt_Qlt in Htneg.
    destruct (0 <? t)%Z eqn:Hsign; [apply Z.ltb_lt in Hsign; lia|].
    rewrite (trunc_comp _ (inject_Z t)) by exact Hy.
    unfold JS.trunc. cbn. apply Z.quot_1_r.
  - assert (Htpos : (inject_Z 0 <= inject_Z t)%Q)
      by (change (inject_Z 0) with 0%Q; lra).
    rewrite <- Zle_Qle in Htpos.
    destruct (trunc_nonneg (y * 32767)) as [Ha Hb]; [lra|].
    set (T := JS.trunc (y * 32767)) in *.
    destruct (0 <? t)%Z eqn:Hsign.
    + apply Z.ltb_lt in Hsign.
      assert (Htq : (1 <= inject_Z t)%Q)
        by (change 1%Q with (inject_Z 1); rewrite <- Zle_Qle; lia).
      assert (H1 : (inject_Z T < inject_Z t)%Q) by lra.
      assert (H2 : (inject_Z t < inject_Z (T + 2))%Q)
        by (rewrite inject_Z_plus; change (inject_Z 2) with 2%Q; lra).
      rewrite <- Zlt_Qlt in H1, H2. lia.
    + apply Z.ltb_ge in Hsign. assert (t = 0%Z) by lia. subst t.
      assert (Hy0 : (y == 0)%Q) by (change (inject_Z 0) with 0%Q in Hy; lra).
      apply Z.le_antisymm; apply Hz; change (inject_Z 0) with 0%Q; lra.
Qed.

Lemma reencode_drift_witness :
  (-32768 <= 12345 <= 32767)%Z
  /\ quantize (inject_Z 12345 / 32768.0) = 12344%Z.
Proof.
  assert (H : (-32768 <= 12345 <= 32767)%Z) by lia.
  split; [exact H|]. exact (reencode_drift 12345 H).
Defined.

(** ** Decoding PCM data on its own *)

Lemma int16Array_lookup : forall k data,
  2 * k + 1 < length data ->
  exists lo hi,
    data !! (2 * k) = Some lo /\ data !! (2 * k + 1) = Some hi
    /\ int16Array data !! k = Some (int16_of_bytes lo hi).
Proof.
  induction k as [|k IH]; intros data Hlen.
  - destruct data as [|lo [|hi data]]; cbn in Hlen; try lia.
    by exists lo, hi.
  - destruct data as [|a [|b data]]; cbn in Hlen; try lia.
    destruct (IH data) as (lo & hi & Hlo & Hhi & Hk); [lia|].
    exists lo, hi. replace (2 * S k) with (S (S (2 * k))) by lia.
    by repeat split.
Qed.

Lemma int16Array_length : forall n data,
  length data < n -> length (int16Array data) = length data / 2.
Proof.
  induction n as [|n IH]; intros data Hn; [lia|].
  destruct data as [|a [|b data]]; try reflexivity.
  cbn [int16Array length]. rewrite IH by (cbn in Hn; lia).
  change (S (S (length data))) with (1 * 2 + length data) at 1.
  replace (1 * 2 + length data) with (length data + 1 * 2) by lia.
  rewrite Nat.div_add by lia. lia.
Qed.

Lemma decode_frames (data : list Z) :
  length (int16Array data) / 2 = length data / 4.
Proof.
  rewrite (int16Array_length (S (length data))) by lia.
  rewrite Nat.Div0.div_div. reflexivity.
Qed.

(** X6. [decodePCMAudioData] on fewer than 4 bytes fails (a buffer of zero
    frames is refused); on 4 bytes or more it gives a 48 kHz buffer of two
    channels with one frame per 4 bytes, rounded down, each channel holding
    exactly that many samples. Up to 3 trailing bytes are ignored. *)
Theorem decodePCMAudioData_shape (data : list Z) :
  (length data < 4 -> decodePCMAudioData data = None)
  /\ (4 <= length data ->
      exists b,
        decodePCMAudioData data = Some b
        /\ sampleRate b = 48000%Q
        /\ numberOfChannels b = 2
        /\ frames b = length data / 4
        /\ wf_buffer b).
Proof.
  unfold decodePCMAudioData. cbv zeta. rewrite decode_frames. split.
  - intros Hshort. rewrite decide_True; [done|].
    apply Nat.div_small. lia.
  - intros Hlong.
    assert (Hpos : length data / 4 ≠ 0).
    { intros H0. apply Nat.div_small_iff in H0; lia. }
    rewrite decide_False by done.
    eexists. split; [reflexivity|]. cbn [sampleRate frames channelData].
    repeat split.
    unfold wf_buffer. cbn [channelData frames seq map].
    repeat constructor; by rewrite length_map, length_seq.
Qed.

Lemma decodePCMAudioData_shape_witness :
  decodePCMAudioData [1; 2; 3]%Z = None
  /\ exists b,
       decodePCMAudioData [0; 64; 0; 192; 7]%Z = Some b
       /\ sampleRate b = 48000%Q
       /\ numberOfChannels b = 2
       /\ frames b = 1
       /\ wf_buffer b.
Proof.
  split.
  - apply (proj1 (decodePCMAudioData_shape [1; 2; 3]%Z)). cbn. lia.
  - apply (proj2 (decodePCMAudioData_shape [0; 64; 0; 192; 7]%Z)). cbn. lia.
Defined.

(** X7. De-interleaving: sample [i] of channel [c] of the decoded buffer is
    the signed 16-bit little-endian number at bytes [4i + 2c] and
    [4i + 2c + 1], divided by 32768; for proper bytes it lies in [-1, 1). *)
Theorem decodePCMAudioData_samples (data : list Z) (b : AudioBuffer) (c i : nat) :
  decodePCMAudioData data = Some b ->
  c < 2 -> i < frames b ->
  exists lo hi y,
    data !! (4 * i + 2 * c) = Some lo
    /\ data !! (4 * i + 2 * c + 1) = Some hi
    /\ channelData b !! c ≫= (.!! i) = Some y
    /\ y = (inject_Z (int16_of_bytes lo hi) / 32768.0)%Q
    /\ ((0 <= lo < 256)%Z -> (0 <= hi < 256)%Z -> (-1 <= y)%Q /\ (y < 1)%Q).
Proof.
  unfold decodePCMAudioData. cbv zeta. rewrite decode_frames.
  case_decide as Hzero; [done|]. intros [= <-] Hc Hi.
  change (i < length data / 4) in Hi.
  change (channelData (mkAudioBuffer ?r ?f ?d)) with d.
  assert (Hlen : 4 * i + 3 < length data).
  { pose proof (Nat.Div0.mul_div_le (length data) 4). lia. }
  destruct (int16Array_lookup (i * 2 + c) data) as (lo & hi & Hlo & Hhi & Hk);
    [lia|].
  replace (2 * (i * 2 + c)) with (4 * i + 2 * c) in Hlo, Hhi by lia.
  exists lo, hi. eexists. split; [exact Hlo|]. split; [exact Hhi|].
  split; [|split; [reflexivity|]].
  - cbn [seq map].
    destruct c as [|[|c]]; [| |lia]; cbn [lookup list_lookup mbind option_bind];
      rewrite list_lookup_fmap, lookup_seq_lt by done;
      cbn [fmap option_fmap option_map Nat.add]; rewrite ?Nat.add_0_r in Hk |- *;
      by rewrite Hk.
  - intros Hlob Hhib.
    assert (Hrange : (-32768 <= int16_of_bytes lo hi <= 32767)%Z).
    { unfold int16_of_bytes. cbv zeta.
      destruct (_ <? 32768)%Z eqn:Hlt;
        [apply Z.ltb_lt in Hlt|apply Z.ltb_ge in Hlt]; lia. }
    set (t := int16_of_bytes lo hi) in *.
    assert (H1 : (inject_Z (-32768) <= inject_Z t)%Q) by (rewrite <- Zle_Qle; lia).
    assert (H2 : (inject_Z t < inject_Z 32768)%Q) by (rewrite <- Zlt_Qlt; lia).
    change (inject_Z (-32768)) with (-32768)%Q in H1.
    change (inject_Z 32768) with 32768%Q in H2.
    unfold Qdiv. cbn [Qinv Qnum Qden]. split; lra.
Qed.

Lemma decodePCMAudioData_samples_witness :
  exists b lo hi y,
    decodePCMAudioData [0; 64; 0; 192; 255; 127; 0; 128]%Z = Some b
    /\ [0; 64; 0; 192; 255; 127; 0; 128]%Z !! (4 * 1 + 2 * 1) = Some lo
    /\ [0; 64; 0; 192; 255; 127; 0; 128]%Z !! (4 * 1 + 2 * 1 + 1) = Some hi
    /\ channelData b !! 1 ≫= (.!! 1) = Some y
    /\ y = (inject_Z (int16_of_bytes lo hi) / 32768.0)%Q.
Proof.
  eexists.
  destruct (decodePCMAudioData_samples [0; 64; 0; 192; 255; 127; 0; 128]%Z
              _ 1 1 eq_refl (Nat.lt_succ_diag_r 1) (Nat.lt_succ_diag_r 1))
    as (lo & hi & y & Hlo & Hhi & Hy & Heq & _).
  exists lo, hi, y. auto.
Defined.

Example load_example :
  handleLoadToSequencer
    (Some (mkAudioBuffer 4 6 [[1; 2; 3; 4; 5; 6]; [-1; -2; -3; -4; -5; -6]]%Q))
    (Some (0.25, 1.0)%Q) true
  = Loaded (mkAudioBuffer 4 3 [[2; 3; 4]; [-2; -3; -4]]%Q)
           (mkAudioBuffer 4 3 [[4; 3; 2]; [-4; -3; -2]]%Q).
Proof. vm_compute. reflexivity. Qed.

(** ** Loading a selection *)

Lemma mapM_total {A B} (f : A -> option B) (g : A -> B) (l : list A) :
  (forall x, x ∈ l -> f x = Some (g x)) -> mapM f l = Some (map g l).
Proof.
  induction l as [|x l IH]; intros Hf; [done|].
  cbn. rewrite Hf by constructor. cbn.
  rewrite IH by (intros y Hy; apply Hf; by constructor). done.
Qed.

Lemma slice_length {A} (l : list A) (s e : Z) :
  (0 < e - s)%Z -> length (TypedArray.slice l s e) <= Z.to_nat (e - s).
Proof.
  intros Hpos. unfold TypedArray.slice. cbv zeta.
  rewrite length_take, length_drop.
  destruct (s <? 0)%Z eqn:Hs, (e <? 0)%Z eqn:He;
    rewrite ?Z.ltb_lt, ?Z.ltb_ge in Hs, He; lia.
Qed.

Lemma slice_inside {A} (l : list A) (s e : Z) :
  (0 <= s)%Z -> (s <= e)%Z -> (e <= Z.of_nat (length l))%Z ->
  TypedArray.slice l s e = take (Z.to_nat (e - s)) (drop (Z.to_nat s) l)
  /\ length (TypedArray.slice l s e) = Z.to_nat (e - s).
Proof.
  intros H0 Hse Hel. unfold TypedArray.slice. cbv zeta.
  rewrite (proj2 (Z.ltb_ge s 0)), (proj2 (Z.ltb_ge e 0)) by lia.
  rewrite !Z.min_l by lia. split; [done|].
  rewrite length_take, length_drop. lia.
Qed.

(** The channel data [set] leaves in a zero-filled array of [n] samples. *)
Lemma set_zeros (n : nat) (source : list Q) :
  length source <= n ->
  TypedArray.set (replicate n 0%Q) source
  = Some (source ++ replicate (n - length source) 0%Q).
Proof.
  intros Hlen. unfold TypedArray.set.
  rewrite decide_True by (rewrite length_replicate; lia).
  by rewrite drop_replicate.
Qed.

Lemma loadChannel_total (n : nat) (s e : Z) (ch : list Q) :
  (0 < e - s)%Z -> n = Z.to_nat (e - s) ->
  loadChannel n s e ch
  = Some (TypedArray.slice ch s e
            ++ replicate (n - length (TypedArray.slice ch s e)) 0%Q,
          rev (TypedArray.slice ch s e)
            ++ replicate (n - length (TypedArray.slice ch s e)) 0%Q).
Proof.
  intros Hpos ->. unfold loadChannel. cbv zeta.
  pose proof (slice_length ch s e Hpos) as Hlen.
  rewrite (set_zeros _ _ Hlen). cbn [mbind option_bind].
  rewrite <- (length_rev (TypedArray.slice ch s e)) in Hlen.
  rewrite (set_zeros _ _ Hlen). cbn [mbind option_bind].
  by rewrite length_rev.
Qed.

(** X8. Loading a selection from a buffer that has channels never raises,
    and whenever it loads, the new buffer and its reversed copy have the same
    positive number of frames, the channel count and sample rate of the
    generated buffer, and channels that each hold exactly that many samples,
    whatever the selection. *)
Theorem handleLoadToSequencer_pair (generated : AudioBuffer)
    (selection : option (Q * Q)) (audioContext : bool) :
  numberOfChannels generated ≠ 0 ->
  handleLoadToSequencer (Some generated) selection audioContext ≠ LoadRaised
  /\ forall newBuffer reversedBuffer,
       handleLoadToSequencer (Some generated) selection audioContext
       = Loaded newBuffer reversedBuffer ->
       0 < frames newBuffer
       /\ frames reversedBuffer = frames newBuffer
       /\ numberOfChannels newBuffer = numberOfChannels generated
       /\ numberOfChannels reversedBuffer = numberOfChannels generated
       /\ sampleRate newBuffer = sampleRate generated
       /\ sampleRate reversedBuffer = sampleRate generated
       /\ wf_buffer newBuffer
       /\ wf_buffer reversedBuffer.
Proof.
  intros Hchan. unfold handleLoadToSequencer.
  destruct selection as [[start end_]|]; [|by split].
  destruct audioContext; [|by split]. cbv zeta.
  set (s := JS.floor (start * sampleRate generated)).
  set (e := JS.floor (end_ * sampleRate generated)).
  case_decide as Hcount; [by split|].
  rewrite decide_False by done.
  erewrite mapM_total
    by (intros ch _; apply loadChannel_total; [lia|reflexivity]).
  split; [done|].
  intros newBuffer reversedBuffer [= <- <-]. cbn [frames sampleRate].
  unfold numberOfChannels, wf_buffer. cbn [channelData frames].
  rewrite !length_fmap.
  repeat split; try lia.
  - apply Forall_fmap, Forall_fmap, Forall_forall. intros ch _.
    cbn [fst snd compose].
    pose proof (slice_length ch s e ltac:(lia)).
    rewrite length_app, length_replicate. lia.
  - apply Forall_fmap, Forall_fmap, Forall_forall. intros ch _.
    cbn [fst snd compose].
    pose proof (slice_length ch s e ltac:(lia)).
    rewrite length_app, length_replicate, length_rev. lia.
Qed.

Lemma handleLoadToSequencer_pair_witness :
  let generated := mkAudioBuffer 4 6 [[1; 2; 3; 4; 5; 6]]%Q in
  handleLoadToSequencer (Some generated) (Some (1, 9)%Q) true ≠ LoadRaised
  /\ forall newBuffer reversedBuffer,
       handleLoadToSequencer (Some generated) (Some (1, 9)%Q) true
       = Loaded newBuffer reversedBuffer ->
       frames reversedBuffer = frames newBuffer /\ wf_buffer reversedBuffer.
Proof.
  intros generated.
  assert (Hchan : numberOfChannels generated ≠ 0) by discriminate.
  destruct (handleLoadToSequencer_pair generated (Some (1, 9)%Q) true Hchan)
    as [Hraise Hpair].
  split; [exact Hraise|]. intros newBuffer reversedBuffer Hload.
  destruct (Hpair _ _ Hload) as (_ & Hframes & _ & _ & _ & _ & _ & Hwf).
  by split.
Defined.

Lemma load_inside (generated : AudioBuffer)
    (start end_ : Q) :
  wf_buffer generated ->
  numberOfChannels generated ≠ 0 ->
  (0 < sampleRate generated)%Q ->
  (0 <= start)%Q ->
  (end_ <= duration generated)%Q ->
  (JS.floor (start * sampleRate generated)
   < JS.floor (end_ * sampleRate generated))%Z ->
  let startFrame := Z.to_nat (JS.floor (start * sampleRate generated)) in
  let frameCount :=
    Z.to_nat (JS.floor (end_ * sampleRate generated)
              - JS.floor (start * sampleRate generated)) in
  exists newBuffer reversedBuffer,
    handleLoadToSequencer (Some generated) (Some (start, end_)) true
    = Loaded newBuffer reversedBuffer
    /\ frames newBuffer = frameCount
    /\ channelData newBuffer
       = map (fun ch => take frameCount (drop startFrame ch))
           (channelData generated)
    /\ channelData reversedBuffer = map (@rev Q) (channelData newBuffer)
    /\ map (@rev Q) (channelData reversedBuffer) = channelData newBuffer.
Proof.
  intros Hwf Hchan Hrate Hstart Hend Hcount startFrame frameCount.
  unfold JS.floor in *.
  set (s := Qfloor (start * sampleRate generated)) in *.
  set (e := Qfloor (end_ * sampleRate generated)) in *.
  assert (Hs : (0 <= s)%Z).
  { subst s. change 0%Z with (Qfloor 0). apply Qfloor_resp_le.
    apply Qmult_le_0_compat; lra. }
  assert (He : (e <= Z.of_nat (frames generated))%Z).
  { subst e. rewrite <- (Qfloor_Z (Z.of_nat (frames generated))).
    apply Qfloor_resp_le.
    assert (Hd : (duration generated * sampleRate generated
                  == inject_Z (Z.of_nat (frames generated)))%Q)
      by (unfold duration; field; lra).
    rewrite <- Hd. apply Qmult_le_compat_r; lra. }
  unfold handleLoadToSequencer. cbv zeta. unfold JS.floor. fold s e.
  rewrite decide_False by lia. rewrite decide_False by done.
  rewrite (mapM_total _
             (fun ch => (take frameCount (drop startFrame ch),
                         rev (take frameCount (drop startFrame ch))))).
  2:{ intros ch Hch. rewrite loadChannel_total by (lia || reflexivity).
      unfold wf_buffer in Hwf. rewrite Forall_forall in Hwf.
      destruct (slice_inside ch s e) as [Hslice Hlen];
        [lia|lia|rewrite (Hwf ch Hch); lia|].
      rewrite Hlen, Nat.sub_diag, !app_nil_r, Hslice. reflexivity. }
  eexists _, _. split; [reflexivity|]. cbn [frames channelData].
  split; [reflexivity|].
  rewrite <- !list_fmap_compose.
  split; [reflexivity|]. split; [reflexivity|].
  apply list_fmap_ext. intros i ch _. cbn. apply rev_involutive.
Qed.



(** X10. An empty or backwards selection, such as the [(0, 0)] the selector
    reports for a tiny drag, loads nothing: the sequencer's buffers are left
    as they were. *)
Theorem handleLoadToSequencer_empty_selection (generated : AudioBuffer)
    (start end_ : Q) (audioContext : bool) :
  (0 <= sampleRate generated)%Q ->
  (end_ <= start)%Q ->
  handleLoadToSequencer (Some generated) (Some (start, end_)) audioContext
  = NotLoaded.
Proof.
  intros Hrate Hle. unfold handleLoadToSequencer.
  destruct audioContext; [|done]. cbv zeta.
  rewrite decide_True; [done|].
  assert (JS.floor (end_ * sampleRate generated)
          <= JS.floor (start * sampleRate generated))%Z; [|lia].
  by apply Qfloor_resp_le, Qmult_le_compat_r.
Qed.

Lemma handleLoadToSequencer_empty_selection_witness :
  handleLoadToSequencer (Some (mkAudioBuffer 48000 2 [[0; 1]; [1; 0]]%Q))
    (Some (0, 0)%Q) true
  = NotLoaded.
Proof.
  apply handleLoadToSequencer_empty_selection; discriminate.
Defined.

(** ** The drag gesture *)

Lemma Qmin_Qmax_le (a b : Q) : (Qmin a b <= Qmax a b)%Q.
Proof.
  eapply Qle_trans; [apply Q.le_min_l|apply Q.le_max_l].
Qed.

Lemma Qmax_Qmin_abs (a b : Q) : (Qmax a b - Qmin a b == Qabs (b - a))%Q.
Proof.
  destruct (Qlt_le_dec a b) as [Hlt|Hle].
  - rewrite (Q.max_r a b), (Q.min_l a b) by lra.
    rewrite Qabs_pos by lra. reflexivity.
  - rewrite (Q.max_l a b), (Q.min_r a b) by lra.
    rewrite Qabs_neg by lra. ring.
Qed.

Lemma last_cons {A} (l : list A) : forall x a,
  List.last (x :: l) a = List.last l x.
Proof.
  induction l as [|y l IH]; intros x a; [done|].
  change (List.last (x :: y :: l) a) with (List.last (y :: l) a).
  rewrite (IH y a), (IH y x). reflexivity.
Qed.

(** The selector after a press at [x0] and moves through [moves]. *)
Lemma drag_state (buffer : AudioBuffer) (s0 : Selector) (x0 : Q)
    (moves : list Q) :
  fold_left (fun s x => handleMouseMove (Some buffer) x s) moves
    (handleMouseDown (Some buffer) x0 s0)
  = mkSelector true (Some (x0, List.last moves x0)) x0.
Proof.
  cbn [handleMouseDown].
  assert (H : forall x1,
             fold_left (fun s x => handleMouseMove (Some buffer) x s) moves
               (mkSelector true (Some (x0, x1)) x0)
             = mkSelector true (Some (x0, List.last moves x1)) x0).
  { induction moves as [|x moves IH]; intros x1; [done|].
    rewrite last_cons. cbn [fold_left]. unfold handleMouseMove at 2. cbn.
    by rewrite IH. }
  apply H.
Qed.

Lemma drag_report (buffer : AudioBuffer) (canvasWidth x0 x1 : Q) (x : Q) :
  handleMouseUp (Some buffer) (Some canvasWidth)
    (mkSelector true (Some (x0, x1)) x)
  = if Qlt_le_dec (Qmax x0 x1 - Qmin x0 x1) 2
    then (mkSelector false None x, Some (0%Q, 0%Q))
    else (mkSelector false (Some (x0, x1)) x,
          Some ((Qmin x0 x1 / canvasWidth * duration buffer)%Q,
                (Qmax x0 x1 / canvasWidth * duration buffer)%Q)).
Proof. reflexivity. Qed.

(** X11. A drag on the waveform (press at [x0], any moves, release) depends
    only on [x0] and the last position [x1]: dragging always ends; when the
    two are less than 2 pixels apart, [(0, 0)] is reported and the pixel
    selection is cleared; otherwise the reported interval starts at
    [min x0 x1 / width * duration], is [|x1 - x0| / width * duration] long and
    is ordered, and it lies within the buffer when both positions lie on the
    canvas. *)
Theorem drag_gesture (buffer : AudioBuffer) (canvasWidth : Q)
    (s0 : Selector) (x0 : Q) (moves : list Q) :
  (0 < canvasWidth)%Q ->
  (0 <= duration buffer)%Q ->
  let x1 := List.last moves x0 in
  let pressed := handleMouseDown (Some buffer) x0 s0 in
  let dragged :=
    fold_left (fun s x => handleMouseMove (Some buffer) x s) moves pressed in
  let released := handleMouseUp (Some buffer) (Some canvasWidth) dragged in
  isDragging released.1 = false
  /\ ((Qabs (x1 - x0) < 2)%Q ->
      released.2 = Some (0%Q, 0%Q) /\ pixelSelection released.1 = None)
  /\ ((2 <= Qabs (x1 - x0))%Q ->
      exists startTime endTime,
        released.2 = Some (startTime, endTime)
        /\ (startTime == Qmin x0 x1 / canvasWidth * duration buffer)%Q
        /\ (endTime - startTime
            == Qabs (x1 - x0) / canvasWidth * duration buffer)%Q
        /\ (startTime <= endTime)%Q
        /\ ((0 <= Qmin x0 x1)%Q -> (Qmax x0 x1 <= canvasWidth)%Q ->
            (0 <= startTime)%Q /\ (endTime <= duration buffer)%Q)).
Proof.
  intros Hw Hd x1 pressed dragged released.
  subst released dragged pressed. rewrite drag_state. fold x1.
  rewrite drag_report.
  pose proof (Qmax_Qmin_abs x0 x1) as Habs.
  assert (Hwinv : (0 < / canvasWidth)%Q) by (by apply Qinv_lt_0_compat).
  destruct (Qlt_le_dec (Qmax x0 x1 - Qmin x0 x1) 2) as [Htiny|Hwide];
    cbn [fst snd isDragging pixelSelection].
  - split; [done|]. split; [done|]. intros Hbig. lra.
  - split; [done|]. split; [intros Hsmall; lra|]. intros _.
    eexists _, _. split; [reflexivity|]. split; [reflexivity|].
    assert (Hmm : (Qmin x0 x1 <= Qmax x0 x1)%Q) by apply Qmin_Qmax_le.
    assert (Hscale : (0 <= / canvasWidth * duration buffer)%Q)
      by (apply Qmult_le_0_compat; lra).
    set (k := (/ canvasWidth * duration buffer)%Q) in *.
    assert (Hst : (Qmin x0 x1 / canvasWidth * duration buffer
                   == Qmin x0 x1 * k)%Q) by (subst k; unfold Qdiv; ring).
    assert (Het : (Qmax x0 x1 / canvasWidth * duration buffer
                   == Qmax x0 x1 * k)%Q) by (subst k; unfold Qdiv; ring).
    assert (Hab : (Qabs (x1 - x0) / canvasWidth * duration buffer
                   == Qabs (x1 - x0) * k)%Q) by (subst k; unfold Qdiv; ring).
    rewrite Hst, Het, Hab.
    split; [rewrite <- Habs; ring|]. split; [nra|].
    intros Hlo Hhi. split; [nra|].
    assert (Hk : (canvasWidth * k == duration buffer)%Q)
      by (subst k; field; lra).
    rewrite <- Hk. nra.
Qed.

Lemma drag_gesture_witness :
  let buffer := mkAudioBuffer 1000 2000 [[]; []] in
  let released :=
    handleMouseUp (Some buffer) (Some 1000%Q)
      (fold_left (fun s x => handleMouseMove (Some buffer) x s)
         [120; 300; 250]%Q
         (handleMouseDown (Some buffer) 100%Q (mkSelector false None 0))) in
  isDragging released.1 = false
  /\ exists startTime endTime,
       released.2 = Some (startTime, endTime)
       /\ (startTime == 0.2)%Q /\ (endTime - startTime == 0.3)%Q.
Proof.
  intros buffer released.
  assert (Hw : (0 < 1000)%Q) by reflexivity.
  assert (Hd : (0 <= duration buffer)%Q) by discriminate.
  destruct (drag_gesture buffer 1000 (mkSelector false None 0) 100
              [120; 300; 250]%Q Hw Hd) as (Hdrag & _ & Hwide).
  split; [exact Hdrag|].
  destruct Hwide as (startTime & endTime & Hr & Hs & He & _); [discriminate|].
  exists startTime, endTime. split; [exact Hr|].
  split; [rewrite Hs; reflexivity | rewrite He; reflexivity].
Defined.

Lemma Qfloor_step (a b : Q) : (a + 1 <= b)%Q -> (Qfloor a < Qfloor b)%Z.
Proof.
  intros Hab. pose proof (Qfloor_le a) as Ha. pose proof (Qlt_floor b) as Hb.
  assert (H : (inject_Z (Qfloor a) + 1 < inject_Z (Qfloor b + 1))%Q) by lra.
  rewrite <- (inject_Z_plus _ 1), <- Zlt_Qlt in H. lia.
Qed.

Lemma zero_selection_loads_nothing (generated : AudioBuffer) :
  handleLoadToSequencer (Some generated) (Some (0%Q, 0%Q)) true = NotLoaded.
Proof.
  unfold handleLoadToSequencer. cbv zeta. rewrite decide_True; [done|]. lia.
Qed.

(** X12. Selecting and loading compose: on a buffer with at least one frame
    for each pixel of the canvas, releasing a drag of 2 pixels or more made on
    the canvas and then loading gives a sample of at least one frame together
    with its exact reverse, while loading after a shorter drag loads
    nothing. A drag of 2 pixels then spans at least 2 frames, which leaves a
    whole frame for the rounding of the two selection times. *)
Theorem drag_then_load (buffer : AudioBuffer) (canvasWidth x0 : Q)
    (moves : list Q) (s0 : Selector) :
  wf_buffer buffer ->
  numberOfChannels buffer ≠ 0 ->
  (0 < sampleRate buffer)%Q ->
  (0 < canvasWidth)%Q ->
  (canvasWidth <= inject_Z (Z.of_nat (frames buffer)))%Q ->
  let x1 := List.last moves x0 in
  (0 <= Qmin x0 x1)%Q ->
  (Qmax x0 x1 <= canvasWidth)%Q ->
  let released :=
    handleMouseUp (Some buffer) (Some canvasWidth)
      (fold_left (fun s x => handleMouseMove (Some buffer) x s) moves
         (handleMouseDown (Some buffer) x0 s0)) in
  ((Qabs (x1 - x0) < 2)%Q ->
   handleLoadToSequencer (Some buffer) released.2 true = NotLoaded)
  /\ ((2 <= Qabs (x1 - x0))%Q ->
      exists newBuffer reversedBuffer,
        handleLoadToSequencer (Some buffer) released.2 true
        = Loaded newBuffer reversedBuffer
        /\ 0 < frames newBuffer
        /\ channelData reversedBuffer = map (@rev Q) (channelData newBuffer)).
Proof.
  intros Hwf Hchan Hrate Hw Hpixel x1 Hlo Hhi released.
  assert (Hframes : (canvasWidth
                     <= 2 * inject_Z (Z.of_nat (frames buffer)))%Q) by lra.
  subst released. rewrite drag_state. fold x1. rewrite drag_report.
  pose proof (Qmax_Qmin_abs x0 x1) as Habs.
  destruct (Qlt_le_dec (Qmax x0 x1 - Qmin x0 x1) 2) as [Htiny|Hwide];
    cbn [snd].
  - split; [|intros Hbig; lra]. intros _.
    apply zero_selection_loads_nothing.
  - split; [intros Hsmall; lra|]. intros _.
    assert (Hwinv : (0 < / canvasWidth)%Q) by (by apply Qinv_lt_0_compat).
    assert (Hn : (0 < inject_Z (Z.of_nat (frames buffer)))%Q) by lra.
    assert (Hdur : (duration buffer * sampleRate buffer
                    == inject_Z (Z.of_nat (frames buffer)))%Q)
      by (unfold duration; field; lra).
    assert (Hd : (0 <= duration buffer)%Q).
    { unfold duration. apply Qle_shift_div_l; lra. }
    set (d := duration buffer) in *.
    set (n := inject_Z (Z.of_nat (frames buffer))) in *.
    set (lo := Qmin x0 x1) in *. set (hi := Qmax x0 x1) in *.
    assert (Hk : (0 <= / canvasWidth * d)%Q) by (apply Qmult_le_0_compat; lra).
    assert (Hwk : (canvasWidth * (/ canvasWidth * d) == d)%Q) by (field; lra).
    assert (Hst : (lo / canvasWidth * d == lo * (/ canvasWidth * d))%Q)
      by (unfold Qdiv; ring).
    assert (Het : (hi / canvasWidth * d == hi * (/ canvasWidth * d))%Q)
      by (unfold Qdiv; ring).
    assert (Hlt : (JS.floor (lo / canvasWidth * d * sampleRate buffer)
                   < JS.floor (hi / canvasWidth * d * sampleRate buffer))%Z).
    { apply Qfloor_step.
      assert (Hgap : (hi / canvasWidth * d * sampleRate buffer
                      - lo / canvasWidth * d * sampleRate buffer
                      == (hi - lo) * (/ canvasWidth * n))%Q).
      { rewrite Hst, Het, <- Hdur. ring. }
      assert (Hone : (1 <= 2 * (/ canvasWidth * n))%Q).
      { assert (H1 : (canvasWidth * / canvasWidth == 1)%Q) by (field; lra).
        assert (H2 : (canvasWidth * / canvasWidth
                      <= 2 * n * / canvasWidth)%Q)
          by (apply Qmult_le_compat_r; lra).
        lra. }
      assert (Hkn : (0 <= / canvasWidth * n)%Q)
        by (apply Qmult_le_0_compat; lra).
      assert (Hmul : (2 * (/ canvasWidth * n)
                      <= (hi - lo) * (/ canvasWidth * n))%Q)
        by (apply Qmult_le_compat_r; lra).
      lra. }
    destruct (load_inside buffer (lo / canvasWidth * d) (hi / canvasWidth * d))
      as (newBuffer & reversedBuffer & Hload & Hcount & _ & Hrev & _);
      try done.
    + rewrite Hst. apply Qmult_le_0_compat; lra.
    + fold d. rewrite Het.
      apply Qle_trans with (canvasWidth * (/ canvasWidth * d))%Q;
        [apply Qmult_le_compat_r; lra|].
      rewrite Hwk. apply Qle_refl.
    + exists newBuffer, reversedBuffer. split; [exact Hload|].
      split; [|exact Hrev]. rewrite Hcount. lia.
Qed.

Lemma drag_then_load_witness :
  let buffer :=
    mkAudioBuffer 1 8 [[1; 2; 3; 4; 5; 6; 7; 8]; [8; 7; 6; 5; 4; 3; 2; 1]]%Q in
  let released :=
    handleMouseUp (Some buffer) (Some 8%Q)
      (fold_left (fun s x => handleMouseMove (Some buffer) x s) [3; 6]%Q
         (handleMouseDown (Some buffer) 2%Q (mkSelector false None 0))) in
  exists newBuffer reversedBuffer,
    handleLoadToSequencer (Some buffer) released.2 true
    = Loaded newBuffer reversedBuffer
    /\ 0 < frames newBuffer
    /\ channelData reversedBuffer = map (@rev Q) (channelData newBuffer).
Proof.
  intros buffer released.
  assert (Hwf : wf_buffer buffer) by (repeat constructor).
  refine (proj2 (drag_then_load buffer 8 2 [3; 6]%Q (mkSelector false None 0)
                   Hwf _ _ _ _ _ _) _);
    try reflexivity; discriminate.
Defined.

(** ** The tempo grid *)

Lemma schedulerStep_fired_exact sq st :
  stepRaises sq st = false ->
  fired (schedulerStep sq st)
  = fired st
    ++ (if JS.truthy (mjoin (pattern sq !! stepRef st))
           && bool_decide (is_Some (sampleBuffer sq))
        then [(stepRef st, nextStepTime st)] else []).
Proof.
  intros Hno. unfold schedulerStep. rewrite Hno. unfold stepRaises in Hno.
  destruct (mjoin (pattern sq !! stepRef st)) as [name|] eqn:Hslot;
    [|by rewrite app_nil_r].
  destruct (sampleBuffer sq) as [buf|];
    [|by rewrite andb_false_r, app_nil_r].
  destruct (JS.truthy (Some name)); [|by rewrite app_nil_r].
  destruct (triggerStep sq name buf (nextStepTime st) (nodeCount st))
    as [[[[]|] n] acts]; [reflexivity|done].
Qed.

Lemma schedulerStep_stepRef sq st :
  stepRaises sq st = false ->
  stepRef (schedulerStep sq st) = (stepRef st + 1) mod 16.
Proof. intros Hno. iteration sq st; done. Qed.

Lemma schedulerStep_onGrid sq start k st :
  stepRaises sq st = false ->
  onGrid sq start k st -> onGrid sq start (S k) (schedulerStep sq st).
Proof.
  intros Hno (Hnext & Hstep & Hfired). split; [|split].
  - rewrite schedulerStep_next, Hnext, Nat2Z.inj_succ, <- Z.add_1_r,
      inject_Z_plus by done. change (inject_Z 1) with 1%Q. ring.
  - rewrite schedulerStep_stepRef, Hstep by done.
    replace (S k) with (k + 1) by lia.
    rewrite (Nat.Div0.add_mod k 1 16). reflexivity.
  - rewrite schedulerStep_fired_exact by done. unfold dueSteps.
    rewrite seq_S, filter_app. apply Forall2_app; [exact Hfired|].
    cbn [filter list_filter Nat.add]. case_decide as Hf.
    + unfold firesAt in Hf. rewrite <- Hstep in Hf. rewrite Hf.
      repeat constructor; [exact Hstep|exact Hnext].
    + apply not_true_is_false in Hf. unfold firesAt in Hf.
      rewrite <- Hstep in Hf. rewrite Hf. constructor.
Qed.

Lemma schedulerLoop_onGrid sq now start fuel : forall k st st',
  onGrid sq start k st ->
  schedulerLoop fuel sq now st = Some st' ->
  exists k', k <= k' /\ onGrid sq start k' st'.
Proof.
  induction fuel as [|fuel IH]; intros k st st' Hgrid Hrun; cbn in Hrun;
    destruct (Qlt_le_dec _ _); try discriminate.
  - inversion Hrun; subst. eauto.
  - destruct (stepRaises sq st) eqn:Hno; [discriminate|].
    destruct (IH (S k) _ _ (schedulerStep_onGrid _ _ _ _ Hno Hgrid) Hrun)
      as (k' & Hk & Hg). exists k'. split; [lia|done].
  - inversion Hrun; subst. eauto.
Qed.

Lemma scheduler_onGrid sq now start fuel k st st' :
  onGrid sq start k st ->
  scheduler fuel sq now st = Some st' ->
  exists k', k <= k' /\ onGrid sq start k' st'.
Proof.
  intros Hgrid. unfold scheduler.
  destruct (negb (audioContext sq) || negb (limiter sq)); [intros [= <-]; eauto|].
  destruct (schedulerLoop fuel sq now st) as [st1|] eqn:Hloop; [|done].
  intros [= <-].
  destruct (schedulerLoop_onGrid _ _ _ _ _ _ _ Hgrid Hloop) as (k' & Hk & Hg).
  exists k'. split; [done|]. exact Hg.
Qed.

Lemma ticks_onGrid sq start fuel clock : forall k st st',
  onGrid sq start k st ->
  ticks fuel sq clock st = Some st' ->
  exists k', k <= k' /\ onGrid sq start k' st'.
Proof.
  induction clock as [|now later IH]; intros k st st' Hgrid.
  - intros [= <-]. eauto.
  - cbn. destruct (scheduler fuel sq now st) as [st1|] eqn:Hs; [|done]. cbn.
    intros Hrest.
    destruct (scheduler_onGrid _ _ _ _ _ _ _ Hgrid Hs) as (k1 & Hk1 & Hg1).
    destruct (IH _ _ _ Hg1 Hrest) as (k2 & Hk2 & Hg2).
    exists k2. split; [lia|done].
Qed.

(** X13. A playback run keeps to the tempo grid: after any completed run the
    scheduler loop has made some number [k] of iterations, the next step is
    due at [start + k * (60/bpm/4)] and is step [k mod 16], and the steps
    fired are, in order, exactly the iterations [j < k] whose slot
    [j mod 16] is non-empty (with a sample loaded), iteration [j] firing
    step [j mod 16] at [start + j * (60/bpm/4)]: no step is skipped,
    repeated or moved off the grid. [start] is the clock at the start, or 0
    without an audio context. *)
Theorem playback_on_grid (sq : Sequencer) (now : Q) (clock : list Q)
    (fuel : nat) (st : Playback) :
  playbackRun fuel sq now clock = Some st ->
  let start := if audioContext sq then now else 0%Q in
  exists k,
    (nextStepTime st
     == start + inject_Z (Z.of_nat k) * secondsPerStep (bpm sq))%Q
    /\ stepRef st = k mod 16
    /\ Forall2 (firedAt sq start) (fired st) (dueSteps sq k).
Proof.
  intros Hrun start. unfold playbackRun, startPlayback in Hrun.
  fold start in Hrun.
  set (st0 := mkPlayback start 0 (-1) false 0 [] []) in *.
  assert (H0 : onGrid sq start 0 st0).
  { split; [|split]; cbn; [ring|reflexivity|constructor]. }
  destruct (scheduler fuel sq now st0) as [st1|] eqn:Hs; [|done].
  cbn in Hrun.
  destruct (scheduler_onGrid _ _ _ _ _ _ _ H0 Hs) as (k1 & _ & Hg1).
  destruct (ticks_onGrid _ _ _ _ _ _ _ Hg1 Hrun) as (k2 & _ & Hg2).
  exists k2. exact Hg2.
Qed.

Lemma playback_on_grid_witness :
  let buf := mkAudioBuffer 48000 2 [[0; 1]; [0; 1]]%Q in
  let sq := mkSequencer 240 (Some buf) (Some buf) true true
              (<[0 := Some "normal"]> (<[2 := Some "delay"]> emptyPattern))
              None true in
  exists st k,
    playbackRun 20 sq 0 [0.025; 0.05; 0.075]%Q = Some st
    /\ stepRef st = k mod 16
    /\ Forall2 (firedAt sq 0) (fired st) (dueSteps sq k).
Proof.
  intros buf sq.
  assert (Hrun : exists st, playbackRun 20 sq 0 [0.025; 0.05; 0.075]%Q = Some st)
    by (eexists; vm_compute; reflexivity).
  destruct Hrun as [st Hrun].
  destruct (playback_on_grid sq 0 [0.025; 0.05; 0.075]%Q 20 st Hrun)
    as (k & _ & Hstep & Hfired).
  exists st, k. auto.
Defined.

(** ** The lookahead window *)

Lemma inWindow_later sq start t t' st :
  (t <= t')%Q -> inWindow sq start t st -> inWindow sq start t' st.
Proof.
  intros Ht (Hup & Hlo & Hf). split; [lra|]. split; [done|].
  eapply Forall_impl; [exact Hf|]. cbn. intros entry. lra.
Qed.

Lemma schedulerStep_inWindow sq start t st :
  (0 < bpm sq)%Q -> stepRaises sq st = false ->
  (nextStepTime st < t + 0.1)%Q ->
  inWindow sq start t st -> inWindow sq start t (schedulerStep sq st).
Proof.
  intros Hbpm Hno Hdue (Hup & Hlo & Hf).
  pose proof (secondsPerStep_pos _ Hbpm) as Hsps.
  split; [|split].
  - rewrite schedulerStep_next by done. lra.
  - rewrite schedulerStep_next by done. lra.
  - rewrite schedulerStep_fired_exact by done.
    apply Forall_app. split; [done|].
    destruct (_ && _); repeat constructor; cbn; lra.
Qed.

Lemma schedulerLoop_inWindow sq start t fuel : forall st st',
  (0 < bpm sq)%Q ->
  inWindow sq start t st ->
  schedulerLoop fuel sq t st = Some st' ->
  inWindow sq start t st' /\ (t + 0.1 <= nextStepTime st')%Q.
Proof.
  induction fuel as [|fuel IH]; intros st st' Hbpm Hw Hrun; cbn in Hrun;
    destruct (Qlt_le_dec _ _) as [Hdue|Hdone]; try discriminate.
  - inversion Hrun; subst. done.
  - destruct (stepRaises sq st) eqn:Hno; [discriminate|].
    apply (IH (schedulerStep sq st) st' Hbpm); [|done].
    by apply schedulerStep_inWindow.
  - inversion Hrun; subst. done.
Qed.

Lemma scheduler_inWindow sq start t fuel st st' :
  (0 < bpm sq)%Q -> audioContext sq = true -> limiter sq = true ->
  inWindow sq start t st ->
  scheduler fuel sq t st = Some st' ->
  inWindow sq start t st' /\ (t + 0.1 <= nextStepTime st')%Q.
Proof.
  intros Hbpm Hctx Hlim Hw. unfold scheduler. rewrite Hctx, Hlim. cbn.
  destruct (schedulerLoop fuel sq t st) as [st1|] eqn:Hloop; [|done].
  intros [= <-].
  exact (schedulerLoop_inWindow _ _ _ _ _ _ Hbpm Hw Hloop).
Qed.

Lemma ticks_inWindow sq start fuel clock : forall t st st',
  (0 < bpm sq)%Q -> audioContext sq = true -> limiter sq = true ->
  nondecreasing t clock ->
  inWindow sq start t st /\ (t + 0.1 <= nextStepTime st)%Q ->
  ticks fuel sq clock st = Some st' ->
  inWindow sq start (List.last clock t) st'
  /\ (List.last clock t + 0.1 <= nextStepTime st')%Q.
Proof.
  induction clock as [|t' later IH]; intros t st st' Hbpm Hctx Hlim Hclock Hw.
  - intros [= <-]. exact Hw.
  - rewrite last_cons. cbn [ticks].
    destruct (scheduler fuel sq t' st) as [st1|] eqn:Hs; [|done].
    change (ticks fuel sq later st1 = Some st' ->
            inWindow sq start (List.last later t') st'
            /\ (List.last later t' + 0.1 <= nextStepTime st')%Q).
    intros Hrest. destruct Hclock as [Ht Hlater].
    apply (IH t' st1 st' Hbpm Hctx Hlim Hlater); [|exact Hrest].
    apply (scheduler_inWindow sq start t' fuel st st1 Hbpm Hctx Hlim);
      [|exact Hs].
    apply (inWindow_later _ _ t); [done|]. apply Hw.
Qed.

(** X14. The lookahead window: at a tempo above 0, with an audio context
    and a limiter and a clock that never runs backwards, after a playback
    run whose last scheduler call was at clock value [t] the next step is
    due at or after the horizon [t + 0.1] and less than one step beyond it,
    and every step fired was triggered at or after the start of the run and
    before the horizon. *)
Theorem playback_lookahead (sq : Sequencer) (now : Q) (clock : list Q)
    (fuel : nat) (st : Playback) :
  (0 < bpm sq)%Q -> audioContext sq = true -> limiter sq = true ->
  nondecreasing now clock ->
  playbackRun fuel sq now clock = Some st ->
  let horizon := (List.last clock now + 0.1)%Q in
  (horizon <= nextStepTime st)%Q
  /\ (nextStepTime st < horizon + secondsPerStep (bpm sq))%Q
  /\ (forall entry, entry ∈ fired st ->
        (now <= entry.2)%Q /\ (entry.2 < horizon)%Q).
Proof.
  intros Hbpm Hctx Hlim Hclock Hrun horizon.
  unfold playbackRun, startPlayback in Hrun. rewrite Hctx in Hrun.
  set (st0 := mkPlayback now 0 (-1) false 0 [] []) in *.
  pose proof (secondsPerStep_pos _ Hbpm) as Hsps.
  assert (H0 : inWindow sq now now st0).
  { split; [cbn; lra|]. split; [cbn; lra|]. constructor. }
  destruct (scheduler fuel sq now st0) as [st1|] eqn:Hs; [|done].
  cbn in Hrun.
  pose proof (scheduler_inWindow sq now now fuel st0 st1 Hbpm Hctx Hlim H0 Hs)
    as H1.
  destruct (ticks_inWindow sq now fuel clock now st1 st Hbpm Hctx Hlim Hclock
              H1 Hrun)
    as ((Hup & Hlo & Hf) & Hdown).
  split; [exact Hdown|]. split; [exact Hup|].
  intros entry Hin. rewrite Forall_forall in Hf. exact (Hf entry Hin).
Qed.

Lemma playback_lookahead_witness :
  let buf := mkAudioBuffer 48000 2 [[0; 1]; [0; 1]]%Q in
  let sq := mkSequencer 240 (Some buf) (Some buf) true true
              (<[0 := Some "normal"]> (<[2 := Some "delay"]> emptyPattern))
              None true in
  exists st,
    playbackRun 20 sq 0 [0.025; 0.05; 0.075]%Q = Some st
    /\ (0.075 + 0.1 <= nextStepTime st)%Q
    /\ (nextStepTime st < 0.075 + 0.1 + secondsPerStep 240)%Q.
Proof.
  intros buf sq.
  assert (Hrun : exists st, playbackRun 20 sq 0 [0.025; 0.05; 0.075]%Q = Some st)
    by (eexists; vm_compute; reflexivity).
  destruct Hrun as [st Hrun].
  assert (Hbpm : (0 < bpm sq)%Q) by reflexivity.
  assert (Hclock : nondecreasing 0 [0.025; 0.05; 0.075]%Q).
  { cbn. repeat split; discriminate. }
  destruct (playback_lookahead sq 0 [0.025; 0.05; 0.075]%Q 20 st
              Hbpm eq_refl eq_refl Hclock Hrun) as (Hlo & Hup & _).
  exists st. split; [exact Hrun|]. split; [exact Hlo|exact Hup].
Defined.

(** ** The effect graphs *)

Ltac route k :=
  lazymatch k with
  | O => fail
  | S ?k' =>
      (eapply routed_limiter; find_call)
      + (eapply routed_node; [find_call | route k'])
  end.

Ltac started Hin :=
  repeat (apply elem_of_cons in Hin as [Hin|Hin];
          [inversion Hin; subst; clear Hin|]);
  [..|by apply elem_of_nil in Hin].

(** X15. Every effect other than glitch and stutter, and every name the
    switch does not know, plays the step's buffer exactly once, unless it
    raises. "autoPan" on a context without [createStereoPanner] raises after
    the source was created and given its buffer: nothing is connected and
    nothing is started. In every other case the step's source holds the
    sample (the reversed sample for reverse), is started once, at the step's
    time, with no offset or duration, and its output reaches the master bus
    through the effect's nodes; any other node the step starts is an
    oscillator, started at the step's time and stopped one sample duration
    later. *)
Theorem effect_plays_once (sq : Sequencer) (fx : string) (buf : AudioBuffer)
    (playTime : Q) (n : nat) :
  fx ≠ "glitch" -> fx ≠ "stutter" ->
  let result := (triggerStep sq fx buf playTime n).1.1 in
  let acts := calls (triggerStep sq fx buf playTime) n in
  if JS.strictEq fx "autoPan" && negb (stereoPanner sq)
  then
    result = None
    /\ acts = [Create n BufferSourceNode; SetBuffer n buf]
  else
    result = Some tt
    /\ buffersOf n acts
       = [if JS.strictEq fx "reverse"
          then default buf (reversedSampleBuffer sq) else buf]
    /\ startsOf n acts = [(playTime, None, None)]
    /\ routed acts n
    /\ (forall id w o d,
          (id, w, o, d) ∈ starts acts -> id ≠ n ->
          (id, OscillatorNode) ∈ created acts
          /\ w = playTime /\ o = None /\ d = None
          /\ Stop id (playTime + duration buf) ∈ acts).
Proof.
  intros Hglitch Hstutter result acts.
  destruct (decide (fx ∈ switchCases)) as [Hin|Hout].
  - destruct sq as [bpm_ sb rsb ctx sp pat ir lim].
    each_case Hin; try done; subst result acts;
      destruct ir as [ir|]; destruct sp;
      unfold calls, triggerStep, effectChain;
      cbn [impulseResponse stereoPanner bpm reversedSampleBuffer];
      run_builder; cbn [negb andb fst snd];
      try (split; reflexivity);
      (split; [reflexivity|]);
      (split; [observe; nat_cases; reflexivity|]);
      (split; [unfold startsOf; cbn [omap list_omap]; nat_cases; reflexivity|]);
      (split; [solve [route 8]|]);
      observe; intros id w o d Hst Hne; started Hst; try done;
      (split; [find_call|]); repeat (split; [reflexivity|]); find_call.
  - subst result acts. unfold calls.
    rewrite (triggerStep_default _ _ _ _ _ Hout).
    rewrite (switch_miss fx "autoPan" Hout) by (unfold switchCases; find_call).
    cbn [andb fst snd]. unfold drySource. split; [reflexivity|].
    split; [observe; nat_cases; reflexivity|].
    split; [unfold startsOf; cbn [omap list_omap]; nat_cases; reflexivity|].
    split; [solve [route 2]|].
    observe. intros id w o d Hst Hne. started Hst. done.
Qed.

Lemma effect_plays_once_witness :
  let buf := mkAudioBuffer 48000 2 [[0; 1]; [0; 1]]%Q in
  let sq := mkSequencer 120 (Some buf) None true true emptyPattern None true in
  let old := mkSequencer 120 (Some buf) None true false emptyPattern None true in
  let acts := calls (triggerStep sq "phaser" buf 1) 5 in
  (startsOf 5 acts = [(1%Q, None, None)]
   /\ routed acts 5
   /\ starts acts = [(8, 1%Q, None, None); (5, 1%Q, None, None)])
  /\ calls (triggerStep old "autoPan" buf 1) 5
     = [Create 5 BufferSourceNode; SetBuffer 5 buf].
Proof.
  intros buf sq old acts.
  assert (H1 : "phaser" ≠ "glitch") by discriminate.
  assert (H2 : "phaser" ≠ "stutter") by discriminate.
  assert (H3 : "autoPan" ≠ "glitch") by discriminate.
  assert (H4 : "autoPan" ≠ "stutter") by discriminate.
  split.
  - destruct (effect_plays_once sq "phaser" buf 1 5 H1 H2)
      as (_ & _ & Hs & Hr & _).
    split; [exact Hs|]. split; [exact Hr|]. reflexivity.
  - exact (proj2 (effect_plays_once old "autoPan" buf 1 5 H3 H4)).
Defined.

(** X16. The switch has no default: a step whose effect is not one of its
    case labels (the effects normal and reverse, and any unknown name) plays
    its buffer unprocessed, straight into the master bus, and so does reverb
    while there is no impulse response and stereoWiden on a context without
    [createStereoPanner]. Every key of FX_CONFIG other than normal and
    reverse has a case. *)
Theorem dry_fallback (sq : Sequencer) (fx : string) (buf : AudioBuffer)
    (playTime : Q) (n : nat) :
  (fx ∉ switchCases
   \/ (fx = "reverb" /\ impulseResponse sq = None)
   \/ (fx = "stereoWiden" /\ stereoPanner sq = false)) ->
  calls (triggerStep sq fx buf playTime) n
  = drySource n
      (if JS.strictEq fx "reverse"
       then default buf (reversedSampleBuffer sq) else buf) playTime
  /\ forall key, key ∈ FX_KEYS ->
        key = "normal" \/ key = "reverse" \/ key ∈ switchCases.
Proof.
  intros Hfx. split.
  - destruct Hfx as [Hout|[[-> Hir]|[-> Hsp]]].
    + unfold calls. by rewrite (triggerStep_default _ _ _ _ _ Hout).
    + unfold calls, triggerStep, effectChain. rewrite Hir. reflexivity.
    + unfold calls, triggerStep, effectChain. rewrite Hsp. reflexivity.
  - intros key Hkey. unfold FX_KEYS in Hkey.
    repeat (apply elem_of_cons in Hkey as [->|Hkey];
            [first [by left | by right; left
                   | right; right; unfold switchCases; find_call]|]).
    by apply elem_of_nil in Hkey.
Qed.

Lemma dry_fallback_witness :
  let buf := mkAudioBuffer 48000 2 [[0; 1]; [0; 1]]%Q in
  let rev_ := mkAudioBuffer 48000 2 [[1; 0]; [1; 0]]%Q in
  let sq := mkSequencer 120 (Some buf) (Some rev_) true true emptyPattern
              None true in
  calls (triggerStep sq "reverse" buf 1) 0 = drySource 0 rev_ 1
  /\ calls (triggerStep sq "reverb" buf 1) 0 = drySource 0 buf 1.
Proof.
  intros buf rev_ sq. split.
  - exact (proj1 (dry_fallback sq "reverse" buf 1 0
                    (or_introl reverse_not_case))).
  - exact (proj1 (dry_fallback sq "reverb" buf 1 0
                    (or_intror (or_introl (conj eq_refl eq_refl))))).
Defined.

(** ** Closing the session and the resolved audio *)

Section GenerateAudioRuns.

Variable atob : string -> option string.
Variable btoa : string -> string.

Lemma reject_session e g :
  session (reject e g) = session g /\ closeCalls (reject e g) = closeCalls g.
Proof. unfold reject. by destruct (promise g). Qed.

Lemma resolve_session v g :
  session (resolve v g) = session g /\ closeCalls (resolve v g) = closeCalls g.
Proof. unfold resolve. by destruct (promise g). Qed.

Lemma pushChunks_session chunks : forall g,
  session (pushChunks atob chunks g) = session g
  /\ closeCalls (pushChunks atob chunks g) = closeCalls g
  /\ sessionClosed (pushChunks atob chunks g) = sessionClosed g.
Proof.
  induction chunks as [|c chunks IH]; intros g; [done|].
  cbn [pushChunks]. destruct (JS.truthy c); [|by apply IH].
  destruct (decodeBase64 atob (default "" c)); [|done].
  match goal with |- context [pushChunks atob chunks ?h] =>
    destruct (IH h) as (-> & -> & ->) end. done.
Qed.

Lemma cleanupAndResolve_session g :
  session (cleanupAndResolve btoa g) = session g
  /\ closeCalls (cleanupAndResolve btoa g)
     = if sessionClosed g then closeCalls g
       else if session g then S (closeCalls g) else closeCalls g.
Proof.
  unfold cleanupAndResolve. destruct (sessionClosed g); [done|].
  cbn [audioChunks totalByteLength]. case_decide.
  - match goal with |- context [reject ?e ?h] =>
      destruct (reject_session e h) as [-> ->] end. done.
  - destruct (copyChunks _ _ _); [|done].
    match goal with |- context [resolve ?v ?h] =>
      destruct (resolve_session v h) as [-> ->] end. done.
Qed.

Lemma cleanupAndResolve_closed g :
  sessionClosed (cleanupAndResolve btoa g) = true.
Proof.
  destruct (sessionClosed g) eqn:Hclosed.
  - unfold cleanupAndResolve. by rewrite Hclosed.
  - by apply cleanupAndResolve_fields.
Qed.

Lemma cleanupAndResolve_closedOnce g :
  closedOnce g -> closedOnce (cleanupAndResolve btoa g).
Proof.
  intros [Hle Hone]. unfold closedOnce.
  destruct (cleanupAndResolve_session g) as [-> ->].
  rewrite cleanupAndResolve_closed.
  destruct (sessionClosed g) eqn:Hclosed.
  - split; [done|]. intros H. split; [by apply Hone|done].
  - assert (closeCalls g = 0) as ->.
    { destruct (closeCalls g) as [|[|k]] eqn:Hc; [done| |lia].
      destruct Hone as [_ H]; [done|]. congruence. }
    destruct (session g); split; try lia; done.
Qed.

Lemma step_closedOnce g e : closedOnce g -> closedOnce (step atob btoa g e).
Proof.
  intros Hg. pose proof Hg as [Hle Hone].
  assert (Hr : forall err, closedOnce (reject err g)).
  { intros err. unfold closedOnce.
    destruct (reject_session err g) as [-> ->].
    destruct (reject_fields err g) as (_ & _ & _ & ->). done. }
  destruct e; cbn [step].
  - unfold closedOnce.
    match goal with |- context [reject ?e ?h] =>
      destruct (reject_session e h) as [-> ->];
      destruct (reject_fields e h) as (_ & _ & _ & ->) end. done.
  - split; [done|]. cbn. intros H. split; [done|]. by apply Hone.
  - by apply cleanupAndResolve_closedOnce.
  - done.
  - unfold onmessage. destruct chunks as [chunks|]; [|done].
    unfold closedOnce.
    match goal with |- context [pushChunks atob chunks ?h] =>
      destruct (pushChunks_session chunks h) as (-> & -> & ->)
    end.
    by destruct (hasReceivedAudio g).
  - by apply cleanupAndResolve_closedOnce.
  - unfold onclose. destruct (sessionClosed g); [done|].
    by apply cleanupAndResolve_closedOnce.
  - destruct (initialTimeout g); [|done]. cbn [hasReceivedAudio].
    destruct (hasReceivedAudio g); [done|].
    by apply cleanupAndResolve_closedOnce.
  - destruct (collectionTimeout g); [|done].
    by apply cleanupAndResolve_closedOnce.
Qed.

Lemma run_closedOnce events : forall g,
  closedOnce g -> closedOnce (fold_left (step atob btoa) events g).
Proof.
  induction events as [|e events IH]; intros g Hg; [done|].
  cbn. apply IH, step_closedOnce, Hg.
Qed.

Lemma run_consistent events : forall g,
  consistent g -> consistent (fold_left (step atob btoa) events g).
Proof.
  induction events as [|e events IH]; intros g Hg; [done|].
  cbn. apply IH, step_consistent, Hg.
Qed.

(** Once the clean-up has run, no event changes the flag or the count. *)
Lemma closed_step g e :
  sessionClosed g = true ->
  sessionClosed (step atob btoa g e) = true
  /\ closeCalls (step atob btoa g e) = closeCalls g.
Proof.
  intros Hclosed.
  assert (Hc : cleanupAndResolve btoa g = g)
    by (unfold cleanupAndResolve; by rewrite Hclosed).
  assert (Hcr : forall err,
             sessionClosed (cleanupAndResolve btoa (reject err g)) = true
             /\ closeCalls (cleanupAndResolve btoa (reject err g))
                = closeCalls g).
  { intros err. split; [apply cleanupAndResolve_closed|].
    destruct (cleanupAndResolve_session (reject err g)) as [_ ->].
    destruct (reject_fields err g) as (_ & _ & _ & ->).
    rewrite Hclosed. apply reject_session. }
  destruct e; cbn [step].
  - match goal with |- context [reject ?e ?h] =>
      destruct (reject_session e h) as [_ ->];
      destruct (reject_fields e h) as (_ & _ & _ & ->) end. done.
  - done.
  - apply Hcr.
  - done.
  - unfold onmessage. destruct chunks as [chunks|]; [|done].
    match goal with |- context [pushChunks atob chunks ?h] =>
      destruct (pushChunks_session chunks h) as (_ & -> & ->)
    end. by destruct (hasReceivedAudio g).
  - apply Hcr.
  - unfold onclose. by rewrite Hclosed.
  - destruct (initialTimeout g); [|done]. cbn [hasReceivedAudio].
    destruct (hasReceivedAudio g); [done|].
    unfold cleanupAndResolve. cbn [sessionClosed]. by rewrite Hclosed.
  - destruct (collectionTimeout g); [|done].
    unfold cleanupAndResolve. cbn [sessionClosed]. by rewrite Hclosed.
Qed.

Lemma closed_run events : forall g,
  sessionClosed g = true ->
  sessionClosed (fold_left (step atob btoa) events g) = true
  /\ closeCalls (fold_left (step atob btoa) events g) = closeCalls g.
Proof.
  induction events as [|e events IH]; intros g Hg; [done|].
  cbn. destruct (closed_step g e Hg) as [H1 H2].
  destruct (IH _ H1) as [H3 H4]. split; [done|]. congruence.
Qed.

(** X17. Whatever happens during a [generateAudio] call, [session.close()]
    is called at most once, and only on a session that was assigned, by the
    clean-up; once the clean-up has run the promise is settled, and no later
    event closes the session again, re-opens the clean-up or changes the
    outcome. In particular a session that connects only after the clean-up
    is never closed. *)
Theorem session_closed_once (events later : list Event) :
  let g := generateAudio atob btoa events in
  let g' := generateAudio atob btoa (events ++ later) in
  closeCalls g <= 1
  /\ (closeCalls g = 1 -> session g = true /\ sessionClosed g = true)
  /\ (sessionClosed g = true ->
      promise g ≠ Pending
      /\ sessionClosed g' = true
      /\ closeCalls g' = closeCalls g
      /\ promise g' = promise g).
Proof.
  intros g g'.
  assert (Hinit : closedOnce initialGeneration) by (split; [cbn; lia|done]).
  destruct (run_closedOnce events _ Hinit) as [Hle Hone].
  split; [exact Hle|]. split; [exact Hone|].
  intros Hclosed.
  destruct (generateAudio_consistent atob btoa events) as (_ & Hsettled & _).
  specialize (Hsettled Hclosed). split; [exact Hsettled|].
  subst g'. unfold generateAudio. rewrite fold_left_app.
  fold (generateAudio atob btoa events). fold g.
  destruct (closed_run later g Hclosed) as [H1 H2].
  split; [done|]. split; [done|]. by apply settled_run.
Qed.

Lemma decodeBase64_bytes base64 bytes :
  decodeBase64 atob base64 = Some bytes ->
  Forall (fun b => (0 <= b < 256)%Z) bytes.
Proof.
  unfold decodeBase64. destruct (atob base64) as [binary|]; [|done].
  intros [= <-]. apply Forall_forall. intros b Hb.
  apply list_elem_of_fmap in Hb as (c & -> & _).
  pose proof (N_ascii_bounded c). lia.
Qed.

Lemma pushChunks_bytes chunks : forall g,
  properBytes g -> properBytes (pushChunks atob chunks g).
Proof.
  induction chunks as [|c chunks IH]; intros g Hg; [done|].
  cbn [pushChunks]. destruct (JS.truthy c); [|by apply IH].
  destruct (decodeBase64 atob (default "" c)) as [chunk|] eqn:Hdec; [|done].
  apply IH. unfold properBytes. cbn [audioChunks].
  rewrite concat_app. apply Forall_app. split; [exact Hg|].
  cbn. rewrite app_nil_r. by apply decodeBase64_bytes in Hdec.
Qed.

Lemma step_bytes g e : properBytes g -> properBytes (step atob btoa g e).
Proof.
  intros Hg. unfold properBytes in *.
  assert (Hc : forall h, audioChunks (cleanupAndResolve btoa h) = audioChunks h)
    by (intros h; apply cleanupAndResolve_fields).
  assert (Hr : forall err h, audioChunks (reject err h) = audioChunks h)
    by (intros err h; apply reject_fields).
  destruct e; cbn [step]; rewrite ?Hc, ?Hr; try done.
  - unfold onmessage. destruct chunks as [chunks|]; [|done].
    apply pushChunks_bytes. by destruct (hasReceivedAudio g).
  - unfold onerror. by rewrite Hc, Hr.
  - unfold onclose. destruct (sessionClosed g); [done|]. by rewrite Hc.
  - destruct (initialTimeout g); [|done]. cbn [hasReceivedAudio].
    destruct (hasReceivedAudio g); [done|]. by rewrite Hc.
  - destruct (collectionTimeout g); [|done]. by rewrite Hc.
Qed.

Lemma run_bytes events : forall g,
  properBytes g -> properBytes (fold_left (step atob btoa) events g).
Proof.
  induction events as [|e events IH]; intros g Hg; [done|].
  cbn. apply IH, step_bytes, Hg.
Qed.

(** Reading the character codes of a binary string gives its bytes back. *)
Lemma binaryString_codes bytes :
  Forall (fun b => (0 <= b < 256)%Z) bytes ->
  map (fun c => Z.of_N (N_of_ascii c))
    (String.list_ascii_of_string (binaryString bytes)) = bytes.
Proof.
  intros Hbytes. unfold binaryString.
  rewrite String.list_ascii_of_string_of_list_ascii, map_map.
  induction Hbytes as [|b bytes Hb _ IH]; [done|].
  cbn [map]. rewrite IH. f_equal.
  rewrite N_ascii_embedding by lia. lia.
Qed.

(** Only a close of the session or the collection timeout resolves. *)
Lemma resolving_step g e v :
  consistent g -> promise g = Pending ->
  promise (step atob btoa g e) = Resolved v ->
  (e = SessionClose \/ e = CollectionTimeoutFires)
  /\ audioChunks g ≠ []
  /\ v = btoa (binaryString (concat (audioChunks g))).
Proof.
  intros (Htotal & Hclosed & Hfirst) Hpending.
  assert (Hopen : sessionClosed g = false).
  { destruct (sessionClosed g); [|done]. by destruct Hclosed. }
  assert (Hout : forall w, outcome btoa g = Resolved w ->
                 audioChunks g ≠ []
                 /\ w = btoa (binaryString (concat (audioChunks g)))).
  { unfold outcome. intros w. destruct (audioChunks g); [done|].
    intros [= <-]. done. }
  destruct (progress e) eqn:He.
  { rewrite progress_step, Hpending by done. discriminate. }
  destruct e; try discriminate; cbn [step].
  - rewrite reject_promise. cbn. rewrite Hpending. discriminate.
  - rewrite cleanupAndResolve_settled; rewrite reject_promise, Hpending; done.
  - unfold onerror.
    rewrite cleanupAndResolve_settled; rewrite reject_promise, Hpending; done.
  - unfold onclose. rewrite Hopen.
    rewrite cleanupAndResolve_promise, Hopen, Hpending by done.
    intros H. split; [by left|]. by apply Hout.
  - destruct (initialTimeout g); [|by rewrite Hpending].
    cbn [hasReceivedAudio].
    destruct (hasReceivedAudio g) eqn:Hrecv; [cbn; by rewrite Hpending|].
    rewrite cleanupAndResolve_promise by done. cbn. rewrite Hopen, Hpending.
    unfold outcome. cbn. by rewrite (Hfirst eq_refl).
  - destruct (collectionTimeout g); [|by rewrite Hpending].
    rewrite cleanupAndResolve_promise by done. cbn. rewrite Hopen, Hpending.
    intros H. split; [by right|]. by apply Hout.
Qed.

(** X18. A [generateAudio] call that resolved was settled by a close of
    the session or by the collection timeout, while pending and with at least
    one chunk collected; its value is [btoa] of the binary string of all
    chunks collected up to that event, in order; those bytes are proper
    bytes; and when [atob] gives that binary string back, [decodeBase64] of
    the value returns exactly those bytes. Chunks that arrive later are not
    part of it. *)
Theorem resolved_audio (events : list Event) (base64 : string) :
  promise (generateAudio atob btoa events) = Resolved base64 ->
  exists pre e post,
    events = pre ++ e :: post
    /\ (e = SessionClose \/ e = CollectionTimeoutFires)
    /\ promise (generateAudio atob btoa pre) = Pending
    /\ audioChunks (generateAudio atob btoa pre) ≠ []
    /\ let bytes := concat (audioChunks (generateAudio atob btoa pre)) in
       base64 = btoa (binaryString bytes)
       /\ Forall (fun b => (0 <= b < 256)%Z) bytes
       /\ (atob base64 = Some (binaryString bytes) ->
           decodeBase64 atob base64 = Some bytes).
Proof.
  induction events as [|e events IH] using rev_ind; [discriminate|].
  unfold generateAudio. rewrite fold_left_app. cbn [fold_left].
  fold (generateAudio atob btoa events).
  set (g := generateAudio atob btoa events) in *.
  destruct (promise g) eqn:Hp.
  - intros Hres.
    pose proof (generateAudio_consistent atob btoa events) as Hcons.
    destruct (resolving_step g e base64 Hcons Hp Hres) as (He & Hne & Hv).
    assert (Hbytes : properBytes g) by (apply run_bytes; constructor).
    exists events, e, []. repeat split; try done.
    intros Hatob. unfold decodeBase64. rewrite Hatob. cbn.
    f_equal. by apply binaryString_codes.
  - rewrite settled_step, Hp by (rewrite Hp; discriminate).
    intros [= <-].
    destruct (IH eq_refl) as (pre & e0 & post & -> & H).
    exists pre, e0, (post ++ [e]). split; [|exact H].
    by rewrite <- app_assoc.
  - rewrite settled_step, Hp by (rewrite Hp; discriminate). discriminate.
Qed.

End GenerateAudioRuns.

Lemma resolved_audio_witness :
  let events :=
    [Connected; SetupDone; Message (Some [Some "TWFu"; Some "TWE="]);
     CollectionTimeoutFires; Message (Some [Some "AAAA"])] in
  promise (generateAudio Base64.atob Base64.btoa events) = Resolved "TWFuTWE="
  /\ decodeBase64 Base64.atob "TWFuTWE=" = Some [77; 97; 110; 77; 97]%Z.
Proof.
  intros events.
  assert (Hres : promise (generateAudio Base64.atob Base64.btoa events)
                 = Resolved "TWFuTWE=") by reflexivity.
  split; [exact Hres|].
  destruct (resolved_audio Base64.atob Base64.btoa events _ Hres)
    as (pre & e & post & Hev & He & _ & _ & _ & _ & Hdec).
  assert (Hpre : pre = [Connected; SetupDone;
                        Message (Some [Some "TWFu"; Some "TWE="])]).
  { destruct pre as [|e1 [|e2 [|e3 [|e4 [|e5 pre]]]]]; cbn in Hev;
      injection Hev as <-; intros; subst;
      try (destruct He; discriminate); try reflexivity.
    by destruct pre. }
  subst pre. exact (Hdec eq_refl).
Defined.

(** ** Comparing patterns by their joined text *)

Lemma commaFree_cons c s :
  commaFree (String c s) <-> c ≠ ","%char /\ commaFree s.
Proof.
  unfold commaFree. cbn [String.list_ascii_of_string].
  rewrite not_elem_of_cons. intuition congruence.
Qed.

Lemma append_nil (s : string) : "" +:+ s = s.
Proof. reflexivity. Qed.

Lemma append_cons c (s r : string) : String c s +:+ r = String c (s +:+ r).
Proof. reflexivity. Qed.

Lemma append_comma_inj (s1 : string) : forall s2 r1 r2,
  commaFree s1 -> commaFree s2 ->
  s1 +:+ "," +:+ r1 = s2 +:+ "," +:+ r2 -> s1 = s2 /\ r1 = r2.
Proof.
  induction s1 as [|c s1 IH]; intros [|d s2] r1 r2 H1 H2 Heq;
    rewrite ?append_cons, ?append_nil in Heq.
  - by injection Heq as ->.
  - injection Heq as <- _. apply commaFree_cons in H2 as [H2 _]. done.
  - injection Heq as -> _. apply commaFree_cons in H1 as [H1 _]. done.
  - injection Heq as -> Heq.
    apply commaFree_cons in H1 as [_ H1]. apply commaFree_cons in H2 as [_ H2].
    destruct (IH s2 r1 r2 H1 H2 Heq) as [-> ->]. done.
Qed.

Lemma plainSlot_text x : plainSlot x -> commaFree (default "" x).
Proof. destruct x as [fx|]; [by intros [_ H]|]. intros _ H. inversion H. Qed.

Lemma plainSlot_inj x y :
  plainSlot x -> plainSlot y -> default "" x = default "" y -> x = y.
Proof.
  destruct x as [fx|], y as [fy|]; cbn; intros Hx Hy Heq; try done.
  - by subst.
  - subst. by destruct Hx.
  - subst. by destruct Hy.
Qed.

Lemma join_cons x y rest :
  join (x :: y :: rest) = default "" x +:+ "," +:+ join (y :: rest).
Proof. reflexivity. Qed.

Lemma join_inj (p1 : Pattern) : forall p2 : Pattern,
  length p1 = length p2 ->
  Forall plainSlot p1 -> Forall plainSlot p2 ->
  join p1 = join p2 -> p1 = p2.
Proof.
  induction p1 as [|x p1 IH]; intros [|y p2] Hlen H1 H2 Heq; try done.
  apply Forall_cons in H1 as [Hx H1]. apply Forall_cons in H2 as [Hy H2].
  destruct p1 as [|x' p1], p2 as [|y' p2]; try done.
  - cbn in Heq. f_equal. by apply plainSlot_inj.
  - rewrite !join_cons in Heq.
    apply append_comma_inj in Heq as [Hxy Hrest];
      [|by apply plainSlot_text..].
    f_equal; [by apply plainSlot_inj|].
    apply IH; [cbn in Hlen |- *; lia|done..].
Qed.

Lemma possibleStates_plain : Forall plainSlot possibleStates.
Proof.
  unfold possibleStates, FX_KEYS. cbn [fmap list_fmap app].
  repeat (apply Forall_cons; split;
          [first [exact I
                 | split; [discriminate|];
                   unfold commaFree; cbn [String.list_ascii_of_string];
                   intros H;
                   repeat (apply elem_of_cons in H as [H|H]; [discriminate H|]);
                   by apply elem_of_nil in H]|]).
  constructor.
Qed.

Lemma drawPattern_plain random used : Forall plainSlot (drawPattern random used).
Proof.
  unfold drawPattern. apply Forall_fmap, Forall_forall. intros j _. unfold compose. cbv beta.
  match goal with |- plainSlot (mjoin (possibleStates !! ?k)) =>
    destruct (possibleStates !! k) as [slot|] eqn:Hslot end; [|exact I].
  cbn. exact (Forall_lookup_1 _ _ _ _ possibleStates_plain Hslot).
Qed.

(** X19. Comparing patterns by their joined text is exact on the patterns
    the app builds: for two patterns of the same length whose slots are
    [null] or non-empty names without a comma, [isSamePattern] holds exactly
    when the patterns are equal. So randomize keeps a draw exactly when it
    differs from the current pattern and has a non-empty slot. *)
Theorem isSamePattern_exact (p1 p2 : Pattern) :
  length p1 = length p2 ->
  Forall plainSlot p1 -> Forall plainSlot p2 ->
  (isSamePattern p1 p2 = true <-> p1 = p2)
  /\ (forall random used,
        p1 = drawPattern random used ->
        (accepted p1 p2
         <-> p1 ≠ p2 /\ exists i fx, p1 !! i = Some (Some fx))).
Proof.
  intros Hlen H1 H2.
  assert (Hsame : isSamePattern p1 p2 = true <-> p1 = p2).
  { unfold isSamePattern. rewrite String.eqb_eq. split.
    - by apply join_inj.
    - by intros ->. }
  split; [exact Hsame|].
  intros random used Hdraw. unfold accepted. split.
  - intros [Hdiff Hnull]. split.
    + intros Heq. apply Hsame in Heq. congruence.
    + by apply everyNull_false.
  - intros [Hne (i & fx & Hi)]. split.
    + destruct (isSamePattern p1 p2) eqn:Hs; [|done].
      by destruct Hne, Hsame as [-> _].
    + destruct (everyNull p1) eqn:Hnull; [|done].
      unfold everyNull in Hnull. rewrite forallb_forall in Hnull.
      apply list_elem_of_lookup_2, list_elem_of_In in Hi.
      by specialize (Hnull _ Hi).
Qed.

Lemma isSamePattern_exact_witness :
  let p1 := drawPattern (fun n => (inject_Z (Z.of_nat (n mod 3)) / 4)%Q) 0 in
  let p2 := <[2 := Some "delay"]> emptyPattern in
  isSamePattern p1 p2 = false /\ accepted p1 p2.
Proof.
  intros p1 p2.
  assert (Hlen : length p1 = length p2) by reflexivity.
  assert (H2 : Forall plainSlot p2).
  { apply Forall_insert; [|split; [discriminate|]].
    - apply Forall_replicate. exact I.
    - intros H. unfold commaFree in H. cbn in H.
      repeat (apply elem_of_cons in H as [H|H]; [discriminate H|]).
      by apply elem_of_nil in H. }
  destruct (isSamePattern_exact p1 p2 Hlen (drawPattern_plain _ _) H2)
    as [Hsame Hacc].
  assert (Hne : p1 ≠ p2) by (vm_compute; discriminate).
  split.
  - destruct (isSamePattern p1 p2) eqn:Hs; [|done].
    by destruct Hne, Hsame as [-> _].
  - apply (Hacc _ 0 eq_refl). split; [exact Hne|].
    exists 0, "normal". vm_compute. reflexivity.
Defined.

(** Outside these slots the joined text does not tell patterns apart. *)
Example isSamePattern_confuses :
  isSamePattern [None] [Some ""] = true
  /\ isSamePattern [Some "a,b"; None] [Some "a"; Some "b,"] = true.
Proof. split; reflexivity. Qed.

(** ** The App component: what holds in every reachable state *)

Lemma decoded_stereo48k data b :
  decodePCMAudioData data = Some b -> stereo48k b.
Proof.
  unfold decodePCMAudioData. cbv zeta.
  generalize (length (int16Array data) / 2). intros n.
  case_decide as Hz; [done|].
  intros [= <-]. unfold stereo48k, numberOfChannels, wf_buffer.
  cbn [sampleRate frames channelData seq map].
  split; [done|]. split; [done|]. split; [lia|].
  repeat constructor; by rewrite length_map, length_seq.
Qed.

Lemma load_cases generated selection_ ctx :
  numberOfChannels generated ≠ 0 ->
  handleLoadToSequencer (Some generated) selection_ ctx = NotLoaded
  \/ exists s e,
       (0 < e - s)%Z
       /\ handleLoadToSequencer (Some generated) selection_ ctx
          = Loaded
              (mkAudioBuffer (sampleRate generated) (Z.to_nat (e - s))
                 (map (fun ch =>
                         TypedArray.slice ch s e
                         ++ replicate (Z.to_nat (e - s)
                                       - length (TypedArray.slice ch s e)) 0%Q)
                    (channelData generated)))
              (mkAudioBuffer (sampleRate generated) (Z.to_nat (e - s))
                 (map (fun ch =>
                         rev (TypedArray.slice ch s e)
                         ++ replicate (Z.to_nat (e - s)
                                       - length (TypedArray.slice ch s e)) 0%Q)
                    (channelData generated))).
Proof.
  intros Hchan. unfold handleLoadToSequencer.
  destruct selection_ as [[start end_]|]; [|by left].
  destruct ctx; [|by left]. cbv zeta.
  set (s := JS.floor (start * sampleRate generated)).
  set (e := JS.floor (end_ * sampleRate generated)).
  case_decide as Hcount; [by left|]. right.
  rewrite decide_False by done.
  erewrite mapM_total
    by (intros ch _; apply loadChannel_total; [lia|reflexivity]).
  exists s, e. split; [lia|].
  rewrite <- !list_fmap_compose. reflexivity.
Qed.

Lemma loaded_paired generated selection_ ctx newBuffer reversedBuffer :
  stereo48k generated ->
  handleLoadToSequencer (Some generated) selection_ ctx
  = Loaded newBuffer reversedBuffer ->
  paired (Some newBuffer) (Some reversedBuffer).
Proof.
  intros (Hrate & Hchan & Hframes & Hwf) Hload.
  destruct (load_cases generated selection_ ctx) as [H|(s & e & Hpos & H)];
    [lia|congruence|].
  rewrite H in Hload. injection Hload as <- <-.
  unfold paired, stereo48k, numberOfChannels, wf_buffer in *.
  cbn [sampleRate frames channelData]. rewrite !length_map.
  repeat split; try done; try lia.
  - apply Forall_fmap, Forall_forall. intros ch _. cbn.
    pose proof (slice_length ch s e ltac:(lia)).
    rewrite length_app, length_replicate. lia.
  - apply Forall_fmap, Forall_forall. intros ch _. cbn.
    pose proof (slice_length ch s e ltac:(lia)).
    rewrite length_app, length_replicate, length_rev. lia.
Qed.

Lemma FX_KEYS_possible fx : fx ∈ FX_KEYS -> Some fx ∈ possibleStates.
Proof.
  intros H. unfold possibleStates. apply elem_of_app. left.
  by apply list_elem_of_fmap_2.
Qed.

Lemma null_possible : None ∈ possibleStates.
Proof.
  unfold possibleStates. apply elem_of_app. right. constructor.
Qed.

Lemma drawPattern_possible random used :
  Forall (fun slot => slot ∈ possibleStates) (drawPattern random used).
Proof.
  unfold drawPattern. apply Forall_fmap, Forall_forall. intros j _.
  unfold compose. cbv beta.
  match goal with |- mjoin (possibleStates !! ?k) ∈ _ =>
    destruct (possibleStates !! k) as [slot|] eqn:Hslot end.
  - cbn. by apply list_elem_of_lookup_2 in Hslot.
  - apply null_possible.
Qed.

Lemma toggleStep_possible P fx i :
  i < length P -> fx ∈ FX_KEYS ->
  Forall (fun slot => slot ∈ possibleStates) P ->
  Forall (fun slot => slot ∈ possibleStates) (handleToggleStep P fx i).
Proof.
  intros Hi Hfx HP. unfold handleToggleStep.
  case_decide; rewrite array_set_in by done; apply Forall_insert; try done.
  - apply null_possible.
  - by apply FX_KEYS_possible.
Qed.

Lemma emptyPattern_possible :
  Forall (fun slot => slot ∈ possibleStates) emptyPattern.
Proof. apply Forall_replicate, null_possible. Qed.

Ltac fields :=
  cbn [appData appPattern appBpm sequencerSample reversedSequencerSample
       contextSampleRate generatedAudioBuffer selection selectedFx isLoading].

Section AppProperties.

Variable atob : string -> option string.
Variable btoa : string -> string.

Lemma initial_invariant : appInvariant initialApp.
Proof.
  unfold appInvariant, initialApp. fields.
  split; [done|]. split; [apply emptyPattern_possible|].
  split; [unfold FX_KEYS; constructor|].
  repeat split; done.
Qed.

Lemma generatedAudio_stereo48k events b :
  generatedAudio atob btoa events = Some b -> stereo48k b.
Proof.
  unfold generatedAudio.
  destruct (promise (generateAudio atob btoa events)); try done.
  destruct (decodeBase64 atob base64) as [bytes|]; [|done]. cbn.
  apply decoded_stereo48k.
Qed.

Lemma appStep_invariant s e :
  fromUI e -> appInvariant s -> appInvariant (appStep atob btoa s e).
Proof.
  intros He Hinv.
  pose proof Hinv
    as (Hlen & Hslots & Hfx & Hlo & Hhi & Hctx & Hload & Hgen & Hpair).
  destruct e; cbn [appStep fromUI] in *.
  - destruct (isLoading s); [done|].
    unfold appInvariant, initAudioContext.
    destruct (contextSampleRate (appData s)) as [rate|] eqn:Hrate; fields;
      rewrite ?Hrate;
      (split; [done|]); (split; [apply emptyPattern_possible|]);
      (split; [done|]); (split; [done|]); (split; [done|]);
      (split; [|done]).
    + exact Hctx.
    + by intros r [= <-].
  - destruct (isLoading s) eqn:Hl; [|done]. specialize (Hload eq_refl).
    destruct (promise (generateAudio atob btoa events)) eqn:Hp; [done|..];
      destruct (generatedAudio atob btoa events) as [b|] eqn:Hb;
      unfold appInvariant; fields;
      repeat (split; [done|]); try done;
      (split; [|done]); (split; [|done]);
      by apply generatedAudio_stereo48k in Hb.
  - done.
  - destruct (generatedAudioBuffer s) as [generated|] eqn:Hg; [|done].
    destruct Hgen as [Hstereo Hsome].
    destruct (handleLoadToSequencer _ _ _) as [| |newBuffer reversedBuffer]
      eqn:Hld; [done|done|].
    unfold appInvariant. fields. rewrite ?Hg.
    repeat (split; [done|]).
    by apply loaded_paired in Hld.
  - unfold appInvariant. fields.
    split; [by rewrite toggleStep_length by lia|].
    split; [apply toggleStep_possible; [lia|done..]|].
    done.
  - unfold appInvariant. fields. done.
  - destruct (handleRandomizePattern fuel random (appPattern (appData s)))
      as [newPattern|] eqn:Hrand; [|done].
    unfold handleRandomizePattern in Hrand.
    apply randomizeLoop_result in Hrand as (attempt & _ & -> & _).
    unfold appInvariant. fields.
    split; [apply drawPattern_length|].
    split; [apply drawPattern_possible|]. done.
  - unfold appInvariant. fields. destruct He. done.
Qed.

Lemma appRun_invariant events :
  Forall fromUI events -> appInvariant (appRun atob btoa events).
Proof.
  unfold appRun. generalize initial_invariant. generalize initialApp.
  induction events as [|e events IH]; intros s Hs Hev; [done|].
  apply Forall_cons in Hev as [He Hev]. cbn [fold_left].
  apply IH; [|done]. by apply appStep_invariant.
Qed.

(** X20. In every state the App component reaches through its handlers
    (generate and its completion, selecting, loading, toggling a step,
    choosing an effect, randomizing, moving the tempo slider): the pattern
    has 16 slots, each [null] or a key of FX_CONFIG; the tempo is between 20
    and 300; the sequencer's sample and its reversed copy are both absent or
    both present, 48 kHz stereo buffers of the same positive length; and
    while a sample is loaded the generated buffer is still there and
    [exportSequence] gets its offline context, of two channels and at least
    one frame, and schedules its sources. *)
Theorem app_reachable (events : list AppEvent) :
  Forall fromUI events ->
  let s := appRun atob btoa events in
  length (appPattern (appData s)) = 16
  /\ (forall i slot,
        appPattern (appData s) !! i = Some slot ->
        slot = None \/ exists fx, slot = Some fx /\ fx ∈ FX_KEYS)
  /\ ((20 <= appBpm (appData s))%Q /\ (appBpm (appData s) <= 300)%Q)
  /\ paired (sequencerSample (appData s)) (reversedSequencerSample (appData s))
  /\ (forall sample,
        sequencerSample (appData s) = Some sample ->
        is_Some (generatedAudioBuffer s)
        /\ exists ctx acts,
             exportSequence (appData s) = Scheduled ctx acts
             /\ offlineChannels ctx = 2
             /\ (0 < offlineLength ctx)%Z).
Proof.
  intros Hev s.
  destruct (appRun_invariant events Hev)
    as (Hlen & Hslots & Hfx & Hlo & Hhi & Hctx & Hload & Hgen & Hpair).
  fold s in Hlen, Hslots, Hfx, Hlo, Hhi, Hctx, Hload, Hgen, Hpair.
  split; [exact Hlen|]. split.
  { intros i slot Hi.
    pose proof (Forall_lookup_1 _ _ _ _ Hslots Hi) as Hin.
    destruct slot as [fx|]; [right|by left]. exists fx. split; [done|].
    unfold possibleStates in Hin. apply elem_of_app in Hin as [Hin|Hin].
    - apply list_elem_of_fmap in Hin as (fx' & [= ->] & Hin). done.
    - repeat (apply elem_of_cons in Hin as [Hin|Hin]; [discriminate Hin|]).
      by apply elem_of_nil in Hin. }
  split; [done|]. split; [exact Hpair|].
  intros sample Hsample.
  destruct (generatedAudioBuffer s) as [generated|] eqn:Hg; [|congruence].
  split; [done|]. destruct Hgen as [_ [rate Hrate]].
  specialize (Hctx rate Hrate).
  unfold paired in Hpair. rewrite Hsample in Hpair.
  destruct (reversedSequencerSample (appData s)) as [reversed|]; [|done].
  destruct Hpair as ((_ & Hchan & _) & _).
  assert (Hone : (1 <= 60.0 / appBpm (appData s) / 4.0 * 16 * rate)%Q).
  { assert (Heq : (60.0 / appBpm (appData s) / 4.0 * 16 * rate
                   == 240 * rate / appBpm (appData s))%Q).
    { field. intros Hz. rewrite Hz in Hlo. lra. }
    rewrite Heq. apply Qle_shift_div_l; lra. }
  unfold exportSequence. rewrite Hsample, Hrate.
  assert (Hfloor : (1 <= JS.floor (60.0 / appBpm (appData s) / 4.0 * 16 * rate))%Z).
  { change 1%Z with (Qfloor 1). by apply Qfloor_resp_le. }
  rewrite decide_False by (intros [?|?]; [congruence|lia]).
  eexists _, _. split; [reflexivity|].
  cbn [offlineChannels offlineLength]. split; [done|lia].
Qed.

End AppProperties.

Lemma app_reachable_witness :
  let events :=
    [ ClickGenerate 48000;
      GenerationSettled
        [Connected; SetupDone; Message (Some [Some "AAAAAAAAAAA="]);
         CollectionTimeoutFires];
      OnSelect 0 (1 / 24000);
      ClickLoad; ClickFx "delay"; ClickStep 3; ChangeBpm 120 ] in
  let s := appRun Base64.atob Base64.btoa events in
  (frames <$> sequencerSample (appData s)) = Some 2
  /\ appPattern (appData s) !! 3 = Some (Some "delay")
  /\ exists ctx acts,
       exportSequence (appData s) = Scheduled ctx acts
       /\ offlineChannels ctx = 2.
Proof.
  intros events s.
  assert (Hev : Forall fromUI events).
  { repeat constructor; discriminate. }
  destruct (app_reachable Base64.atob Base64.btoa events Hev)
    as (_ & _ & _ & _ & Hexport).
  assert (Hsample : exists sample, sequencerSample (appData s) = Some sample)
    by (eexists; vm_compute; reflexivity).
  destruct Hsample as [sample Hsample].
  destruct (Hexport sample Hsample) as (_ & ctx & acts & Hexp & Hchan & _).
  split; [vm_compute; reflexivity|]. split; [vm_compute; reflexivity|].
  exists ctx, acts. split; [exact Hexp|exact Hchan].
Defined.

(** ** Steps are never late while the timer keeps up *)

Lemma steady_nondecreasing clock : forall t,
  steady t clock -> nondecreasing t clock.
Proof.
  induction clock as [|t' later IH]; intros t; [done|].
  intros (H1 & _ & H2). split; [done|]. by apply IH.
Qed.

Lemma steady_snoc pre : forall t0 t,
  steady t0 (pre ++ [t]) ->
  steady t0 pre
  /\ (List.last pre t0 <= t)%Q /\ (t <= List.last pre t0 + 0.1)%Q.
Proof.
  induction pre as [|t' pre IH]; intros t0 t.
  - cbn. intros (H1 & H2 & _). done.
  - rewrite last_cons. cbn [app steady]. intros (H1 & H2 & H3).
    destruct (IH t' t H3) as (H4 & H5). done.
Qed.

(** X21. While the timer keeps up, no step is late: at a tempo above 0,
    with an audio context and a limiter, if every scheduler call comes at
    most 0.1 s (the lookahead) after the one before it and the clock never
    runs backwards, then every step a call triggers has its trigger time at
    or after the clock value of that call, and less than 0.1 s after it. *)
Theorem no_late_steps (sq : Sequencer) (now t : Q) (pre : list Q)
    (fuel : nat) (st1 st2 : Playback) :
  (0 < bpm sq)%Q -> audioContext sq = true -> limiter sq = true ->
  steady now (pre ++ [t]) ->
  playbackRun fuel sq now pre = Some st1 ->
  playbackRun fuel sq now (pre ++ [t]) = Some st2 ->
  exists new,
    fired st2 = fired st1 ++ new
    /\ Forall (fun entry => (t <= entry.2)%Q /\ (entry.2 < t + 0.1)%Q) new.
Proof.
  intros Hbpm Hctx Hlim Hsteady Hrun1 Hrun2.
  apply steady_snoc in Hsteady as (Hpre & Hle & Hgap).
  apply steady_nondecreasing in Hpre.
  assert (Hdue : (t <= nextStepTime st1)%Q).
  { unfold playbackRun, startPlayback in Hrun1. rewrite Hctx in Hrun1.
    set (st0 := mkPlayback now 0 (-1) false 0 [] []) in *.
    pose proof (secondsPerStep_pos _ Hbpm) as Hsps.
    assert (H0 : inWindow sq now now st0).
    { split; [cbn; lra|]. split; [cbn; lra|]. constructor. }
    destruct (scheduler fuel sq now st0) as [st|] eqn:Hs; [|done].
    cbn in Hrun1.
    pose proof (scheduler_inWindow sq now now fuel st0 st Hbpm Hctx Hlim H0 Hs)
      as H1.
    destruct (ticks_inWindow sq now fuel pre now st st1 Hbpm Hctx Hlim Hpre
                H1 Hrun1) as [_ Hdown].
    lra. }
  unfold playbackRun in Hrun1, Hrun2.
  destruct (startPlayback fuel sq now 0) as [st|]; [|done].
  cbn in Hrun1, Hrun2. rewrite ticks_app, Hrun1 in Hrun2.
  cbn in Hrun2. unfold scheduler in Hrun2. rewrite Hctx, Hlim in Hrun2.
  cbn in Hrun2.
  destruct (schedulerLoop fuel sq t st1) as [st'|] eqn:Hloop; [|done].
  cbn in Hrun2. injection Hrun2 as <-. cbn [fired].
  exact (proj2 (schedulerLoop_new sq t t fuel st1 st' Hbpm Hdue Hloop)).
Qed.

Lemma no_late_steps_witness :
  let buf := mkAudioBuffer 48000 2 [[0; 1]; [0; 1]]%Q in
  let sq := mkSequencer 240 (Some buf) (Some buf) true true
              (<[0 := Some "normal"]> (<[2 := Some "delay"]> emptyPattern))
              None true in
  exists st1 st2 new,
    playbackRun 20 sq 0 [0.025; 0.05]%Q = Some st1
    /\ playbackRun 20 sq 0 ([0.025; 0.05] ++ [0.075])%Q = Some st2
    /\ fired st2 = fired st1 ++ new
    /\ Forall (fun entry => (0.075 <= entry.2)%Q) new.
Proof.
  intros buf sq.
  assert (Hrun1 : exists st, playbackRun 20 sq 0 [0.025; 0.05]%Q = Some st)
    by (eexists; vm_compute; reflexivity).
  assert (Hrun2 : exists st,
             playbackRun 20 sq 0 ([0.025; 0.05] ++ [0.075])%Q = Some st)
    by (eexists; vm_compute; reflexivity).
  destruct Hrun1 as [st1 Hrun1]. destruct Hrun2 as [st2 Hrun2].
  assert (Hbpm : (0 < bpm sq)%Q) by reflexivity.
  assert (Hsteady : steady 0 ([0.025; 0.05] ++ [0.075])%Q).
  { cbn. repeat split; discriminate. }
  destruct (no_late_steps sq 0 0.075 [0.025; 0.05]%Q 20 st1 st2
              Hbpm eq_refl eq_refl Hsteady Hrun1 Hrun2) as (new & Hnew & Hall).
  exists st1, st2, new. split; [exact Hrun1|]. split; [exact Hrun2|].
  split; [exact Hnew|].
  eapply Forall_impl; [exact Hall|]. intros entry [H _]. exact H.
Defined.

(** When a timer callback comes more than the lookahead after the one
    before it, steps are triggered in the past: here step 2, due at 0.125 s,
    is only triggered by the callback at 0.5 s. *)
Example late_step :
  let buf := mkAudioBuffer 48000 2 [[0; 1]; [0; 1]]%Q in
  let sq := mkSequencer 240 (Some buf) (Some buf) true true
              (replicate 16 (Some "normal")) None true in
  (length <$> (fired <$> playbackRun 20 sq 0 []%Q)) = Some 2
  /\ exists st t,
       playbackRun 20 sq 0 [0.5]%Q = Some st
       /\ fired st !! 2 = Some (2, t) /\ (t == 0.125)%Q /\ (t < 0.5)%Q.
Proof.
  split; [vm_compute; reflexivity|].
  eexists _, _. split; [vm_compute; reflexivity|].
  split; [reflexivity|]. split; reflexivity.
Qed.

(** ** The preview player *)


Lemma playGeneratedAudio_invariant p flag :
  previewInvariant p ->
  previewInvariant
    (playGeneratedAudio
       (mkPreview (audioSourceRef p) flag (sourceCount p) (previewCalls p))).
Proof.
  intros (Hstart & Href & Hone & Hflag).
  unfold playGeneratedAudio, previewInvariant.
  unfold unstopped. cbn [audioSourceRef sourceCount previewCalls].
  split; [|split; [|split]].
  - intros id. rewrite elem_of_app, list_elem_of_singleton.
    intros [Hin|[= ->]]; [|lia].
    destruct (audioSourceRef p); [apply elem_of_app in Hin as [Hin|Hin]|];
      [| by apply list_elem_of_singleton in Hin |];
      specialize (Hstart _ Hin); lia.
  - intros id [= <-]. lia.
  - intros id. rewrite elem_of_app, list_elem_of_singleton.
    rewrite not_elem_of_app. intros [[Hin|[= ->]] [Hout _]]; [|done].
    exfalso. destruct (audioSourceRef p) as [old|] eqn:Hold.
    + apply elem_of_app in Hin as [Hin|Hin];
        [|by apply list_elem_of_singleton in Hin].
      apply not_elem_of_app in Hout as [Hout Hne].
      specialize (Hone id (conj Hin Hout)). injection Hone as ->.
      apply Hne. constructor.
    + by specialize (Hone id (conj Hin Hout)).
  - by eexists.
Qed.

Lemma stop_current p current calls :
  previewInvariant p ->
  audioSourceRef p = Some current ->
  forall id,
    PreviewStart id ∈ previewCalls p ++ calls ->
    (forall id', PreviewStart id' ∉ calls) ->
    PreviewStop id ∉ previewCalls p ++ [PreviewStop current] -> False.
Proof.
  intros (_ & _ & Hone & _) Hcur id Hin Hnone Hout.
  apply elem_of_app in Hin as [Hin|Hin]; [|by apply Hnone in Hin].
  apply not_elem_of_app in Hout as [Hout Hne].
  specialize (Hone id (conj Hin Hout)). rewrite Hcur in Hone.
  injection Hone as ->. apply Hne. constructor.
Qed.

Lemma stop_only id current : PreviewStart id ∉ [PreviewStop current].
Proof. intros H. by apply list_elem_of_singleton in H. Qed.

Lemma handleStopGeneratedAudio_silent p id :
  previewInvariant p -> ~ unstopped (handleStopGeneratedAudio p) id.
Proof.
  intros Hinv [Hin Hout]. unfold handleStopGeneratedAudio in *.
  destruct (audioSourceRef p) as [current|] eqn:Hcur;
    cbn [previewCalls] in *.
  - apply (stop_current p current [PreviewStop current] Hinv Hcur id);
      [exact Hin| |exact Hout].
    intros id'. apply stop_only.
  - destruct Hinv as (_ & _ & Hone & _).
    specialize (Hone id (conj Hin Hout)). congruence.
Qed.

Lemma handleStopGeneratedAudio_invariant p :
  previewInvariant p -> previewInvariant (handleStopGeneratedAudio p).
Proof.
  intros Hinv. split; [|split; [|split]].
  - destruct Hinv as (Hstart & _ & _). intros id.
    unfold handleStopGeneratedAudio.
    destruct (audioSourceRef p); cbn; [|by apply Hstart].
    rewrite elem_of_app, list_elem_of_singleton.
    intros [Hin|[=]]. by apply Hstart.
  - unfold handleStopGeneratedAudio. by destruct (audioSourceRef p).
  - intros id H. by apply handleStopGeneratedAudio_silent in H.
  - unfold handleStopGeneratedAudio. by destruct (audioSourceRef p).
Qed.

Lemma previewStep_invariant p e :
  previewInvariant p -> previewInvariant (previewStep p e).
Proof.
  intros Hinv. destruct e; cbn [previewStep].
  - unfold handlePlayPauseGeneratedAudio.
    destruct hasBuffer; [|done]. cbn [negb].
    destruct (isGeneratedAudioPlaying p) eqn:Hplaying.
    + pose proof Hinv as (Hstart & Href & Hone & Hflag).
      destruct (Hflag Hplaying) as [current Hcur]. rewrite Hcur.
      split; [|split; [|split]];
        cbn [audioSourceRef sourceCount previewCalls isGeneratedAudioPlaying].
      * intros id. rewrite elem_of_app, list_elem_of_singleton.
        intros [Hin|[=]]. by apply Hstart.
      * intros id [= <-]. by apply Href.
      * intros id [Hin Hout]. cbn [previewCalls] in *. exfalso.
        apply (stop_current p current [PreviewStop current] Hinv Hcur id);
          [exact Hin| |exact Hout].
        intros id'. apply stop_only.
      * done.
    + by apply playGeneratedAudio_invariant.
  - by apply handleStopGeneratedAudio_invariant.
  - destruct (isGeneratedAudioPlaying p); [|done].
    by apply handleStopGeneratedAudio_invariant.
  - destruct Hinv as (Hstart & Href & Hone & Hflag).
    split; [|split; [|split]]; done.
Qed.

Lemma previewRun_invariant events : previewInvariant (previewRun events).
Proof.
  unfold previewRun.
  assert (H0 : previewInvariant initialPreview).
  { split; [|split; [|split]]; cbn; try done.
    - intros id H. by apply elem_of_nil in H.
    - intros id [H _]. by apply elem_of_nil in H. }
  revert H0. generalize initialPreview.
  induction events as [|e events IH]; intros p Hp; [done|].
  cbn [fold_left]. by apply IH, previewStep_invariant.
Qed.

(** X22. The preview player never lets two sources sound: after any
    sequence of play/pause clicks, stop clicks, new generations and [onended]
    callbacks, a source that was started and not stopped is the current
    [audioSourceRef], so there is at most one; the stop handler leaves none;
    a play/pause click leaves none when the player was playing and only the
    newly created source otherwise; and while [isGeneratedAudioPlaying] is
    set there is a current source. *)
Theorem preview_single_source (events : list PreviewEvent) :
  let p := previewRun events in
  (forall id, unstopped p id -> audioSourceRef p = Some id)
  /\ (forall id id', unstopped p id -> unstopped p id' -> id = id')
  /\ (forall id, ~ unstopped (previewStep p ClickStop) id)
  /\ (forall id,
        unstopped (previewStep p (ClickPlayPause true)) id ->
        isGeneratedAudioPlaying p = false /\ id = sourceCount p)
  /\ (isGeneratedAudioPlaying p = true -> is_Some (audioSourceRef p)).
Proof.
  intros p. pose proof (previewRun_invariant events) as Hinv. fold p in Hinv.
  pose proof Hinv as (Hstart & Href & Hone & Hflag).
  split; [exact Hone|]. split.
  { intros id id' H H'. apply Hone in H, H'. congruence. }
  split; [intros id; by apply handleStopGeneratedAudio_silent|].
  split; [|exact Hflag].
  intros id H.
  pose proof (previewStep_invariant p (ClickPlayPause true) Hinv)
    as (_ & _ & Hone' & _).
  specialize (Hone' id H).
  cbn [previewStep] in *. unfold handlePlayPauseGeneratedAudio in *.
  cbn [negb] in *.
  destruct (isGeneratedAudioPlaying p) eqn:Hplaying.
  - exfalso. destruct H as [Hin Hout]. cbn [previewCalls audioSourceRef] in *.
    destruct (audioSourceRef p) as [current|] eqn:Hcur; [|done].
    apply (stop_current p current [PreviewStop current] Hinv Hcur id);
      [exact Hin| |exact Hout].
    intros id' H. by apply list_elem_of_singleton in H.
  - split; [done|]. cbn in Hone'. congruence.
Qed.

(** The flag can be wrong: the [onended] callback of a source that was
    stopped may come after the next source was started, and then the player
    shows "not playing" while a source sounds. *)
Example preview_flag_race :
  let p := previewRun [ClickPlayPause true; ClickPlayPause true;
                       ClickPlayPause true; SourceEnded 0] in
  isGeneratedAudioPlaying p = false /\ unstopped p 1.
Proof.
  split; [reflexivity|]. split; cbn.
  - do 3 apply list_elem_of_further. constructor.
  - intros H. repeat (apply elem_of_cons in H as [H|H]; [discriminate H|]).
    by apply elem_of_nil in H.
Qed.
